(** * Spotify integration layer of My-Study-App: a shallow embedding

    The development follows the three service modules of the application:

    - [services/spotifyAuth.ts]   (PKCE login, token storage and refresh),
    - [services/spotifyAPI.ts]    (the authenticated fetch primitive),
    - [services/spotifyPlayer.ts] (the playback engine with its remote
      fallback).

    Data.  [localStorage] is a finite map from keys to strings.  Strings are
    sequences of code units below 256.  [Date.now()], token lifetimes and
    positions are exact integers, the volume is an exact rational: the
    rounding of double-precision arithmetic is not modelled.  Subscriber
    callbacks, vendor player objects and timers are handles (numbers).

    Effects.  The two remote hosts (the token endpoint and the Web API) are
    scripts of replies, consumed one per request; every request is logged.
    Code that awaits is written in state-passing style over this world.
    [localStorage] never throws and the methods of the vendor player never
    throw or reject.

    Interleaving.  The engine is an event-driven object: its state is a
    record, and everything that can happen to it is an event of a step
    function.  A call of a transport method runs to completion within one
    event.  A call of [initialize] runs up to the point where it awaits the
    race between the ready event, the error events, the result of
    [connect()] and the timeout, each of which is a later event.  A call of
    [pollRemoteState] is split into its start (the request goes out) and its
    settlement (the state reaches the subscribers), so that other events,
    [disconnect] among them, can fall in between. *)

From Stdlib Require Import ZArith String Ascii List Bool Lia.
From Stdlib Require Import Decimal DecimalString DecimalZ QArith Qround Lqa.
From stdpp Require Import gmap strings list.

Import ListNotations.
Local Open Scope string_scope.
Local Open Scope Z_scope.

(** ** JavaScript primitives used by the services *)

Module JS.

(** Truthiness of a [string | null] value: [null] and the empty string are
    falsy. *)
Definition truthy (v : option string) : bool :=
  match v with
  | None => false
  | Some EmptyString => false
  | Some (String _ _) => true
  end.

(** [a || b] on [string | undefined] operands. *)
Definition or_else (a : option string) (b : string) : string :=
  match a with
  | Some (String c r) => String c r
  | _ => b
  end.

(** [String(v)] for a value that may be [undefined]. *)
Definition to_string_opt (v : option string) : string :=
  match v with
  | Some s => s
  | None => "undefined"
  end.

(** [hay.includes(needle)]. *)
Fixpoint includes (hay needle : string) : bool :=
  String.prefix needle hay
  || match hay with
     | EmptyString => false
     | String _ rest => includes rest needle
     end.

(** White space skipped by [parseInt] (code units below 256). *)
Definition is_space (c : ascii) : bool :=
  let n := nat_of_ascii c in
  (Nat.eqb n 9 || Nat.eqb n 10 || Nat.eqb n 11 || Nat.eqb n 12
   || Nat.eqb n 13 || Nat.eqb n 32 || Nat.eqb n 160)%bool.

Fixpoint skip_spaces (s : string) : string :=
  match s with
  | String c rest => if is_space c then skip_spaces rest else s
  | EmptyString => s
  end.

(** Value of a digit in the given radix ([0-9], [a-z], [A-Z]). *)
Definition digit_val (radix : Z) (c : ascii) : option Z :=
  let n := Z.of_nat (nat_of_ascii c) in
  let v :=
    if (48 <=? n) && (n <=? 57) then Some (n - 48)
    else if (97 <=? n) && (n <=? 122) then Some (n - 87)
    else if (65 <=? n) && (n <=? 90) then Some (n - 55)
    else None in
  match v with
  | Some d => if d <? radix then Some d else None
  | None => None
  end.

(** The longest prefix of digits, read most significant first; [seen]
    records whether at least one digit was consumed. *)
Fixpoint read_digits (radix : Z) (s : string) (acc : Z) (seen : bool)
  : option Z :=
  match s with
  | String c rest =>
      match digit_val radix c with
      | Some d => read_digits radix rest (acc * radix + d) true
      | None => if seen then Some acc else None
      end
  | EmptyString => if seen then Some acc else None
  end.

(** The digits of [parseInt] after the sign: a leading [0x] or [0X]
    selects radix 16, otherwise the radix is 10. *)
Definition parse_magnitude (s : string) : option Z :=
  match s with
  | String "0" (String "x" r) => read_digits 16 r 0 false
  | String "0" (String "X" r) => read_digits 16 r 0 false
  | _ => read_digits 10 s 0 false
  end.

(** [parseInt(s)] with no radix argument; [None] is [NaN].  The result is
    the mathematical integer: for the comparison with [Date.now()] (an exact
    integer below 2^53) rounding to a double does not change the outcome. *)
Definition parseInt (s : string) : option Z :=
  match skip_spaces s with
  | String "-" r => Z.opp <$> parse_magnitude r
  | String "+" r => parse_magnitude r
  | s1 => parse_magnitude s1
  end.

(** [n.toString()] for an integral number (decimal notation, which is what
    JavaScript prints below 10^21). *)
Definition number_to_string (n : Z) : string :=
  NilZero.string_of_int (Z.to_int n).

(** [a >= b] where [b] may be [NaN]: every comparison with [NaN] is
    false. *)
Definition ge_nan (a : Z) (b : option Z) : bool :=
  match b with
  | Some v => v <=? a
  | None => false
  end.

(** [s.replace(/c/g, by)] for a single character [c]. *)
Fixpoint replace_all (c : ascii) (by_ : string) (s : string) : string :=
  match s with
  | EmptyString => EmptyString
  | String x rest =>
      if Ascii.eqb x c then by_ ++ replace_all c by_ rest
      else String x (replace_all c by_ rest)
  end.

(** The alphabet of [btoa]. *)
Definition b64_alphabet : string :=
  "ABCDEFGHIJKLMNOPQRSTUVWXYZabcdefghijklmnopqrstuvwxyz0123456789+/".

Definition b64_char (n : nat) : string :=
  match String.get n b64_alphabet with
  | Some c => String c EmptyString
  | None => EmptyString
  end.

(** [btoa(s)] on a binary string: three bytes give four characters, and a
    last group of one or two bytes is padded with [=]. *)
Fixpoint btoa (s : string) : string :=
  match s with
  | EmptyString => EmptyString
  | String a EmptyString =>
      let a := nat_of_ascii a in
      b64_char (Nat.div a 4) ++ b64_char (Nat.modulo a 4 * 16) ++ "=="
  | String a (String b EmptyString) =>
      let a := nat_of_ascii a in
      let b := nat_of_ascii b in
      b64_char (Nat.div a 4)
      ++ b64_char (Nat.modulo a 4 * 16 + Nat.div b 16)
      ++ b64_char (Nat.modulo b 16 * 4) ++ "="
  | String a (String b (String c rest)) =>
      let a := nat_of_ascii a in
      let b := nat_of_ascii b in
      let c := nat_of_ascii c in
      b64_char (Nat.div a 4)
      ++ b64_char (Nat.modulo a 4 * 16 + Nat.div b 16)
      ++ b64_char (Nat.modulo b 16 * 4 + Nat.div c 64)
      ++ b64_char (Nat.modulo c 64)
      ++ btoa rest
  end.

(** Characters [encodeURIComponent] leaves alone: letters, digits and
    [- _ . ! ~ * ' ( )]. *)
Definition is_alnum (c : ascii) : bool :=
  let n := nat_of_ascii c in
  (Nat.leb 48 n && Nat.leb n 57) || (Nat.leb 65 n && Nat.leb n 90)
  || (Nat.leb 97 n && Nat.leb n 122).

Definition is_unreserved (c : ascii) : bool :=
  is_alnum c
  || existsb (Ascii.eqb c) (list_ascii_of_string "-_.!~*'()").

Definition hex_upper (n : nat) : string :=
  match String.get n "0123456789ABCDEF" with
  | Some c => String c EmptyString
  | None => EmptyString
  end.

Definition percent (byte : nat) : string :=
  "%" ++ hex_upper (Nat.div byte 16) ++ hex_upper (Nat.modulo byte 16).

(** One code unit under [encodeURIComponent]: code units from 128 to 255
    are written as the two bytes of their UTF-8 encoding. *)
Definition encode_unit (c : ascii) : string :=
  let n := nat_of_ascii c in
  if is_unreserved c then String c EmptyString
  else if Nat.ltb n 128 then percent n
  else percent (192 + Nat.div n 64) ++ percent (128 + Nat.modulo n 64).

(** [encodeURIComponent(s)]. *)
Fixpoint encodeURIComponent (s : string) : string :=
  match s with
  | EmptyString => EmptyString
  | String c rest => encode_unit c ++ encodeURIComponent rest
  end.

End JS.

(** ** The world the services run in *)

Module Net.

(** Body of a successful token-endpoint reply:
    [{access_token, refresh_token?, expires_in}]. *)
Record TokenData := {
  access_token : string;
  refresh_token : option string;
  expires_in : Z;
}.

(** What a [fetch] call settles to.  [NetworkError]: the promise rejects.
    [Response status text body]: a response arrived; [body = None] means
    that [response.json()] rejects. *)
Inductive Reply (B : Type) : Type :=
| NetworkError
| Response (status : Z) (statusText : string) (body : option B).
Arguments NetworkError {B}.
Arguments Response {B} status statusText body.

(** [response.ok]. *)
Definition ok (status : Z) : bool := (200 <=? status) && (status <=? 299).

(** The form posted to [https://accounts.spotify.com/api/token]. *)
Inductive TokenRequest :=
| AuthorizationCode (code redirect_uri client_id code_verifier : string)
| RefreshToken (refresh_token client_id : string).

(** A request to [https://api.spotify.com/v1...]. *)
Record ApiRequest := {
  req_method : string;
  req_url : string;
  req_bearer : string;
  req_body : option string;
}.

(** The [item] of the Web API's playback object. *)
Record Album := { album_name : string; album_images : list string }.

Record Item := {
  item_id : string;
  item_name : string;
  item_artists : list string;
  item_album : option Album;
  item_duration_ms : Z;
}.

(** Bodies of Web API replies: the playback object of [GET /me/player]
    ([progress_ms] and [item] may be null), or any other JSON document,
    kept as its text. *)
Record Playback := {
  is_playing : bool;
  progress_ms : option Z;
  item : option Item;
}.

Inductive ApiBody :=
| PlaybackBody (d : Playback)
| JsonBody (text : string).

Record World := {
  storage : gmap string string;          (* localStorage *)
  now : Z;                               (* Date.now() *)
  query : list (string * string);        (* window.location.search *)
  tokenNet : list (Reply TokenData);     (* replies still to come *)
  apiNet : list (Reply ApiBody);
  tokenSent : list TokenRequest;         (* requests issued, oldest first *)
  apiSent : list ApiRequest;
}.

Definition set_storage (f : gmap string string -> gmap string string)
  (w : World) : World :=
  {| storage := f (storage w); now := now w; query := query w;
     tokenNet := tokenNet w; apiNet := apiNet w;
     tokenSent := tokenSent w; apiSent := apiSent w |}.

Definition set_query (q : list (string * string)) (w : World) : World :=
  {| storage := storage w; now := now w; query := q;
     tokenNet := tokenNet w; apiNet := apiNet w;
     tokenSent := tokenSent w; apiSent := apiSent w |}.

(** Time passes. *)
Definition advance (dt : Z) (w : World) : World :=
  {| storage := storage w; now := now w + dt; query := query w;
     tokenNet := tokenNet w; apiNet := apiNet w;
     tokenSent := tokenSent w; apiSent := apiSent w |}.

(** [localStorage.getItem / setItem / removeItem]. *)
Definition getItem (k : string) (w : World) : option string :=
  storage w !! k.
Definition setItem (k v : string) (w : World) : World :=
  set_storage (insert k v) w.
Definition removeItem (k : string) (w : World) : World :=
  set_storage (delete k) w.

(** [new URLSearchParams(window.location.search).get(k)]: the first value
    recorded for [k]. *)
Fixpoint url_get (k : string) (q : list (string * string)) : option string :=
  match q with
  | [] => None
  | (k', v) :: rest => if String.eqb k k' then Some v else url_get k rest
  end.

(** [await fetch(token endpoint, form)]: the request is logged and the next
    scripted reply is consumed; a host whose script is exhausted no longer
    answers. *)
Definition fetch_token (r : TokenRequest) (w : World)
  : Reply TokenData * World :=
  let reply := match tokenNet w with [] => NetworkError | x :: _ => x end in
  (reply,
   {| storage := storage w; now := now w; query := query w;
      tokenNet := tail (tokenNet w); apiNet := apiNet w;
      tokenSent := tokenSent w ++ [r]; apiSent := apiSent w |}).

(** [await fetch(api url, init)]. *)
Definition fetch_api (r : ApiRequest) (w : World)
  : Reply ApiBody * World :=
  let reply := match apiNet w with [] => NetworkError | x :: _ => x end in
  (reply,
   {| storage := storage w; now := now w; query := query w;
      tokenNet := tokenNet w; apiNet := tail (apiNet w);
      tokenSent := tokenSent w; apiSent := apiSent w ++ [r] |}).

End Net.

(** ** [services/spotifyAuth.ts] *)

Module SpotifyAuth.
Import Net.

Definition CLIENT_ID : string := "c3021f4222df4f36a59828236113824f".
Definition REDIRECT_URI : string := "http://127.0.0.1:5173/callback".

Definition ACCESS_TOKEN_KEY : string := "spotify_access_token".
Definition REFRESH_TOKEN_KEY : string := "spotify_refresh_token".
Definition TOKEN_EXPIRY_KEY : string := "spotify_token_expiry".
Definition CODE_VERIFIER_KEY : string := "spotify_code_verifier".

(** [generateRandomString(length)]; [values] are the [length] bytes that
    [crypto.getRandomValues] delivered. *)
Definition possible : string :=
  "ABCDEFGHIJKLMNOPQRSTUVWXYZabcdefghijklmnopqrstuvwxyz0123456789".

Definition generateRandomString (values : list nat) : string :=
  fold_left
    (fun acc x =>
       acc ++ match String.get (Nat.modulo x (String.length possible))
                      possible with
              | Some c => String c EmptyString
              | None => "undefined"
              end)
    values EmptyString.

(** [base64encode(input)]; the buffer is the string of its bytes. *)
Definition base64encode (input : string) : string :=
  JS.replace_all "/" "_"
    (JS.replace_all "+" "-" (JS.replace_all "=" EmptyString (JS.btoa input))).

(** [generateCodeChallenge(verifier)]; the digest function of
    [crypto.subtle] is a parameter. *)
Definition generateCodeChallenge (sha256 : string -> string)
  (verifier : string) : string :=
  base64encode (sha256 verifier).

(** [login()]: the verifier drawn from [crypto.getRandomValues] is a
    parameter; the page then navigates to the provider. *)
Definition login (codeVerifier : string) (w : World) : World :=
  setItem CODE_VERIFIER_KEY codeVerifier w.

(** [storeTokens(accessToken, refreshToken, expiresIn)]. *)
Definition storeTokens (accessToken refreshToken : string) (expiresIn : Z)
  (w : World) : World :=
  let expiryTime := now w + expiresIn * 1000 in
  let w1 := setItem ACCESS_TOKEN_KEY accessToken w in
  let w2 := setItem REFRESH_TOKEN_KEY refreshToken w1 in
  setItem TOKEN_EXPIRY_KEY (JS.number_to_string expiryTime) w2.

(** [logout()]. *)
Definition logout (w : World) : World :=
  let w1 := removeItem ACCESS_TOKEN_KEY w in
  let w2 := removeItem REFRESH_TOKEN_KEY w1 in
  let w3 := removeItem TOKEN_EXPIRY_KEY w2 in
  removeItem CODE_VERIFIER_KEY w3.

(** [handleCallback()]. *)
Definition handleCallback (w : World) : bool * World :=
  let code := url_get "code" (query w) in
  let error := url_get "error" (query w) in
  if JS.truthy error then (false, w)
  else
    match code with
    | Some (String _ _ as code) =>
        match getItem CODE_VERIFIER_KEY w with
        | Some (String _ _ as codeVerifier) =>
            let '(response, w1) :=
              fetch_token
                (AuthorizationCode code REDIRECT_URI CLIENT_ID codeVerifier)
                w in
            match response with
            | Response status _ body =>
                if negb (ok status) then (false, w1)
                else
                  match body with
                  | Some data =>
                      let w2 :=
                        storeTokens (access_token data)
                          (JS.to_string_opt (refresh_token data))
                          (expires_in data) w1 in
                      let w3 := removeItem CODE_VERIFIER_KEY w2 in
                      let w4 := set_query [] w3 in
                      (true, w4)
                  | None => (false, w1)
                  end
            | NetworkError => (false, w1)
            end
        | _ => (false, w)
        end
    | _ => (false, w)
    end.

(** [getAccessToken()]. *)
Definition getAccessToken (w : World) : option string :=
  let token := getItem ACCESS_TOKEN_KEY w in
  let expiry := getItem TOKEN_EXPIRY_KEY w in
  if negb (JS.truthy token) || negb (JS.truthy expiry) then None
  else if JS.ge_nan (now w) (expiry ≫= JS.parseInt) then None
  else token.

(** [refreshAccessToken()]. *)
Definition refreshAccessToken (w : World) : option string * World :=
  match getItem REFRESH_TOKEN_KEY w with
  | Some (String _ _ as refreshToken) =>
      let '(response, w1) :=
        fetch_token (RefreshToken refreshToken CLIENT_ID) w in
      match response with
      | Response status _ body =>
          if negb (ok status) then (None, logout w1)
          else
            match body with
            | Some data =>
                let w2 :=
                  storeTokens (access_token data)
                    (JS.or_else (refresh_token data) refreshToken)
                    (expires_in data) w1 in
                (Some (access_token data), w2)
            | None => (None, logout w1)
            end
      | NetworkError => (None, logout w1)
      end
  | _ => (None, w)
  end.

(** [getValidAccessToken()]. *)
Definition getValidAccessToken (w : World) : option string * World :=
  let token := getAccessToken w in
  if negb (JS.truthy token) then refreshAccessToken w
  else (token, w).

(** [isAuthenticated()]. *)
Definition isAuthenticated (w : World) : bool :=
  match getAccessToken w with Some _ => true | None => false end.

End SpotifyAuth.

(** ** [services/spotifyAPI.ts] *)

Module SpotifyAPI.
Import Net.

(** How a call of the fetch primitive ends: with the parsed body or with a
    thrown error. *)
Inductive Failure :=
| NoValidAccessToken               (* Error('No valid access token') *)
| ApiError (status : Z) (statusText : string)
| FetchRejected                    (* fetch itself rejected *)
| JsonRejected.                    (* response.json() rejected *)

Inductive Outcome :=
| Returned (body : ApiBody)
| Threw (e : Failure)
| OutOfFuel.

Definition request (token endpoint : string) : ApiRequest :=
  {| req_method := "GET";
     req_url := "https://api.spotify.com/v1" ++ endpoint;
     req_bearer := token;
     req_body := None |}.

(** [fetch<T>(endpoint, options = {})], with the recursion of the retry
    bounded by [fuel].  No caller in the module passes options, so the
    request is the default GET. *)
Fixpoint fetch_fuel (fuel : nat) (endpoint : string) (w : World)
  : Outcome * World :=
  match fuel with
  | O => (OutOfFuel, w)
  | S fuel' =>
      let '(token, w1) := SpotifyAuth.getValidAccessToken w in
      match token with
      | Some (String _ _ as token) =>
          let '(response, w2) := fetch_api (request token endpoint) w1 in
          match response with
          | Response status statusText body =>
              if negb (ok status) then
                if status =? 401 then
                  let '(newToken, w3) := SpotifyAuth.refreshAccessToken w2 in
                  if JS.truthy newToken then fetch_fuel fuel' endpoint w3
                  else (Threw (ApiError status statusText), w3)
                else (Threw (ApiError status statusText), w2)
              else
                match body with
                | Some b => (Returned b, w2)
                | None => (Threw JsonRejected, w2)
                end
          | NetworkError => (Threw FetchRejected, w2)
          end
      | _ => (Threw NoValidAccessToken, w1)
      end
  end.

(** Every round of the recursion consumes one scripted Web API reply, so
    this much fuel is never used up (see [fetch_fuel_enough]). *)
Definition fetch (endpoint : string) (w : World) : Outcome * World :=
  fetch_fuel (S (length (apiNet w))) endpoint w.

Definition getCurrentUser (w : World) : Outcome * World :=
  fetch "/me" w.

Definition getPlaylist (playlistId : string) (w : World) : Outcome * World :=
  fetch ("/playlists/" ++ playlistId) w.

(** The [type] argument of [search]. *)
Inductive SearchType := SearchTrack | SearchPlaylist | SearchAlbum.

Definition search_type_name (t : SearchType) : string :=
  match t with
  | SearchTrack => "track"
  | SearchPlaylist => "playlist"
  | SearchAlbum => "album"
  end.

(** The endpoint [search(query, type, limit)] asks for. *)
Definition search_endpoint (query : string) (type : SearchType) (limit : Z)
  : string :=
  "/search?q=" ++ JS.encodeURIComponent query
  ++ "&type=" ++ search_type_name type
  ++ "&limit=" ++ JS.number_to_string limit.

(** [search(query, type = 'track', limit = 20)], up to the document the
    primitive returns; bodies are opaque here, so the selection of
    [response[type + 's'].items] from it is left to the caller. *)
Definition search (query : string) (type : SearchType) (limit : Z)
  (w : World) : Outcome * World :=
  fetch (search_endpoint query type limit) w.

End SpotifyAPI.

(** ** [services/spotifyPlayer.ts] *)

Module SpotifyPlayer.
Import Net.

(** *** The vendor SDK, as the engine sees it *)

Record Track := {
  track_id : string;
  track_name : string;
  track_artists : list string;
  track_album : Album;
  track_duration_ms : Z;
}.

(** [PlayerState]; [position] is null when the Web API reports no
    progress. *)
Record PlayerState := {
  paused : bool;
  position : option Z;
  duration : Z;
  current_track : Track;
}.

Inductive SdkEvent :=
| Ready (device_id : string)
| NotReady (device_id : string)
| PlayerStateChanged (state : option PlayerState)
| InitializationError (message : string)
| AuthenticationError (message : string)
| AccountError (message : string)
| PlaybackError (message : string).

Inductive EventName :=
| ready | not_ready | player_state_changed | initialization_error
| authentication_error | account_error | playback_error.

Definition event_name (e : SdkEvent) : EventName :=
  match e with
  | Ready _ => ready
  | NotReady _ => not_ready
  | PlayerStateChanged _ => player_state_changed
  | InitializationError _ => initialization_error
  | AuthenticationError _ => authentication_error
  | AccountError _ => account_error
  | PlaybackError _ => playback_error
  end.

(** The callbacks the engine registers on a player: those of
    [setupEventListeners], and the closures [onReady] and [onError] of the
    promise built by the call of [initialize] that constructed player
    [attempt]. *)
Inductive Handler :=
| Setup
| OnReady (attempt : nat)
| OnError (attempt : nat).

#[global] Instance EventName_eq_dec : EqDecision EventName.
Proof. solve_decision. Defined.

#[global] Instance Handler_eq_dec : EqDecision Handler.
Proof. solve_decision. Defined.

(** Methods of the vendor's player object. *)
Inductive SdkMethod :=
| SdkConnect | SdkDisconnect | SdkGetCurrentState
| SdkPause | SdkResume | SdkTogglePlay | SdkNextTrack | SdkPreviousTrack
| SdkSeek (positionMs : Z)
| SdkSetVolume (volume : Q).

(** One constructed player object, with the variables of the promise that
    [initialize] built around it. *)
Record SdkPlayer := {
  listeners : list (EventName * Handler);
  connecting : bool;          (* connect() was called and is pending *)
  timeout : option nat;       (* the timer of the race *)
  settled : option bool;      (* what the promise resolved to *)
}.

(** [window.Spotify]: missing (and then what loading the script gives:
    nothing, or an SDK), or present; [sound = false] is an SDK whose
    constructor throws. *)
Inductive SdkStatus :=
| SdkMissing (onLoad : option bool)
| SdkPresent (sound : bool).

Inductive Timer :=
| FallbackTimeout (attempt : nat)   (* setTimeout(..., 5000) *)
| PollTick                          (* setInterval(..., 3000) *)
| Repoll.                           (* setTimeout(..., 200) *)

Definition delay_ms (t : Timer) : Z :=
  match t with
  | FallbackTimeout _ => 5000
  | PollTick => 3000
  | Repoll => 200
  end.

(** A call of [pollRemoteState] whose request is out: the state it will
    deliver, and whether it is the initial fetch of [startRemotePolling],
    after which the interval is installed. *)
Record Poll := {
  then_interval : bool;
  result : option PlayerState;
}.

(** What the environment can observe of the engine, besides its HTTP
    requests (which the world records). *)
Inductive Action :=
| SdkNew (p : nat)
| SdkAddListener (p : nat) (ev : EventName) (h : Handler)
| SdkRemoveListener (p : nat) (ev : EventName) (h : Handler)
| SdkCall (p : nat) (m : SdkMethod)
| Notified (callback : nat) (state : option PlayerState)
| Resolved (attempt : nat) (value : bool)
| Alerted.

(** *** The engine and its environment *)

Record System := {
  (* fields of the class *)
  player : option nat;
  deviceId : option string;
  useRemote : bool;
  pollInterval : option nat;
  stateCallbacks : list nat;
  (* environment *)
  world : World;
  sdk : SdkStatus;
  players : list SdkPlayer;
  timers : list (nat * Timer);
  nextTimer : nat;
  polls : list Poll;
  trace : list Action;
}.

Definition set_player (v : option nat) (s : System) : System :=
  {| player := v; deviceId := deviceId s; useRemote := useRemote s;
     pollInterval := pollInterval s; stateCallbacks := stateCallbacks s;
     world := world s; sdk := sdk s; players := players s;
     timers := timers s; nextTimer := nextTimer s; polls := polls s;
     trace := trace s |}.

Definition set_deviceId (v : option string) (s : System) : System :=
  {| player := player s; deviceId := v; useRemote := useRemote s;
     pollInterval := pollInterval s; stateCallbacks := stateCallbacks s;
     world := world s; sdk := sdk s; players := players s;
     timers := timers s; nextTimer := nextTimer s; polls := polls s;
     trace := trace s |}.

Definition set_useRemote (v : bool) (s : System) : System :=
  {| player := player s; deviceId := deviceId s; useRemote := v;
     pollInterval := pollInterval s; stateCallbacks := stateCallbacks s;
     world := world s; sdk := sdk s; players := players s;
     timers := timers s; nextTimer := nextTimer s; polls := polls s;
     trace := trace s |}.

Definition set_pollInterval (v : option nat) (s : System) : System :=
  {| player := player s; deviceId := deviceId s; useRemote := useRemote s;
     pollInterval := v; stateCallbacks := stateCallbacks s;
     world := world s; sdk := sdk s; players := players s;
     timers := timers s; nextTimer := nextTimer s; polls := polls s;
     trace := trace s |}.

Definition set_stateCallbacks (v : list nat) (s : System) : System :=
  {| player := player s; deviceId := deviceId s; useRemote := useRemote s;
     pollInterval := pollInterval s; stateCallbacks := v;
     world := world s; sdk := sdk s; players := players s;
     timers := timers s; nextTimer := nextTimer s; polls := polls s;
     trace := trace s |}.

Definition set_world (v : World) (s : System) : System :=
  {| player := player s; deviceId := deviceId s; useRemote := useRemote s;
     pollInterval := pollInterval s; stateCallbacks := stateCallbacks s;
     world := v; sdk := sdk s; players := players s;
     timers := timers s; nextTimer := nextTimer s; polls := polls s;
     trace := trace s |}.

Definition set_sdk (v : SdkStatus) (s : System) : System :=
  {| player := player s; deviceId := deviceId s; useRemote := useRemote s;
     pollInterval := pollInterval s; stateCallbacks := stateCallbacks s;
     world := world s; sdk := v; players := players s;
     timers := timers s; nextTimer := nextTimer s; polls := polls s;
     trace := trace s |}.

Definition set_players (v : list SdkPlayer) (s : System) : System :=
  {| player := player s; deviceId := deviceId s; useRemote := useRemote s;
     pollInterval := pollInterval s; stateCallbacks := stateCallbacks s;
     world := world s; sdk := sdk s; players := v;
     timers := timers s; nextTimer := nextTimer s; polls := polls s;
     trace := trace s |}.

Definition set_timers (v : list (nat * Timer)) (n : nat) (s : System)
  : System :=
  {| player := player s; deviceId := deviceId s; useRemote := useRemote s;
     pollInterval := pollInterval s; stateCallbacks := stateCallbacks s;
     world := world s; sdk := sdk s; players := players s;
     timers := v; nextTimer := n; polls := polls s;
     trace := trace s |}.

Definition set_polls (v : list Poll) (s : System) : System :=
  {| player := player s; deviceId := deviceId s; useRemote := useRemote s;
     pollInterval := pollInterval s; stateCallbacks := stateCallbacks s;
     world := world s; sdk := sdk s; players := players s;
     timers := timers s; nextTimer := nextTimer s; polls := v;
     trace := trace s |}.

Definition log (a : list Action) (s : System) : System :=
  {| player := player s; deviceId := deviceId s; useRemote := useRemote s;
     pollInterval := pollInterval s; stateCallbacks := stateCallbacks s;
     world := world s; sdk := sdk s; players := players s;
     timers := timers s; nextTimer := nextTimer s; polls := polls s;
     trace := trace s ++ a |}.

(** A freshly constructed engine, [new SpotifyPlayer()]. *)
Definition create (w : World) (status : SdkStatus) : System :=
  {| player := None; deviceId := None; useRemote := false;
     pollInterval := None; stateCallbacks := [];
     world := w; sdk := status; players := []; timers := [];
     nextTimer := 1; polls := []; trace := [] |}.

(** *** Timers *)

(** [setTimeout] and [setInterval]: a fresh positive handle. *)
Definition set_timer (t : Timer) (s : System) : nat * System :=
  let id := nextTimer s in
  (id, set_timers (timers s ++ [(id, t)]) (S id) s).

(** [clearTimeout] and [clearInterval]. *)
Definition clear_timer (id : nat) (s : System) : System :=
  set_timers (List.filter (fun e => negb (Nat.eqb e.1 id)) (timers s))
    (nextTimer s) s.

Definition find_timer (id : nat) (s : System) : option Timer :=
  snd <$> List.find (fun e => Nat.eqb e.1 id) (timers s).

(** *** Vendor player objects *)

Definition update_player (p : nat) (f : SdkPlayer -> SdkPlayer)
  (s : System) : System :=
  set_players (alter f p (players s)) s.

Definition addListener (p : nat) (ev : EventName) (h : Handler)
  (s : System) : System :=
  log [SdkAddListener p ev h]
    (update_player p
       (fun pl => {| listeners := listeners pl ++ [(ev, h)];
                     connecting := connecting pl; timeout := timeout pl;
                     settled := settled pl |}) s).

Definition removeListener (p : nat) (ev : EventName) (h : Handler)
  (s : System) : System :=
  log [SdkRemoveListener p ev h]
    (update_player p
       (fun pl => {| listeners :=
                       List.filter
                         (fun l => negb (bool_decide (l = (ev, h))))
                         (listeners pl);
                     connecting := connecting pl; timeout := timeout pl;
                     settled := settled pl |}) s).

(** [this.player?.m(...)]. *)
Definition on_current (f : nat -> System -> System) (s : System) : System :=
  match player s with
  | Some p => f p s
  | None => s
  end.

Definition sdk_call (m : SdkMethod) (p : nat) (s : System) : System :=
  log [SdkCall p m] s.

(** *** State management *)

(** [onStateChange(callback)]: [Set.add]; the function it returns is
    [unsubscribe]. *)
Definition onStateChange (callback : nat) (s : System) : System :=
  if bool_decide (callback ∈ stateCallbacks s) then s
  else set_stateCallbacks (stateCallbacks s ++ [callback]) s.

Definition unsubscribe (callback : nat) (s : System) : System :=
  set_stateCallbacks
    (List.filter (fun c => negb (Nat.eqb c callback)) (stateCallbacks s)) s.

(** [notifyStateChange(state)]. *)
Definition notifyStateChange (state : option PlayerState) (s : System)
  : System :=
  log (map (fun callback => Notified callback state) (stateCallbacks s)) s.

Definition playback_of (b : ApiBody) : Playback :=
  match b with
  | PlaybackBody d => d
  | JsonBody _ => {| is_playing := false; progress_ms := None; item := None |}
  end.

Definition player_request (method url token : string)
  (body : option string) : ApiRequest :=
  {| req_method := method; req_url := url; req_bearer := token;
     req_body := body |}.

(** [fetchRemoteState()]. *)
Definition fetchRemoteState (w : World) : option PlayerState * World :=
  let '(token, w1) := SpotifyAuth.getValidAccessToken w in
  match token with
  | Some (String _ _ as token) =>
      let '(response, w2) :=
        fetch_api
          (player_request "GET" "https://api.spotify.com/v1/me/player"
             token None) w1 in
      match response with
      | Response status _ body =>
          if status =? 204 then (None, w2)
          else if negb (ok status) then (None, w2)
          else
            match body with
            | Some b =>
                let data := playback_of b in
                let duration_ms :=
                  from_option item_duration_ms 0 (item data) in
                (Some
                   {| paused := negb (is_playing data);
                      position := progress_ms data;
                      duration := duration_ms;
                      current_track :=
                        {| track_id :=
                             from_option item_id EmptyString (item data);
                           track_name :=
                             from_option item_name EmptyString (item data);
                           track_artists :=
                             from_option item_artists [] (item data);
                           track_album :=
                             default
                               {| album_name := EmptyString;
                                  album_images := [] |}
                               (item data ≫= item_album);
                           track_duration_ms := duration_ms |} |},
                 w2)
            | None => (None, w2)
            end
      | NetworkError => (None, w2)
      end
  | _ => (None, w1)
  end.

(** [pollRemoteState()]: the request goes out now; the state is delivered
    when the call settles ([settle_poll]). *)
Definition pollRemoteState (thenInterval : bool) (s : System) : System :=
  let '(state, w) := fetchRemoteState (world s) in
  set_polls (polls s ++ [{| then_interval := thenInterval;
                            result := state |}])
    (set_world w s).

(** [startRemotePolling()], up to its [await]. *)
Definition startRemotePolling (s : System) : System :=
  let s1 :=
    match pollInterval s with
    | Some id => clear_timer id s
    | None => s
    end in
  pollRemoteState true s1.

(** The [i]-th pending [pollRemoteState] settles: the state goes to every
    subscriber, and [startRemotePolling] resumes after its [await]. *)
Definition settle_poll (i : nat) (s : System) : System :=
  match polls s !! i with
  | Some p =>
      let s1 := set_polls (delete i (polls s)) s in
      let s2 := notifyStateChange (result p) s1 in
      if then_interval p then
        let '(id, s3) := set_timer PollTick s2 in
        set_pollInterval (Some id) s3
      else s2
  | None => s
  end.

(** [getCurrentState()]; in local mode the answer is the vendor
    player's. *)
Definition getCurrentState (sdkState : option PlayerState) (s : System)
  : option PlayerState * System :=
  if useRemote s then
    let '(state, w) := fetchRemoteState (world s) in
    (state, set_world w s)
  else
    match player s with
    | None => (None, s)
    | Some p => (sdkState, sdk_call SdkGetCurrentState p s)
    end.

(** *** SDK initialization *)

(** [setupEventListeners()]. *)
Definition setupEventListeners (s : System) : System :=
  match player s with
  | None => s
  | Some p =>
      fold_left (fun s ev => addListener p ev Setup s)
        [ready; not_ready; player_state_changed; initialization_error;
         authentication_error; account_error; playback_error] s
  end.

(** [resolve(value)] of the promise of attempt [p]: only the first call
    settles it. *)
Definition resolve (p : nat) (value : bool) (s : System) : System :=
  match players s !! p with
  | Some pl =>
      match settled pl with
      | None =>
          log [Resolved p value]
            (update_player p
               (fun pl => {| listeners := listeners pl;
                             connecting := connecting pl;
                             timeout := timeout pl;
                             settled := Some value |}) s)
      | Some _ => s
      end
  | None => s
  end.

(** [clearTimeout(timeout)] inside the promise of attempt [p]. *)
Definition clear_race_timeout (p : nat) (s : System) : System :=
  match players s !! p ≫= timeout with
  | Some id => clear_timer id s
  | None => s
  end.

(** The three [this.player?.removeListener] calls of [onReady] and
    [onError]. *)
Definition remove_race_listeners (p : nat) (s : System) : System :=
  let s1 := on_current (fun q => removeListener q ready (OnReady p)) s in
  let s2 :=
    on_current (fun q => removeListener q initialization_error (OnError p))
      s1 in
  on_current (fun q => removeListener q authentication_error (OnError p))
    s2.

(** The switch to remote control shared by the three fallbacks:
    [this.useRemote = true; this.startRemotePolling(); resolve(true)]. *)
Definition fall_back (p : nat) (s : System) : System :=
  let s1 := set_useRemote true s in
  let s2 := startRemotePolling s1 in
  resolve p true s2.

(** The callback of [setTimeout(..., 5000)]. *)
Definition onTimeout (p : nat) (s : System) : System :=
  fall_back p s.

(** The closure [onReady]. *)
Definition onReady (p : nat) (device_id : string) (s : System) : System :=
  let s1 := clear_race_timeout p s in
  let s2 := remove_race_listeners p s1 in
  let s3 := set_deviceId (Some device_id) s2 in
  resolve p true s3.

(** The closure [onError]. *)
Definition onError (p : nat) (message : string) (s : System) : System :=
  let s1 := clear_race_timeout p s in
  let s2 := remove_race_listeners p s1 in
  let s3 := on_current (sdk_call SdkDisconnect) s2 in
  let s4 := set_player None s3 in
  fall_back p s4.

(** The callback given to [this.player.connect().then]. *)
Definition onConnected (p : nat) (success : bool) (s : System) : System :=
  if success then s
  else
    let s1 := clear_race_timeout p s in
    let s2 := on_current (sdk_call SdkDisconnect) s1 in
    let s3 := set_player None s2 in
    fall_back p s3.

Inductive InitResult :=
| InitReturned (value : bool)    (* the call returned without waiting *)
| InitPending (attempt : nat)    (* it awaits the race of this attempt *)
| InitRejected.                  (* loadSDK() rejected *)

(** [loadSDK()], when [window.Spotify] is missing. *)
Definition loadSDK (s : System) : option System :=
  match sdk s with
  | SdkPresent _ => Some s
  | SdkMissing (Some sound) => Some (set_sdk (SdkPresent sound) s)
  | SdkMissing None => None
  end.

(** [initialize()], up to the point where it returns or awaits. *)
Definition initialize (s : System) : InitResult * System :=
  match player s with
  | Some _ => (InitReturned true, s)
  | None =>
      match loadSDK s with
      | None => (InitRejected, s)
      | Some s0 =>
          let '(token, w) := SpotifyAuth.getValidAccessToken (world s0) in
          let s1 := set_world w s0 in
          if negb (JS.truthy token) then (InitReturned false, s1)
          else
            match sdk s1 with
            | SdkPresent true =>
                let p := length (players s1) in
                let s2 :=
                  log [SdkNew p]
                    (set_player (Some p)
                       (set_players
                          (players s1
                             ++ [{| listeners := []; connecting := false;
                                    timeout := None; settled := None |}])
                          s1)) in
                let s3 := setupEventListeners s2 in
                let '(id, s4) := set_timer (FallbackTimeout p) s3 in
                let s5 :=
                  update_player p
                    (fun pl => {| listeners := listeners pl;
                                  connecting := connecting pl;
                                  timeout := Some id;
                                  settled := settled pl |}) s4 in
                let s6 := addListener p ready (OnReady p) s5 in
                let s7 :=
                  addListener p initialization_error (OnError p) s6 in
                let s8 :=
                  addListener p authentication_error (OnError p) s7 in
                let s9 :=
                  sdk_call SdkConnect p
                    (update_player p
                       (fun pl => {| listeners := listeners pl;
                                     connecting := true;
                                     timeout := timeout pl;
                                     settled := settled pl |}) s8) in
                (InitPending p, s9)
            | _ => (InitReturned false, s1)
            end
      end
  end.

(** What one registered listener does with an event. *)
Definition run_handler (e : SdkEvent) (s : System) (h : Handler) : System :=
  match h, e with
  | Setup, Ready device_id => set_deviceId (Some device_id) s
  | Setup, NotReady _ => set_deviceId None s
  | Setup, PlayerStateChanged state => notifyStateChange state s
  | Setup, InitializationError _ => s
  | Setup, AuthenticationError _ =>
      set_world (SpotifyAuth.refreshAccessToken (world s)).2 s
  | Setup, AccountError _ => log [Alerted] s
  | Setup, PlaybackError _ => s
  | OnReady p, Ready device_id => onReady p device_id s
  | OnError p, InitializationError message => onError p message s
  | OnError p, AuthenticationError message => onError p message s
  | _, _ => s
  end.

(** Player [p] fires [e]: its listeners for that event run in the order
    in which they were added. *)
Definition emit (p : nat) (e : SdkEvent) (s : System) : System :=
  match players s !! p with
  | Some pl =>
      fold_left (run_handler e)
        (map snd
           (List.filter (fun l => bool_decide (l.1 = event_name e))
              (listeners pl)))
        s
  | None => s
  end.

(** The promise of [p.connect()] resolves. *)
Definition connected (p : nat) (success : bool) (s : System) : System :=
  match players s !! p with
  | Some pl =>
      if connecting pl then
        onConnected p success
          (update_player p
             (fun pl => {| listeners := listeners pl; connecting := false;
                           timeout := timeout pl; settled := settled pl |})
             s)
      else s
  | None => s
  end.

(** Timer [id] fires. *)
Definition fire (id : nat) (s : System) : System :=
  match find_timer id s with
  | Some (FallbackTimeout p) => onTimeout p (clear_timer id s)
  | Some PollTick => pollRemoteState false s
  | Some Repoll => pollRemoteState false (clear_timer id s)
  | None => s
  end.

(** The vendor player asks for a token ([getOAuthToken]). *)
Definition getOAuthToken (s : System) : System :=
  set_world (SpotifyAuth.getValidAccessToken (world s)).2 s.

(** *** Playback control *)

(** The object [play] builds as the request body. *)
Inductive PlayBody :=
| EmptyBody                        (* {} *)
| ContextUri (uri : string)        (* {context_uri: uri} *)
| Uris (uris : list string).       (* {uris: [uri]} *)

Definition play_body (uri : option string) : PlayBody :=
  match uri with
  | Some (String _ _ as uri) =>
      if JS.includes uri "playlist" || JS.includes uri "album"
      then ContextUri uri
      else Uris [uri]
  | _ => EmptyBody
  end.

(** [JSON.stringify] on these bodies. *)
Definition dquote : string := String (ascii_of_nat 34) EmptyString.

Definition hex_digit (n : nat) : string :=
  match String.get n "0123456789abcdef" with
  | Some c => String c EmptyString
  | None => EmptyString
  end.

Definition json_escape_char (c : ascii) : string :=
  let n := nat_of_ascii c in
  if Nat.eqb n 34 then "\" ++ dquote
  else if Nat.eqb n 92 then "\\"
  else if Nat.eqb n 8 then "\b"
  else if Nat.eqb n 12 then "\f"
  else if Nat.eqb n 10 then "\n"
  else if Nat.eqb n 13 then "\r"
  else if Nat.eqb n 9 then "\t"
  else if Nat.ltb n 32
       then "\u00" ++ hex_digit (Nat.div n 16) ++ hex_digit (Nat.modulo n 16)
  else String c EmptyString.

Fixpoint json_escape (s : string) : string :=
  match s with
  | EmptyString => EmptyString
  | String c rest => json_escape_char c ++ json_escape rest
  end.

Definition json_string (s : string) : string :=
  dquote ++ json_escape s ++ dquote.

Definition stringify (b : PlayBody) : string :=
  match b with
  | EmptyBody => "{}"
  | ContextUri uri =>
      "{" ++ json_string "context_uri" ++ ":" ++ json_string uri ++ "}"
  | Uris uris =>
      "{" ++ json_string "uris" ++ ":["
      ++ String.concat "," (map json_string uris) ++ "]}"
  end.

Inductive PlayerError :=
| NoDeviceId                 (* 'No device ID - player not ready' *)
| NoValidAccessToken         (* 'No valid access token' *)
| NoActiveDevice             (* 'No active Spotify device found. ...' *)
| FailedToPlay (status : Z) (statusText : string)
| FetchRejected.             (* the awaited fetch rejected *)

Inductive Completion :=
| Done
| Threw (e : PlayerError).

Definition PLAYER_URL : string := "https://api.spotify.com/v1/me/player".

(** [play(uri?)].  The text of an error response, which the code reads
    only to log it, is not modelled. *)
Definition play (uri : option string) (s : System) : Completion * System :=
  if negb (JS.truthy (deviceId s)) && negb (useRemote s)
  then (Threw NoDeviceId, s)
  else
    let '(token, w1) := SpotifyAuth.getValidAccessToken (world s) in
    match token with
    | Some (String _ _ as token) =>
        let body := play_body uri in
        let url :=
          if useRemote s then PLAYER_URL ++ "/play"
          else PLAYER_URL ++ "/play?device_id="
               ++ default "null" (deviceId s) in
        let '(response, w2) :=
          fetch_api (player_request "PUT" url token (Some (stringify body)))
            w1 in
        match response with
        | Response status statusText _ =>
            if negb (ok status) then
              if (status =? 404) && useRemote s
              then (Threw NoActiveDevice, set_world w2 s)
              else (Threw (FailedToPlay status statusText), set_world w2 s)
            else (Done, set_world w2 s)
        | NetworkError => (Threw FetchRejected, set_world w2 s)
        end
    | _ => (Threw NoValidAccessToken, set_world w1 s)
    end.

(** [remoteControl(method, endpoint)]. *)
Definition remoteControl (method endpoint : string) (s : System)
  : Completion * System :=
  let '(token, w1) := SpotifyAuth.getValidAccessToken (world s) in
  match token with
  | Some (String _ _ as token) =>
      let '(response, w2) :=
        fetch_api
          (player_request method (PLAYER_URL ++ "/" ++ endpoint) token None)
          w1 in
      match response with
      | Response _ _ _ =>
          (* Force update state after control action *)
          (Done, (set_timer Repoll (set_world w2 s)).2)
      | NetworkError => (Threw FetchRejected, set_world w2 s)
      end
  | _ => (Done, set_world w1 s)
  end.

(** A method of the local player, when there is one. *)
Definition local_call (m : SdkMethod) (s : System) : Completion * System :=
  match player s with
  | None => (Done, s)
  | Some p => (Done, sdk_call m p s)
  end.

Definition pause (s : System) : Completion * System :=
  if useRemote s then remoteControl "PUT" "pause" s
  else local_call SdkPause s.

Definition resume (s : System) : Completion * System :=
  if useRemote s then remoteControl "PUT" "play" s
  else local_call SdkResume s.

Definition togglePlay (s : System) : Completion * System :=
  if useRemote s then
    let '(state, s1) := getCurrentState None s in
    if from_option paused false state then resume s1 else pause s1
  else local_call SdkTogglePlay s.

Definition nextTrack (s : System) : Completion * System :=
  if useRemote s then remoteControl "POST" "next" s
  else local_call SdkNextTrack s.

Definition previousTrack (s : System) : Completion * System :=
  if useRemote s then remoteControl "POST" "previous" s
  else local_call SdkPreviousTrack s.

(** The inlined request of [seek] and [setVolume] in remote mode. *)
Definition remote_put (url : string) (s : System) : Completion * System :=
  let '(token, w1) := SpotifyAuth.getValidAccessToken (world s) in
  match token with
  | Some (String _ _ as token) =>
      let '(response, w2) :=
        fetch_api (player_request "PUT" url token None) w1 in
      match response with
      | Response _ _ _ => (Done, set_world w2 s)
      | NetworkError => (Threw FetchRejected, set_world w2 s)
      end
  | _ => (Done, set_world w1 s)
  end.

Definition seek (positionMs : Z) (s : System) : Completion * System :=
  if useRemote s then
    remote_put
      (PLAYER_URL ++ "/seek?position_ms=" ++ JS.number_to_string positionMs)
      s
  else local_call (SdkSeek positionMs) s.

(** [Math.round(x)] on an exact rational. *)
Definition math_round (x : Q) : Z := Qfloor (x + (1 # 2))%Q.

Definition setVolume (volume : Q) (s : System) : Completion * System :=
  if useRemote s then
    remote_put
      (PLAYER_URL ++ "/volume?volume_percent="
       ++ JS.number_to_string (math_round (volume * (100 # 1))%Q))
      s
  else local_call (SdkSetVolume volume) s.

(** *** Cleanup *)

(** [disconnect()]. *)
Definition disconnect (s : System) : System :=
  match player s with
  | Some p =>
      let s1 := sdk_call SdkDisconnect p s in
      let s2 := set_player None s1 in
      set_deviceId None s2
  | None => s
  end.

Definition getDeviceId (s : System) : option string := deviceId s.

(** *** The event loop *)

(** Everything that can happen to an engine: calls of its methods by the
    widget, and what its environment does (the vendor player, the timers,
    the replies to its polls, the clock, other users of the storage and of
    the network). *)
Inductive Event :=
| CallInitialize
| CallOnStateChange (callback : nat)
| CallUnsubscribe (callback : nat)
| CallGetCurrentState (sdkState : option PlayerState)
| CallPlay (uri : option string)
| CallPause
| CallResume
| CallTogglePlay
| CallNextTrack
| CallPreviousTrack
| CallSeek (positionMs : Z)
| CallSetVolume (volume : Q)
| CallDisconnect
| SdkEmits (p : nat) (e : SdkEvent)
| SdkConnected (p : nat) (success : bool)
| SdkAsksToken
| TimerFires (id : nat)
| PollSettles (i : nat)
| WorldBecomes (w : World).

Definition step (s : System) (e : Event) : System :=
  match e with
  | CallInitialize => (initialize s).2
  | CallOnStateChange callback => onStateChange callback s
  | CallUnsubscribe callback => unsubscribe callback s
  | CallGetCurrentState sdkState => (getCurrentState sdkState s).2
  | CallPlay uri => (play uri s).2
  | CallPause => (pause s).2
  | CallResume => (resume s).2
  | CallTogglePlay => (togglePlay s).2
  | CallNextTrack => (nextTrack s).2
  | CallPreviousTrack => (previousTrack s).2
  | CallSeek positionMs => (seek positionMs s).2
  | CallSetVolume volume => (setVolume volume s).2
  | CallDisconnect => disconnect s
  | SdkEmits p e => emit p e s
  | SdkConnected p success => connected p success s
  | SdkAsksToken => getOAuthToken s
  | TimerFires id => fire id s
  | PollSettles i => settle_poll i s
  | WorldBecomes w => set_world w s
  end.

Definition run (s : System) (es : list Event) : System :=
  fold_left step es s.

End SpotifyPlayer.

(** ** The specification's reading of a Spotify URI *)

Module SpotifyUri.

(** The text after the first colon, if there is a colon. *)
Fixpoint after_colon (s : string) : option string :=
  match s with
  | EmptyString => None
  | String c rest =>
      if Ascii.eqb c ":" then Some rest else after_colon rest
  end.

(** The text before the first colon (all of it if there is none). *)
Fixpoint before_colon (s : string) : string :=
  match s with
  | EmptyString => EmptyString
  | String c rest =>
      if Ascii.eqb c ":" then EmptyString else String c (before_colon rest)
  end.

(** The resource-type segment of [spotify:<type>:<id>]: the text between
    the first colon and the second.  This definition follows the
    specification, not the code: [play] never computes it. *)
Definition resource_type (uri : string) : option string :=
  before_colon <$> after_colon uri.

End SpotifyUri.
(** ** Scenarios and vocabulary of the statements

    Concrete worlds and engines on which the services are run below, and
    the predicates in which the properties are stated. *)

Section Scenarios.
Import Net SpotifyAuth SpotifyPlayer.

(** A world with the given storage, clock, query string and reply scripts,
    and no request issued yet. *)
Definition world_of (st : list (string * string)) (t : Z)
  (q : list (string * string)) (tn : list (Reply TokenData))
  (an : list (Reply ApiBody)) : World :=
  {| storage := list_to_map st; now := t; query := q;
     tokenNet := tn; apiNet := an; tokenSent := []; apiSent := [] |}.

(** A token was saved at instant 1000 with [expiresIn = 0]; the token
    endpoint is ready to grant a new one. *)
Definition world_saved_zero : World :=
  storeTokens "stale" "refresh-1" 0
    (world_of [] 1000 []
       [Response 200 "OK"
          (Some {| access_token := "fresh"; refresh_token := None;
                   expires_in := 3600 |})]
       []).

(** Storage that holds a token and an expiry field that was emptied. *)
Definition world_empty_expiry : World :=
  world_of [(ACCESS_TOKEN_KEY, "tok"); (TOKEN_EXPIRY_KEY, "")] 5 [] [] [].

(** Storage that holds a token and an expiry field that is no number. *)
Definition world_garbled_expiry : World :=
  world_of [(ACCESS_TOKEN_KEY, "tok"); (TOKEN_EXPIRY_KEY, "soon")]
    1700000000000 [] [] [].

(** An access token and its expiry are stored, but no refresh token. *)
Definition world_no_refresh_token : World :=
  world_of [(ACCESS_TOKEN_KEY, "old"); (TOKEN_EXPIRY_KEY, "99")] 100
    [] [] [].

(** The token endpoint rejects the stored refresh token. *)
Definition world_refresh_rejected : World :=
  world_of
    [(ACCESS_TOKEN_KEY, "old"); (REFRESH_TOKEN_KEY, "revoked");
     (TOKEN_EXPIRY_KEY, "99"); (CODE_VERIFIER_KEY, "v")] 100 []
    [Response 400 "Bad Request" None] [].

(** The provider redirected back with an error and no code, while the
    verifier of the login attempt is still stored. *)
Definition world_callback_denied : World :=
  world_of [(CODE_VERIFIER_KEY, "verifier-abc")] 100
    [("error", "access_denied")] [] [].

(** The provider redirected back with a code and the exchange succeeds. *)
Definition world_callback_code : World :=
  world_of [(CODE_VERIFIER_KEY, "verifier-abc")] 100
    [("code", "AQD-code")]
    [Response 200 "OK"
       (Some {| access_token := "tok-1"; refresh_token := Some "ref-1";
                expires_in := 3600 |})]
    [].








(** The storage of a signed-in user: a token valid until instant 5000 and a
    refresh token. *)
Definition signed_in : list (string * string) :=
  [(ACCESS_TOKEN_KEY, "tok"); (REFRESH_TOKEN_KEY, "ref");
   (TOKEN_EXPIRY_KEY, "5000")].

(** Replies of [GET /me/player]: nothing is playing, or something is
    playing at position [ms]. *)
Definition no_content : Reply ApiBody := Response 204 "No Content" None.

Definition playing (ms : Z) : Reply ApiBody :=
  Response 200 "OK"
    (Some (PlaybackBody
             {| is_playing := true; progress_ms := Some ms; item := None |})).

(** What [fetchRemoteState] makes of the reply [playing ms]. *)
Definition playing_state (ms : Z) : PlayerState :=
  {| paused := false; position := Some ms; duration := 0;
     current_track :=
       {| track_id := EmptyString; track_name := EmptyString;
          track_artists := [];
          track_album := {| album_name := EmptyString; album_images := [] |};
          track_duration_ms := 0 |} |}.

(** A string between double quotes. *)
Definition quoted (s : string) : string := dquote ++ s ++ dquote.

(** An engine in remote-fallback mode with a valid token. *)
Definition remote_engine (replies : list (Reply ApiBody)) : System :=
  set_useRemote true
    (create (world_of signed_in 1000 [] [] replies) (SdkPresent true)).

(** An engine in remote-fallback mode with a valid token and one
    subscriber. *)
Definition remote_subscribed (replies : list (Reply ApiBody)) : System :=
  onStateChange 7 (remote_engine replies).

(** The engine fell back on the timeout; the interval (timer 2) is
    installed and subscriber 7 is registered. *)
Definition polling_engine (replies : list (Reply ApiBody)) : System :=
  run (create (world_of signed_in 1000 [] [] (no_content :: replies))
         (SdkPresent true))
    [CallInitialize; CallOnStateChange 7; TimerFires 1; PollSettles 0].

(** The engine fell back on an initialization error instead. *)
Definition polling_engine_after_error (replies : list (Reply ApiBody))
  : System :=
  run (create (world_of signed_in 1000 [] [] (no_content :: replies))
         (SdkPresent true))
    [CallInitialize; CallOnStateChange 7;
     SdkEmits 0 (InitializationError "failed"); PollSettles 0].

(** The request each transport method and the state query make in remote
    mode (section 6 of the specification: the playback control HTTP API,
    addressed to whatever device is active). *)
Definition remote_request (e : Event) (token : string)
  : option ApiRequest :=
  match e with
  | CallPlay uri =>
      Some (player_request "PUT" (PLAYER_URL ++ "/play") token
              (Some (stringify (play_body uri))))
  | CallPause =>
      Some (player_request "PUT" (PLAYER_URL ++ "/pause") token None)
  | CallResume =>
      Some (player_request "PUT" (PLAYER_URL ++ "/play") token None)
  | CallNextTrack =>
      Some (player_request "POST" (PLAYER_URL ++ "/next") token None)
  | CallPreviousTrack =>
      Some (player_request "POST" (PLAYER_URL ++ "/previous") token None)
  | CallSeek positionMs =>
      Some (player_request "PUT"
              (PLAYER_URL ++ "/seek?position_ms="
               ++ JS.number_to_string positionMs) token None)
  | CallSetVolume volume =>
      Some (player_request "PUT"
              (PLAYER_URL ++ "/volume?volume_percent="
               ++ JS.number_to_string (math_round (volume * (100 # 1))%Q))
              token None)
  | CallTogglePlay | CallGetCurrentState _ =>
      Some (player_request "GET" PLAYER_URL token None)
  | _ => None
  end.

(** Timer handles are fresh: every installed timer has a handle below the
    next one to be handed out. *)
Definition timers_fresh (s : System) : Prop :=
  Forall (fun e => (e.1 < nextTimer s)%nat) (timers s).

(** [s'] has the timers of [s] that were not cleared, and timers installed
    since under handles that were unused in [s]. *)
Definition timers_evolve (s s' : System) : Prop :=
  (nextTimer s <= nextTimer s')%nat
  /\ Forall (fun e => In e (timers s)
                      \/ (nextTimer s <= e.1 < nextTimer s')%nat)
       (timers s').

(** The calls [initialize] makes on a player it has just constructed. *)
Definition handshake (p : nat) : list Action :=
  [SdkNew p;
   SdkAddListener p ready Setup;
   SdkAddListener p not_ready Setup;
   SdkAddListener p player_state_changed Setup;
   SdkAddListener p initialization_error Setup;
   SdkAddListener p authentication_error Setup;
   SdkAddListener p account_error Setup;
   SdkAddListener p playback_error Setup;
   SdkAddListener p ready (OnReady p);
   SdkAddListener p initialization_error (OnError p);
   SdkAddListener p authentication_error (OnError p);
   SdkCall p SdkConnect].

(** The player object as [initialize] leaves it: ten listeners, the
    connection requested, the race timer armed, the promise pending. *)
Definition connecting_player (p timer : nat) : SdkPlayer :=
  {| listeners :=
       [(ready, Setup); (not_ready, Setup); (player_state_changed, Setup);
        (initialization_error, Setup); (authentication_error, Setup);
        (account_error, Setup); (playback_error, Setup);
        (ready, OnReady p); (initialization_error, OnError p);
        (authentication_error, OnError p)];
     connecting := true;
     timeout := Some timer;
     settled := None |}.

(** The SDK is there, or loading it succeeds, and its constructor
    works. *)
Definition sdk_available (s : System) : Prop :=
  sdk s = SdkPresent true \/ sdk s = SdkMissing (Some true).

(** The engine holds player [p], whose race is still open. *)
Definition awaiting (p : nat) (s : System) : Prop :=
  player s = Some p
  /\ exists timer, players s !! p = Some (connecting_player p timer).

(** The [connect()] calls recorded in a trace. *)
Definition connects (tr : list Action) : list Action :=
  List.filter
    (fun a => match a with SdkCall _ SdkConnect => true | _ => false end)
    tr.

(** A signed-in user, the SDK loaded. *)
Definition fresh_engine : System :=
  create (world_of signed_in 1000 [] [] [no_content; playing 5])
    (SdkPresent true).

End Scenarios.

(** ** Further vocabulary *)

Section Vocabulary.
Import Net SpotifyAuth SpotifyPlayer.

(** The characters of a string. *)
Definition chars (s : string) : list ascii := list_ascii_of_string s.

(** The alphabet of base64url (RFC 4648, section 5). *)
Definition is_urlsafe (c : ascii) : bool :=
  JS.is_alnum c || Ascii.eqb c "-" || Ascii.eqb c "_".

(** What [encodeURIComponent] can produce: an unreserved character or a
    percent sign. *)
Definition is_escaped (c : ascii) : bool :=
  JS.is_unreserved c || Ascii.eqb c "%".

(** The method of the vendor player behind each transport call of the
    engine in local mode. *)
Definition local_method (e : Event) : option SdkMethod :=
  match e with
  | CallPause => Some SdkPause
  | CallResume => Some SdkResume
  | CallTogglePlay => Some SdkTogglePlay
  | CallNextTrack => Some SdkNextTrack
  | CallPreviousTrack => Some SdkPreviousTrack
  | CallSeek positionMs => Some (SdkSeek positionMs)
  | CallSetVolume volume => Some (SdkSetVolume volume)
  | _ => None
  end.

(** The result of each transport call, not only the state it leaves. *)
Definition completion (e : Event) (s : System) : option Completion :=
  match e with
  | CallPlay uri => Some (play uri s).1
  | CallPause => Some (pause s).1
  | CallResume => Some (resume s).1
  | CallTogglePlay => Some (togglePlay s).1
  | CallNextTrack => Some (nextTrack s).1
  | CallPreviousTrack => Some (previousTrack s).1
  | CallSeek positionMs => Some (seek positionMs s).1
  | CallSetVolume volume => Some (setVolume volume s).1
  | _ => None
  end.

(** No token can be obtained: none is stored that is still valid, and the
    refresh yields none. *)
Definition no_token (w : World) : Prop :=
  JS.truthy (getValidAccessToken w).1 = false.




(** What a step may add to the trace, given the subscribers at its start:
    notifications go to subscribers, and a promise of [initialize] is
    resolved to true. *)
Definition allowed (callbacks : list nat) (a : Action) : Prop :=
  match a with
  | Notified callback _ => In callback callbacks
  | Resolved _ value => value = true
  | _ => True
  end.

(** A promise of [initialize], if this action resolves one, is resolved
    to true. *)
Definition resolves_true (a : Action) : Prop :=
  match a with
  | Resolved _ value => value = true
  | _ => True
  end.

(** [s'] has the subscribers of [s], and its trace is the trace of [s]
    followed by allowed actions. *)
Definition grows (s s' : System) : Prop :=
  stateCallbacks s' = stateCallbacks s
  /\ exists l, trace s' = (trace s ++ l)%list
               /\ Forall (allowed (stateCallbacks s)) l.

(** [s'] polls as [s] does, and its timers are timers of [s] or timers of
    a race of [initialize]. *)
Definition calm (s s' : System) : Prop :=
  polls s' = polls s
  /\ pollInterval s' = pollInterval s
  /\ Forall (fun e => In e (timers s) \/ exists p, e.2 = FallbackTimeout p)
       (timers s').

(** A request to the playback-control API that carries a token. *)
Definition player_api_request (r : ApiRequest) : Prop :=
  req_bearer r <> EmptyString
  /\ String.prefix PLAYER_URL (req_url r) = true.

(** The requests logged in [w'] are those of [w] followed by
    authenticated requests to the playback-control API. *)
Definition sends (w w' : World) : Prop :=
  exists l, apiSent w' = (apiSent w ++ l)%list
            /\ Forall player_api_request l.

End Vocabulary.

(** * Properties *)

(** Splitting conjunctions only (the tactic [split] would also try to
    prove an equation by evaluating both of its sides). *)
Ltac split_conj := repeat match goal with |- _ /\ _ => split end.

(** Closed statements about concrete runs are decided by evaluation. *)
Ltac by_evaluation := cbv zeta; split_conj; vm_compute; reflexivity.

(** ** JavaScript primitives *)

Example parseInt_plain : JS.parseInt "1700000000000" = Some 1700000000000.
Proof. reflexivity. Qed.

Example parseInt_trailing : JS.parseInt "  -42px" = Some (-42).
Proof. reflexivity. Qed.

Example parseInt_hex : JS.parseInt "0x1F" = Some 31.
Proof. reflexivity. Qed.

Example parseInt_nan : JS.parseInt "NaN" = None.
Proof. reflexivity. Qed.

Example parseInt_empty : JS.parseInt "" = None.
Proof. reflexivity. Qed.

Example number_to_string_neg : JS.number_to_string (-1500) = "-1500".
Proof. reflexivity. Qed.

Example includes_segment :
  JS.includes "spotify:playlist:abc" "playlist" = true
  /\ JS.includes "spotify:track:xyz" "album" = false.
Proof. split; reflexivity. Qed.

Section ParseIntPrinted.

(** Reading back the digits of a decimal numeral continues the
    accumulator exactly as [Pos.of_uint_acc] does. *)
Lemma read_digits_uint_acc (d : uint) (acc : positive) :
  JS.read_digits 10 (NilEmpty.string_of_uint d) (Z.pos acc) true
  = Some (Z.pos (Pos.of_uint_acc d acc)).
Proof.
  revert acc.
  induction d as [|d IH|d IH|d IH|d IH|d IH|d IH|d IH|d IH|d IH|d IH];
    intros acc; cbn [NilEmpty.string_of_uint JS.read_digits Pos.of_uint_acc];
    [reflexivity|..];
    match goal with
    | |- context [JS.digit_val 10 ?c] =>
        let v := eval vm_compute in (JS.digit_val 10 c) in
        change (JS.digit_val 10 c) with v; cbv iota beta
    end;
    rewrite <- IH; f_equal; lia.
Qed.

Lemma read_digits_uint (d : uint) :
  JS.read_digits 10 (NilEmpty.string_of_uint d) 0 true
  = Some (Z.of_N (Pos.of_uint d)).
Proof.
  induction d as [|d IH|d IH|d IH|d IH|d IH|d IH|d IH|d IH|d IH|d IH];
    cbn [NilEmpty.string_of_uint JS.read_digits Pos.of_uint];
    [reflexivity|..];
    match goal with
    | |- context [JS.digit_val 10 ?c] =>
        let v := eval vm_compute in (JS.digit_val 10 c) in
        change (JS.digit_val 10 c) with v; cbv iota beta
    end;
    [exact IH|..];
    cbn [Z.mul Z.add Z.of_N]; apply read_digits_uint_acc.
Qed.

(** A printed numeral is never read as a hexadecimal literal. *)
Lemma parse_magnitude_uint (d : uint) :
  d <> Nil ->
  JS.parse_magnitude (NilEmpty.string_of_uint d)
  = Some (Z.of_N (Pos.of_uint d)).
Proof.
  intros Hd. rewrite <- read_digits_uint.
  destruct d as [|d|d|d|d|d|d|d|d|d|d]; try congruence;
    try reflexivity.
  destruct d; reflexivity.
Qed.

Lemma uint_head_not_sign (d : uint) :
  d <> Nil ->
  JS.skip_spaces (NilEmpty.string_of_uint d) = NilEmpty.string_of_uint d
  /\ match NilEmpty.string_of_uint d with
     | String "-" _ | String "+" _ => False
     | _ => True
     end.
Proof.
  intros Hd. destruct d; try congruence; split; reflexivity || exact I.
Qed.

Lemma to_uint_not_nil (p : positive) : Pos.to_uint p <> Nil.
Proof.
  intros H. pose proof (DecimalPos.Unsigned.of_to p) as E.
  rewrite H in E. discriminate E.
Qed.

Lemma parseInt_uint (d : uint) :
  d <> Nil ->
  JS.parseInt (NilEmpty.string_of_uint d) = Some (Z.of_N (Pos.of_uint d)).
Proof.
  intros Hd. unfold JS.parseInt.
  destruct (uint_head_not_sign d Hd) as [-> Hs].
  rewrite <- (parse_magnitude_uint d Hd).
  destruct (NilEmpty.string_of_uint d) as [|c r]; [reflexivity|].
  destruct c as [[] [] [] [] [] [] [] []]; try reflexivity; contradiction.
Qed.

(** [parseInt] reads back what [toString] printed. *)
Lemma parseInt_number_to_string (n : Z) :
  JS.parseInt (JS.number_to_string n) = Some n.
Proof.
  unfold JS.number_to_string.
  destruct n as [|p|p]; [reflexivity|..];
    cbn [Z.to_int NilZero.string_of_int]; unfold NilZero.string_of_uint;
    pose proof (to_uint_not_nil p) as Hp;
    pose proof (DecimalPos.Unsigned.of_to p) as E.
  - destruct (Pos.to_uint p) eqn:Eu; try congruence;
      rewrite <- Eu in *; rewrite parseInt_uint by exact Hp;
      rewrite E; reflexivity.
  - assert (Hs : NilEmpty.string_of_uint (Pos.to_uint p)
                 = match Pos.to_uint p with
                   | Nil => "0"
                   | _ => NilEmpty.string_of_uint (Pos.to_uint p)
                   end)
      by (destruct (Pos.to_uint p); congruence).
    rewrite <- Hs. unfold JS.parseInt.
    cbn [JS.skip_spaces]. change (JS.is_space "-") with false. cbv iota.
    rewrite (parse_magnitude_uint _ Hp), E. reflexivity.
Qed.

End ParseIntPrinted.

(** ** Token storage and the authorization flow *)

Import Net.

Section Storage.

Lemma getItem_setItem (k k' v : string) (w : World) :
  getItem k (setItem k' v w)
  = if decide (k' = k) then Some v else getItem k w.
Proof. unfold getItem, setItem; cbn. apply lookup_insert. Qed.

Lemma getItem_removeItem (k k' : string) (w : World) :
  getItem k (removeItem k' w)
  = if decide (k' = k) then None else getItem k w.
Proof. unfold getItem, removeItem; cbn. apply lookup_delete. Qed.

Lemma getItem_set_query (k : string) q (w : World) :
  getItem k (set_query q w) = getItem k w.
Proof. reflexivity. Qed.

Lemma getItem_advance (k : string) dt (w : World) :
  getItem k (advance dt w) = getItem k w.
Proof. reflexivity. Qed.

Lemma getItem_fetch_token (k : string) r (w : World) :
  getItem k (fetch_token r w).2 = getItem k w.
Proof. reflexivity. Qed.

Lemma getItem_fetch_api (k : string) r (w : World) :
  getItem k (fetch_api r w).2 = getItem k w.
Proof. reflexivity. Qed.

Lemma now_setItem k v w : now (setItem k v w) = now w.
Proof. reflexivity. Qed.

Lemma now_storeTokens a r e w : now (SpotifyAuth.storeTokens a r e w) = now w.
Proof. reflexivity. Qed.

(** What [storeTokens] leaves in storage. *)
Lemma storeTokens_fields a r e w :
  let w' := SpotifyAuth.storeTokens a r e w in
  getItem SpotifyAuth.ACCESS_TOKEN_KEY w' = Some a
  /\ getItem SpotifyAuth.REFRESH_TOKEN_KEY w' = Some r
  /\ getItem SpotifyAuth.TOKEN_EXPIRY_KEY w'
     = Some (JS.number_to_string (now w + e * 1000))
  /\ getItem SpotifyAuth.CODE_VERIFIER_KEY w'
     = getItem SpotifyAuth.CODE_VERIFIER_KEY w.
Proof.
  unfold SpotifyAuth.storeTokens; cbv zeta.
  rewrite !getItem_setItem. repeat split; reflexivity.
Qed.

(** What [logout] leaves in storage: none of the four keys. *)
Lemma logout_fields w :
  let w' := SpotifyAuth.logout w in
  getItem SpotifyAuth.ACCESS_TOKEN_KEY w' = None
  /\ getItem SpotifyAuth.REFRESH_TOKEN_KEY w' = None
  /\ getItem SpotifyAuth.TOKEN_EXPIRY_KEY w' = None
  /\ getItem SpotifyAuth.CODE_VERIFIER_KEY w' = None.
Proof.
  unfold SpotifyAuth.logout; cbv zeta.
  rewrite !getItem_removeItem. repeat split; reflexivity.
Qed.

Lemma truthy_Some_nonempty (s : string) :
  s <> EmptyString -> JS.truthy (Some s) = true.
Proof. destruct s; [congruence | reflexivity]. Qed.


End Storage.

Section TokenStore.
Import SpotifyAuth.

(** A stored expiry that parses to an instant not after [now] makes
    [getAccessToken] answer null. *)
Lemma getAccessToken_expired (w : World) (e : string) (x : Z) :
  getItem TOKEN_EXPIRY_KEY w = Some e ->
  JS.parseInt e = Some x ->
  x <= now w ->
  getAccessToken w = None.
Proof.
  intros He Hp Hx. unfold getAccessToken. rewrite He. cbn [mbind option_bind].
  rewrite Hp. cbn [JS.ge_nan].
  destruct (negb _ || negb _); [reflexivity|].
  assert ((x <=? now w) = true) as -> by lia. reflexivity.
Qed.

Lemma getValidAccessToken_of_null (w : World) :
  getAccessToken w = None ->
  getValidAccessToken w = refreshAccessToken w.
Proof. intros H. unfold getValidAccessToken. rewrite H. reflexivity. Qed.

Lemma getAccessToken_valid (w : World) (t e : string) (x : Z) :
  getItem ACCESS_TOKEN_KEY w = Some t ->
  getItem TOKEN_EXPIRY_KEY w = Some e ->
  t <> EmptyString ->
  JS.parseInt e = Some x ->
  now w < x ->
  getAccessToken w = Some t.
Proof.
  intros Ht He Hne Hp Hx. unfold getAccessToken. rewrite Ht, He.
  rewrite (truthy_Some_nonempty t Hne).
  assert (JS.truthy (Some e) = true) as ->
    by (destruct e; [discriminate Hp | reflexivity]).
  cbn [negb orb mbind option_bind]. rewrite Hp. cbn [JS.ge_nan].
  assert ((x <=? now w) = false) as -> by lia. reflexivity.
Qed.

(** Scenario of the specification: saved with [expiresIn = 3600], the
    token is returned; 3601 seconds later it is not. *)
Lemma storeTokens_3600_scenario (w : World) (a r : string) :
  a <> EmptyString ->
  getAccessToken (storeTokens a r 3600 w) = Some a
  /\ getAccessToken (advance 3601000 (storeTokens a r 3600 w)) = None.
Proof.
  intros Ha.
  destruct (storeTokens_fields a r 3600 w) as (H1 & _ & H3 & _).
  split.
  - eapply getAccessToken_valid; eauto using parseInt_number_to_string.
    rewrite now_storeTokens. lia.
  - eapply getAccessToken_expired.
    + rewrite getItem_advance. exact H3.
    + apply parseInt_number_to_string.
    + cbn [advance now]. rewrite now_storeTokens. lia.
Qed.

(** A token saved with [expiresIn = 0] is never handed out by
    [getValidAccessToken]: at every later instant the call is the refresh
    call. *)
Lemma storeTokens_zero_then_refresh (w : World) (a r : string) (dt : Z) :
  0 <= dt ->
  let w' := advance dt (storeTokens a r 0 w) in
  getAccessToken w' = None
  /\ getValidAccessToken w' = refreshAccessToken w'.
Proof.
  intros Hdt w'.
  assert (H : getAccessToken w' = None).
  { destruct (storeTokens_fields a r 0 w) as (_ & _ & H3 & _).
    eapply getAccessToken_expired.
    - unfold w'. rewrite getItem_advance. exact H3.
    - apply parseInt_number_to_string.
    - unfold w'. cbn [advance now]. rewrite now_storeTokens. lia. }
  split; [exact H | apply getValidAccessToken_of_null, H].
Qed.

(** C6.  Whenever the stored expiry is an instant at or before [now],
    [getAccessToken] does not return the cached token, and
    [getValidAccessToken] is the call of [refreshAccessToken]: its result
    (the new token or null) and its effects are those of the refresh. *)
Theorem getValidAccessToken_expired_refreshes
  (w : World) (e : string) (x : Z) :
  getItem TOKEN_EXPIRY_KEY w = Some e ->
  JS.parseInt e = Some x ->
  x <= now w ->
  getAccessToken w = None
  /\ getValidAccessToken w = refreshAccessToken w.
Proof.
  intros He Hp Hx.
  pose proof (getAccessToken_expired w e x He Hp Hx) as H.
  split; [exact H | apply getValidAccessToken_of_null, H].
Qed.

Lemma getValidAccessToken_expired_refreshes_witness :
  getItem TOKEN_EXPIRY_KEY world_saved_zero = Some "1000"
  /\ getAccessToken world_saved_zero = None
  /\ getValidAccessToken world_saved_zero
     = refreshAccessToken world_saved_zero
  /\ (getValidAccessToken world_saved_zero).1 = Some "fresh".
Proof.
  split; [reflexivity|].
  destruct (getValidAccessToken_expired_refreshes world_saved_zero
              "1000" 1000) as [H1 H2];
    [reflexivity | reflexivity | cbn; lia |].
  split; [exact H1|]. split; [exact H2|]. reflexivity.
Defined.

End TokenStore.

Section CorruptedExpiry.
Import SpotifyAuth.

(** C10, as stated, fails: storage holds an access token and an expiry
    whose string does not parse ([parseInt] of the empty string is NaN),
    yet [getAccessToken] answers null, because the guard [!expiry] treats
    the empty string as missing before any comparison is made. *)
Lemma getAccessToken_empty_expiry_counterexample :
  getItem ACCESS_TOKEN_KEY world_empty_expiry = Some "tok"
  /\ getItem TOKEN_EXPIRY_KEY world_empty_expiry = Some ""
  /\ JS.parseInt "" = None
  /\ getAccessToken world_empty_expiry = None.
Proof. by_evaluation. Qed.

(** C10 (amended).  If storage holds a non-empty access token and a
    non-empty expiry string that [parseInt] maps to NaN, [getAccessToken]
    returns the stored token, whatever the clock says. *)
Theorem getAccessToken_unparsable_expiry
  (w : World) (t e : string) :
  getItem ACCESS_TOKEN_KEY w = Some t ->
  getItem TOKEN_EXPIRY_KEY w = Some e ->
  t <> EmptyString ->
  e <> EmptyString ->
  JS.parseInt e = None ->
  forall dt : Z, getAccessToken (advance dt w) = Some t.
Proof.
  intros Ht He Hnt Hne Hp dt. unfold getAccessToken.
  rewrite !getItem_advance, Ht, He.
  rewrite (truthy_Some_nonempty t Hnt), (truthy_Some_nonempty e Hne).
  cbn [negb orb mbind option_bind]. rewrite Hp. reflexivity.
Qed.

Lemma getAccessToken_unparsable_expiry_witness :
  JS.parseInt "soon" = None
  /\ getAccessToken (advance 86400000 world_garbled_expiry) = Some "tok".
Proof.
  split; [reflexivity|].
  apply (getAccessToken_unparsable_expiry world_garbled_expiry "tok" "soon");
    [reflexivity | reflexivity | discriminate | discriminate | reflexivity].
Defined.

End CorruptedExpiry.

Section Refresh.
Import SpotifyAuth.

(** C4, as stated, fails: with no refresh token stored,
    [refreshAccessToken] returns null through its first guard, before the
    [try] block whose handler calls [logout]; the access token and the
    expiry are still in storage afterwards. *)
Lemma refreshAccessToken_no_refresh_token_counterexample :
  getItem REFRESH_TOKEN_KEY world_no_refresh_token = None
  /\ (refreshAccessToken world_no_refresh_token).1 = None
  /\ getItem ACCESS_TOKEN_KEY
       (refreshAccessToken world_no_refresh_token).2 = Some "old"
  /\ getItem TOKEN_EXPIRY_KEY
       (refreshAccessToken world_no_refresh_token).2 = Some "99".
Proof. by_evaluation. Qed.

(** C4 (amended).  When [refreshAccessToken] returns null and a non-empty
    refresh token was stored, the request was made and [logout] ran: the
    access token, the refresh token and the expiry (and the PKCE verifier)
    are absent afterwards.  When no non-empty refresh token was stored, it
    returns null and leaves the world as it was. *)
Theorem refreshAccessToken_failure
  (w w' : World) :
  refreshAccessToken w = (None, w') ->
  (JS.truthy (getItem REFRESH_TOKEN_KEY w) = true ->
     w' = logout (fetch_token
                    (RefreshToken
                       (default EmptyString (getItem REFRESH_TOKEN_KEY w))
                       CLIENT_ID) w).2
     /\ getItem ACCESS_TOKEN_KEY w' = None
     /\ getItem REFRESH_TOKEN_KEY w' = None
     /\ getItem TOKEN_EXPIRY_KEY w' = None
     /\ getItem CODE_VERIFIER_KEY w' = None)
  /\ (JS.truthy (getItem REFRESH_TOKEN_KEY w) = false -> w' = w).
Proof.
  unfold refreshAccessToken. intros H.
  destruct (getItem REFRESH_TOKEN_KEY w) as [[|c r]|] eqn:Er; cbn [JS.truthy].
  - split; [discriminate | intros _; congruence].
  - split; [intros _ | discriminate]. cbn [default] in *.
    destruct (fetch_token _ w) as [response w1] eqn:Ef. cbn [snd].
    assert (Hw : w' = logout w1).
    { destruct response as [|status txt [data|]];
        [| destruct (negb (ok status)) ..]; congruence. }
    subst w'. split; [reflexivity|]. apply logout_fields.
  - split; [discriminate | intros _; congruence].
Qed.

Lemma refreshAccessToken_failure_witness :
  (refreshAccessToken world_refresh_rejected).1 = None
  /\ getItem ACCESS_TOKEN_KEY
       (refreshAccessToken world_refresh_rejected).2 = None
  /\ getItem REFRESH_TOKEN_KEY
       (refreshAccessToken world_refresh_rejected).2 = None
  /\ getItem TOKEN_EXPIRY_KEY
       (refreshAccessToken world_refresh_rejected).2 = None.
Proof.
  split; [reflexivity|].
  destruct (refreshAccessToken_failure world_refresh_rejected
              (refreshAccessToken world_refresh_rejected).2)
    as [H _]; [reflexivity|].
  destruct (H eq_refl) as (_ & Ha & Hr & He & _).
  repeat split; assumption.
Defined.


End Refresh.

Section Callback.
Import SpotifyAuth.

(** C3, as stated, fails: [handleCallback] returns false through its
    first guard and the verifier is still in storage. *)
Lemma handleCallback_error_counterexample :
  (handleCallback world_callback_denied).1 = false
  /\ getItem CODE_VERIFIER_KEY (handleCallback world_callback_denied).2
     = Some "verifier-abc".
Proof. by_evaluation. Qed.

(** C3 (amended).  When [handleCallback] returns true, the verifier is
    absent from storage afterwards (and the tokens of the reply are stored
    and the query string is cleared).  When the URL carries an error,
    carries no code, or no verifier is stored, it returns false and leaves
    the world exactly as it was. *)
Theorem handleCallback_verifier (w w' : World) (b : bool) :
  handleCallback w = (b, w') ->
  (b = true ->
     getItem CODE_VERIFIER_KEY w' = None
     /\ is_Some (getItem ACCESS_TOKEN_KEY w')
     /\ is_Some (getItem REFRESH_TOKEN_KEY w')
     /\ is_Some (getItem TOKEN_EXPIRY_KEY w')
     /\ query w' = [])
  /\ (JS.truthy (url_get "error" (query w)) = true
      \/ JS.truthy (url_get "code" (query w)) = false
      \/ JS.truthy (getItem CODE_VERIFIER_KEY w) = false ->
      b = false /\ w' = w).
Proof.
  unfold handleCallback. intros H.
  destruct (JS.truthy (url_get "error" (query w))) eqn:Eerr.
  { inversion H; subst. split; [discriminate | auto]. }
  destruct (url_get "code" (query w)) as [[|cc cr]|] eqn:Ecode;
    cbn [JS.truthy];
    try (inversion H; subst; split; [discriminate | auto]).
  destruct (getItem CODE_VERIFIER_KEY w) as [[|vc vr]|] eqn:Ever;
    cbn [JS.truthy];
    try (inversion H; subst; split; [discriminate | auto]).
  split; [| intros [?|[?|?]]; discriminate].
  intros ->.
  destruct (fetch_token _ w) as [response w1].
  destruct response as [|status txt [data|]];
    [discriminate H | destruct (negb (ok status)) ..];
    try discriminate H.
  inversion H; subst w'; clear H.
  match goal with
  | |- context [storeTokens ?a ?r ?e ?w0] =>
      destruct (storeTokens_fields a r e w0) as (H1 & H2 & H3 & _)
  end.
  rewrite !getItem_set_query, !getItem_removeItem.
  cbn [decide]. repeat split; try reflexivity;
    (rewrite H1 || rewrite H2 || rewrite H3); eauto.
Qed.

Lemma handleCallback_verifier_witness :
  (handleCallback world_callback_code).1 = true
  /\ getItem CODE_VERIFIER_KEY (handleCallback world_callback_code).2 = None
  /\ getItem ACCESS_TOKEN_KEY (handleCallback world_callback_code).2
     = Some "tok-1".
Proof.
  split; [reflexivity|].
  destruct (handleCallback_verifier world_callback_code
              (handleCallback world_callback_code).2 true) as [H _];
    [reflexivity|].
  destruct (H eq_refl) as (Hv & _).
  split; [exact Hv | reflexivity].
Defined.

(** What the code does when the exchange itself fails (the request is
    rejected, the response is not a 2xx, or its body is no JSON): the
    handler of the [try] block returns false, and nothing was stored or
    removed, so the verifier is still there. *)
Lemma handleCallback_exchange_failure (w : World) (cc vc : ascii)
  (cr vr : string) :
  JS.truthy (url_get "error" (query w)) = false ->
  url_get "code" (query w) = Some (String cc cr) ->
  getItem CODE_VERIFIER_KEY w = Some (String vc vr) ->
  match tokenNet w with
  | Response status _ (Some _) :: _ => ok status = false
  | _ => True
  end ->
  (handleCallback w).1 = false
  /\ storage (handleCallback w).2 = storage w
  /\ tokenSent (handleCallback w).2
     = (tokenSent w
        ++ [AuthorizationCode (String cc cr) REDIRECT_URI CLIENT_ID
              (String vc vr)])%list.
Proof.
  intros He Hc Hv Hnet. unfold handleCallback. rewrite He, Hc, Hv.
  unfold fetch_token.
  destruct (tokenNet w) as [|[|status txt [data|]] rest]; cbn;
    try (split_conj; reflexivity).
  - rewrite Hnet. split_conj; reflexivity.
  - destruct (negb (ok status)); split_conj; reflexivity.
Qed.

End Callback.
(** ** The authenticated fetch primitive *)

Section AuthenticatedFetch.
Import SpotifyAuth SpotifyAPI.

(** Neither [getValidAccessToken] nor [refreshAccessToken] touches the
    Web API script. *)
Lemma refreshAccessToken_apiNet (w : World) :
  apiNet (refreshAccessToken w).2 = apiNet w.
Proof.
  unfold refreshAccessToken.
  destruct (getItem REFRESH_TOKEN_KEY w) as [[|c r]|]; try reflexivity.
  cbn. destruct (tokenNet w) as [|[|status txt [d|]] rest];
    try reflexivity; destruct (negb (ok status)); reflexivity.
Qed.

Lemma refreshAccessToken_apiSent (w : World) :
  apiSent (refreshAccessToken w).2 = apiSent w.
Proof.
  unfold refreshAccessToken.
  destruct (getItem REFRESH_TOKEN_KEY w) as [[|c r]|]; try reflexivity.
  cbn. destruct (tokenNet w) as [|[|status txt [d|]] rest];
    try reflexivity; destruct (negb (ok status)); reflexivity.
Qed.

Lemma getValidAccessToken_apiNet (w : World) :
  apiNet (getValidAccessToken w).2 = apiNet w.
Proof.
  unfold getValidAccessToken.
  destruct (negb _); [apply refreshAccessToken_apiNet | reflexivity].
Qed.

(** The fuel given by [fetch] is enough: a call never runs out of it, and
    any larger amount gives the same result. *)
Lemma fetch_fuel_enough (fuel : nat) (endpoint : string) (w : World) :
  (length (apiNet w) < fuel)%nat ->
  (fetch_fuel fuel endpoint w).1 <> OutOfFuel
  /\ forall fuel', (fuel <= fuel')%nat ->
       fetch_fuel fuel' endpoint w = fetch_fuel fuel endpoint w.
Proof.
  revert w. induction fuel as [|fuel IH]; intros w Hlen; [lia|].
  assert (Hstep : forall f, (fuel <= f)%nat ->
            fetch_fuel (S f) endpoint w = fetch_fuel (S fuel) endpoint w
            /\ (fetch_fuel (S fuel) endpoint w).1 <> OutOfFuel).
  { intros f Hf. cbn [fetch_fuel].
    pose proof (getValidAccessToken_apiNet w) as Hv.
    destruct (getValidAccessToken w) as [token w1]. cbn [snd] in Hv.
    destruct token as [[|tc tr]|]; try (split; [reflexivity | discriminate]).
    unfold fetch_api.
    destruct (apiNet w1) as [|reply rest] eqn:En;
      [split; [reflexivity | discriminate]|].
    destruct reply as [|status txt body];
      [split; [reflexivity | discriminate]|].
    destruct (negb (ok status));
      [| destruct body; split; reflexivity || discriminate].
    destruct (status =? 401); [| split; [reflexivity | discriminate]].
    match goal with
    | |- context [refreshAccessToken ?w0] =>
        pose proof (refreshAccessToken_apiNet w0) as Hr;
        destruct (refreshAccessToken w0) as [newToken w3]
    end.
    cbn [snd apiNet tail] in Hr.
    destruct (JS.truthy newToken); [| split; [reflexivity | discriminate]].
    assert (Hlen3 : (length (apiNet w3) < fuel)%nat).
    { rewrite Hr. rewrite <- Hv in Hlen. cbn [length] in Hlen. lia. }
    destruct (IH w3 Hlen3) as [Hne Hmono].
    split; [apply Hmono, Hf | exact Hne]. }
  split.
  - apply (Hstep fuel); lia.
  - intros [|f] Hf; [lia|]. apply Hstep. lia.
Qed.

(** [fetch] always ends: it returns a body or throws. *)
Lemma fetch_total (endpoint : string) (w : World) :
  (fetch endpoint w).1 <> OutOfFuel.
Proof. apply fetch_fuel_enough. lia. Qed.







End AuthenticatedFetch.
(** ** The playback engine *)

Import SpotifyPlayer.

Example resource_type_playlist :
  SpotifyUri.resource_type "spotify:playlist:abc" = Some "playlist".
Proof. reflexivity. Qed.

Example stringify_context :
  stringify (ContextUri "spotify:playlist:abc")
  = "{" ++ quoted "context_uri" ++ ":" ++ quoted "spotify:playlist:abc" ++ "}".
Proof. reflexivity. Qed.

Example math_round_half : math_round (57 # 2) = 29 /\ math_round (-5 # 2) = -2.
Proof. by_evaluation. Qed.

(** A tactic for goals about a field of the state after an operation:
    case on whatever the operation inspects, then compute the field. *)
Ltac break_match :=
  match goal with
  | |- context [match ?x with _ => _ end] => destruct x eqn:?
  | H : context [match ?x with _ => _ end] |- _ => destruct x eqn:?
  end.

Ltac field_of_op := repeat break_match; simplify_eq/=; try congruence; auto.

Section UriClassification.

Lemma includes_unfold (hay needle : string) :
  JS.includes hay needle
  = String.prefix needle hay
    || match hay with
       | EmptyString => false
       | String _ rest => JS.includes rest needle
       end.
Proof. destruct hay; reflexivity. Qed.

Lemma includes_prefix (hay needle : string) :
  String.prefix needle hay = true -> JS.includes hay needle = true.
Proof. intros H. rewrite includes_unfold, H. reflexivity. Qed.

Lemma includes_tail (c : ascii) (hay needle : string) :
  JS.includes hay needle = true ->
  JS.includes (String c hay) needle = true.
Proof. intros H. rewrite includes_unfold, H. apply orb_true_r. Qed.

Lemma prefix_before_colon (s : string) :
  String.prefix (SpotifyUri.before_colon s) s = true.
Proof.
  induction s as [|c s IH]; cbn; [reflexivity|].
  destruct (Ascii.eqb c ":"); cbn; [reflexivity|].
  destruct (ascii_dec c c); [exact IH | congruence].
Qed.

Lemma includes_after_colon (uri rest needle : string) :
  SpotifyUri.after_colon uri = Some rest ->
  JS.includes rest needle = true ->
  JS.includes uri needle = true.
Proof.
  induction uri as [|c uri IH]; cbn; [discriminate|].
  destruct (Ascii.eqb c ":"); intros H Hi.
  - injection H as ->. apply includes_tail, Hi.
  - apply includes_tail, IH; assumption.
Qed.

(** The resource-type segment is a substring of the URI, so the test of
    [play] accepts every URI whose segment is the word it looks for. *)
Lemma resource_type_includes (uri t : string) :
  SpotifyUri.resource_type uri = Some t -> JS.includes uri t = true.
Proof.
  unfold SpotifyUri.resource_type. intros H.
  destruct (SpotifyUri.after_colon uri) as [rest|] eqn:E;
    [|discriminate H].
  injection H as <-.
  eapply includes_after_colon; [exact E|].
  apply includes_prefix, prefix_before_colon.
Qed.

(** What [play] sends, in either mode, once a token is at hand. *)
Lemma play_request (s : System) (uri : option string) (tc : ascii)
  (tr : string) :
  JS.truthy (deviceId s) || useRemote s = true ->
  SpotifyAuth.getAccessToken (world s) = Some (String tc tr) ->
  apiSent (world (play uri s).2)
  = (apiSent (world s)
     ++ [player_request "PUT"
           (if useRemote s then PLAYER_URL ++ "/play"
            else PLAYER_URL ++ "/play?device_id="
                 ++ default "null" (deviceId s))
           (String tc tr) (Some (stringify (play_body uri)))])%list.
Proof.
  intros Hready Htok. unfold play.
  assert (negb (JS.truthy (deviceId s)) && negb (useRemote s) = false) as ->
    by (destruct (JS.truthy (deviceId s)), (useRemote s); auto).
  unfold SpotifyAuth.getValidAccessToken. rewrite Htok. cbn [JS.truthy negb].
  unfold fetch_api.
  destruct (apiNet (world s)) as [|[|status txt body] rest];
    cbn; try reflexivity.
  destruct (negb (ok status)); [destruct (_ && _)|]; reflexivity.
Qed.

(** C8, as stated, fails: the resource type of this URI is [track], a
    single item, yet [play] sends it as a context reference, because the
    word album occurs in its identifier. *)
Lemma play_track_counterexample :
  SpotifyUri.resource_type "spotify:track:album4ever" = Some "track"
  /\ map req_body
       (apiSent (world (play (Some "spotify:track:album4ever")
                          (remote_engine [no_content])).2))
     = [Some ("{" ++ quoted "context_uri" ++ ":"
              ++ quoted "spotify:track:album4ever" ++ "}")].
Proof. by_evaluation. Qed.

(** C8 (amended).  For every non-empty URI, [play(uri)] sends
    [{context_uri: uri}] when the URI contains the text playlist or the
    text album anywhere, and [{uris: [uri]}] otherwise.  In particular a
    URI whose resource type is playlist or album is sent as a context
    reference, [play("spotify:playlist:abc")] sends
    [{"context_uri":"spotify:playlist:abc"}] and
    [play("spotify:track:xyz")] sends [{"uris":["spotify:track:xyz"]}]. *)
Theorem play_classifies_by_substring (s : System) (c : ascii) (r : string)
  (tc : ascii) (tr : string) :
  JS.truthy (deviceId s) || useRemote s = true ->
  SpotifyAuth.getAccessToken (world s) = Some (String tc tr) ->
  let uri := String c r in
  let sent body :=
    exists url,
      apiSent (world (play (Some uri) s).2)
      = (apiSent (world s)
         ++ [player_request "PUT" url (String tc tr)
               (Some (stringify body))])%list in
  (JS.includes uri "playlist" || JS.includes uri "album" = true ->
     sent (ContextUri uri))
  /\ (JS.includes uri "playlist" || JS.includes uri "album" = false ->
      sent (Uris [uri]))
  /\ (SpotifyUri.resource_type uri = Some "playlist"
      \/ SpotifyUri.resource_type uri = Some "album" ->
      sent (ContextUri uri))
  /\ stringify (play_body (Some "spotify:playlist:abc"))
     = "{" ++ quoted "context_uri" ++ ":" ++ quoted "spotify:playlist:abc"
       ++ "}"
  /\ stringify (play_body (Some "spotify:track:xyz"))
     = "{" ++ quoted "uris" ++ ":[" ++ quoted "spotify:track:xyz" ++ "]}".
Proof.
  intros Hready Htok uri sent.
  pose proof (play_request s (Some uri) tc tr Hready Htok) as Hreq.
  assert (Hctx : JS.includes uri "playlist" || JS.includes uri "album"
                 = true -> sent (ContextUri uri)).
  { intros H. eexists. rewrite Hreq. unfold play_body, uri in *.
    rewrite H. reflexivity. }
  repeat split; try reflexivity; try exact Hctx.
  - intros H. eexists. rewrite Hreq. unfold play_body, uri in *.
    rewrite H. reflexivity.
  - intros [H|H]; apply Hctx; apply resource_type_includes in H;
      rewrite H; auto using orb_true_r.
Qed.

Lemma play_classifies_by_substring_witness :
  apiSent (world (play (Some "spotify:playlist:abc")
                    (remote_engine [no_content])).2)
  = [player_request "PUT" "https://api.spotify.com/v1/me/player/play" "tok"
       (Some ("{" ++ quoted "context_uri" ++ ":"
              ++ quoted "spotify:playlist:abc" ++ "}"))]
  /\ exists url,
      apiSent (world (play (Some "spotify:track:xyz")
                        (remote_engine [no_content])).2)
      = [player_request "PUT" url "tok"
           (Some (stringify (Uris ["spotify:track:xyz"])))].
Proof.
  split; [reflexivity|].
  destruct (play_classifies_by_substring (remote_engine [no_content])
              "s" "potify:track:xyz" "t" "ok") as (_ & H & _);
    [reflexivity | reflexivity |].
  apply H. reflexivity.
Defined.

End UriClassification.

Section RepollAfterControl.

(** [remoteControl] installs the 200 ms timer whenever its request gets a
    response, whatever the status. *)
Lemma remoteControl_schedules_repoll (method endpoint : string)
  (s : System) (tc : ascii) (tr : string) (status : Z) (txt : string)
  (body : option ApiBody) (rest : list (Reply ApiBody)) :
  SpotifyAuth.getAccessToken (world s) = Some (String tc tr) ->
  apiNet (world s) = Response status txt body :: rest ->
  let s' := (remoteControl method endpoint s).2 in
  (remoteControl method endpoint s).1 = Done
  /\ timers s' = (timers s ++ [(nextTimer s, Repoll)])%list
  /\ delay_ms Repoll = 200
  /\ apiSent (world s')
     = (apiSent (world s)
        ++ [player_request method (PLAYER_URL ++ "/" ++ endpoint)
              (String tc tr) None])%list.
Proof.
  intros Htok Hnet. unfold remoteControl, SpotifyAuth.getValidAccessToken.
  rewrite Htok. cbn [JS.truthy negb]. unfold fetch_api. rewrite Hnet.
  repeat split; reflexivity.
Qed.

(** When the 200 ms timer fires, a poll starts; when the poll settles,
    every subscriber receives the fetched state. *)
Lemma repoll_delivers (id : nat) (s : System) :
  find_timer id s = Some Repoll ->
  let s' := fire id s in
  polls s'
  = (polls s ++ [{| then_interval := false;
                    result := (fetchRemoteState (world s)).1 |}])%list
  /\ trace (settle_poll (length (polls s)) s')
     = (trace s
        ++ map (fun cb => Notified cb (fetchRemoteState (world s)).1)
             (stateCallbacks s))%list.
Proof.
  intros Hf. unfold fire. rewrite Hf. unfold pollRemoteState.
  cbn [world clear_timer set_timers polls].
  destruct (fetchRemoteState (world s)) as [state w] eqn:E.
  cbn [fst polls set_polls set_world]. split; [reflexivity|].
  unfold settle_poll. cbn [polls set_polls set_world].
  rewrite lookup_app_r, Nat.sub_diag by lia. cbn. reflexivity.
Qed.

(** [seek], [setVolume] and [play] install no timer and start no poll, in
    any state. *)
Lemma seek_setVolume_play_no_timer (s : System) (positionMs : Z)
  (volume : Q) (uri : option string) :
  (timers (seek positionMs s).2 = timers s
   /\ polls (seek positionMs s).2 = polls s)
  /\ (timers (setVolume volume s).2 = timers s
      /\ polls (setVolume volume s).2 = polls s)
  /\ (timers (play uri s).2 = timers s
      /\ polls (play uri s).2 = polls s).
Proof.
  unfold seek, setVolume, play, remote_put, local_call, sdk_call.
  repeat split; field_of_op.
Qed.

(** C9: the code at the failing inputs.  In remote mode with a valid
    token, [pause] sends its request and installs the 200 ms timer, whose
    poll then reaches the subscriber; [seek], [setVolume] and [play] send
    their requests and leave no timer and no poll behind, so no state is
    delivered before the next tick of the interval. *)
Theorem seek_setVolume_play_schedule_no_repoll :
  (let s := (pause (remote_subscribed [no_content; playing 5])).2 in
   timers s = [(1%nat, Repoll)]
   /\ trace (run s [TimerFires 1; PollSettles 0])
      = [Notified 7 (Some (playing_state 5))])
  /\ (let r := seek 30000 (remote_subscribed [no_content; playing 5]) in
      r.1 = Done
      /\ map req_url (apiSent (world r.2))
         = ["https://api.spotify.com/v1/me/player/seek?position_ms=30000"]
      /\ timers r.2 = [] /\ polls r.2 = [] /\ trace r.2 = [])
  /\ (let r := setVolume (1 # 2)
                 (remote_subscribed [no_content; playing 5]) in
      r.1 = Done
      /\ map req_url (apiSent (world r.2))
         = ["https://api.spotify.com/v1/me/player/volume?volume_percent=50"]
      /\ timers r.2 = [] /\ polls r.2 = [] /\ trace r.2 = [])
  /\ (let r := play (Some "spotify:track:xyz")
                 (remote_subscribed [no_content; playing 5]) in
      r.1 = Done
      /\ map req_url (apiSent (world r.2))
         = ["https://api.spotify.com/v1/me/player/play"]
      /\ timers r.2 = [] /\ polls r.2 = [] /\ trace r.2 = []).
Proof. by_evaluation. Qed.

End RepollAfterControl.

Section Disconnect.

(** [disconnect] touches the player, the device id and the trace only:
    the timers, the recorded interval handle, the pending polls, the
    subscribers and the mode are what they were. *)
Lemma disconnect_frame (s : System) :
  timers (disconnect s) = timers s
  /\ pollInterval (disconnect s) = pollInterval s
  /\ polls (disconnect s) = polls s
  /\ stateCallbacks (disconnect s) = stateCallbacks s
  /\ useRemote (disconnect s) = useRemote s.
Proof. unfold disconnect. destruct (player s); repeat split. Qed.

(** After an error fallback there is no player, and [disconnect] does
    nothing at all. *)
Lemma disconnect_without_player (s : System) :
  player s = None -> disconnect s = s.
Proof. unfold disconnect. intros ->. reflexivity. Qed.

(** A tick of the interval starts a poll; when the poll settles, every
    subscriber receives the fetched state. *)
Lemma tick_delivers (id : nat) (s : System) :
  find_timer id s = Some PollTick ->
  let s' := fire id s in
  polls s'
  = (polls s ++ [{| then_interval := false;
                    result := (fetchRemoteState (world s)).1 |}])%list
  /\ trace (settle_poll (length (polls s)) s')
     = (trace s
        ++ map (fun cb => Notified cb (fetchRemoteState (world s)).1)
             (stateCallbacks s))%list.
Proof.
  intros Hf. unfold fire. rewrite Hf. unfold pollRemoteState.
  destruct (fetchRemoteState (world s)) as [state w] eqn:E.
  cbn [fst polls set_polls set_world]. split; [reflexivity|].
  unfold settle_poll. cbn [polls set_polls set_world].
  rewrite lookup_app_r, Nat.sub_diag by lia. cbn. reflexivity.
Qed.

(** A tick of the interval after [disconnect] starts a poll, and a poll
    that settles after [disconnect] notifies every subscriber. *)
Lemma poll_after_disconnect (s : System) (id : nat) :
  find_timer id s = Some PollTick ->
  let s1 := fire id (disconnect s) in
  polls s1
  = (polls s ++ [{| then_interval := false;
                    result := (fetchRemoteState (world s)).1 |}])%list
  /\ trace (settle_poll (length (polls s)) s1)
     = (trace (disconnect s)
        ++ map (fun cb => Notified cb (fetchRemoteState (world s)).1)
             (stateCallbacks s))%list.
Proof.
  intros Hf.
  assert (Hf' : find_timer id (disconnect s) = Some PollTick)
    by (unfold disconnect; destruct (player s); exact Hf).
  assert (Hw : world (disconnect s) = world s)
    by (unfold disconnect; destruct (player s); reflexivity).
  destruct (disconnect_frame s) as (_ & _ & Hp & Hc & _).
  pose proof (tick_delivers id (disconnect s) Hf') as H.
  cbv zeta in H. rewrite Hp, Hw, Hc in H. exact H.
Qed.

(** C1: the code at the failing inputs.  After [disconnect] the interval
    is still installed; a poll that was in flight delivers its state to
    the subscriber when it settles, and the next tick polls and delivers
    again.  After an error fallback [disconnect] changes nothing. *)
Theorem disconnect_leaves_polling_running :
  (let s := polling_engine [playing 5; playing 3005] in
   useRemote s = true /\ pollInterval s = Some 2%nat
   /\ timers s = [(2%nat, PollTick)]
   /\ let s1 := run s [TimerFires 2; CallDisconnect] in
      player s1 = None /\ timers s1 = [(2%nat, PollTick)]
      /\ pollInterval s1 = Some 2%nat
      /\ trace (run s1 [PollSettles 0; TimerFires 2; PollSettles 0])
         = (trace s1
            ++ [Notified 7 (Some (playing_state 5));
                Notified 7 (Some (playing_state 3005))])%list)
  /\ (let s := polling_engine_after_error [playing 5] in
      useRemote s = true /\ timers s = [(2%nat, PollTick)]
      /\ disconnect s = s
      /\ trace (run s [CallDisconnect; TimerFires 2; PollSettles 0])
         = (trace s ++ [Notified 7 (Some (playing_state 5))])%list).
Proof. by_evaluation. Qed.

End Disconnect.

Section RemoteFallbackIsSticky.

(** [useRemote] is assigned in three places, each time to [true]; every
    other operation leaves it alone. *)
Lemma useRemote_resolve p v s : useRemote (resolve p v s) = useRemote s.
Proof. unfold resolve. field_of_op. Qed.

Lemma useRemote_clear_race_timeout p s :
  useRemote (clear_race_timeout p s) = useRemote s.
Proof. unfold clear_race_timeout. field_of_op. Qed.

Lemma useRemote_remove_race_listeners p s :
  useRemote (remove_race_listeners p s) = useRemote s.
Proof. unfold remove_race_listeners, on_current. field_of_op. Qed.

Lemma useRemote_pollRemoteState b s :
  useRemote (pollRemoteState b s) = useRemote s.
Proof. unfold pollRemoteState. field_of_op. Qed.

Lemma useRemote_startRemotePolling s :
  useRemote (startRemotePolling s) = useRemote s.
Proof.
  unfold startRemotePolling. rewrite useRemote_pollRemoteState.
  field_of_op.
Qed.

Lemma useRemote_settle_poll i s : useRemote (settle_poll i s) = useRemote s.
Proof. unfold settle_poll, set_timer. field_of_op. Qed.

(** Each of the three fallbacks enters remote mode. *)
Lemma useRemote_fall_back p s : useRemote (fall_back p s) = true.
Proof.
  unfold fall_back.
  rewrite useRemote_resolve, useRemote_startRemotePolling. reflexivity.
Qed.

Lemma useRemote_onTimeout p s : useRemote (onTimeout p s) = true.
Proof. apply useRemote_fall_back. Qed.

Lemma useRemote_onError p m s : useRemote (onError p m s) = true.
Proof. apply useRemote_fall_back. Qed.

Lemma useRemote_onConnected_false p s :
  useRemote (onConnected p false s) = true.
Proof. apply useRemote_fall_back. Qed.

(** A ready event never leaves remote mode: [onReady] records the device
    id and does nothing to [useRemote]. *)
Lemma useRemote_onReady p d s : useRemote (onReady p d s) = useRemote s.
Proof.
  unfold onReady. rewrite useRemote_resolve. cbn [useRemote set_deviceId].
  rewrite useRemote_remove_race_listeners, useRemote_clear_race_timeout.
  reflexivity.
Qed.

Lemma useRemote_run_handler e s h :
  useRemote s = true -> useRemote (run_handler e s h) = true.
Proof.
  intros H. destruct h, e; cbn [run_handler];
    rewrite ?useRemote_onReady, ?useRemote_onError; auto.
Qed.

Lemma useRemote_handlers e hs s :
  useRemote s = true -> useRemote (fold_left (run_handler e) hs s) = true.
Proof.
  revert s. induction hs as [|h hs IH]; intros s H; cbn [fold_left];
    [exact H | apply IH, useRemote_run_handler, H].
Qed.

Lemma useRemote_initialize s : useRemote (initialize s).2 = useRemote s.
Proof.
  unfold initialize, loadSDK, setupEventListeners, set_timer. field_of_op.
Qed.

Lemma useRemote_transport s e :
  match e with
  | CallGetCurrentState _ | CallPlay _ | CallPause | CallResume
  | CallTogglePlay | CallNextTrack | CallPreviousTrack | CallSeek _
  | CallSetVolume _ => useRemote (step s e) = useRemote s
  | _ => True
  end.
Proof.
  destruct e; try exact I; cbn [step];
    unfold togglePlay, getCurrentState, play, pause, resume, nextTrack,
      previousTrack, seek, setVolume, remoteControl, remote_put,
      local_call, set_timer;
    field_of_op.
Qed.

Lemma useRemote_step (s : System) (e : Event) :
  useRemote s = true -> useRemote (step s e) = true.
Proof.
  intros H. pose proof (useRemote_transport s e) as Ht.
  destruct e; cbn [step] in *; try (rewrite Ht; exact H).
  - rewrite useRemote_initialize. exact H.
  - unfold onStateChange. field_of_op.
  - exact H.
  - unfold disconnect. field_of_op.
  - unfold emit. destruct (players s !! p); [|exact H].
    apply useRemote_handlers, H.
  - unfold connected. destruct (players s !! p) as [pl|]; [|exact H].
    destruct (connecting pl); [|exact H].
    destruct success; [exact H | apply useRemote_onConnected_false].
  - exact H.
  - unfold fire. destruct (find_timer id s) as [[q| |]|];
      rewrite ?useRemote_onTimeout, ?useRemote_pollRemoteState; auto.
  - rewrite useRemote_settle_poll. exact H.
  - exact H.
Qed.

Lemma useRemote_run (es : list Event) (s : System) :
  useRemote s = true -> useRemote (run s es) = true.
Proof.
  revert s. induction es as [|e es IH]; intros s H; cbn [run fold_left];
    [exact H | apply IH, useRemote_step, H].
Qed.


Lemma getValidAccessToken_valid (w : World) (tc : ascii) (tr : string) :
  SpotifyAuth.getAccessToken w = Some (String tc tr) ->
  SpotifyAuth.getValidAccessToken w = (Some (String tc tr), w).
Proof.
  intros H. unfold SpotifyAuth.getValidAccessToken. rewrite H. reflexivity.
Qed.

Lemma getValidAccessToken_apiSent (w : World) :
  apiSent (SpotifyAuth.getValidAccessToken w).2 = apiSent w.
Proof.
  unfold SpotifyAuth.getValidAccessToken.
  destruct (negb _); [apply refreshAccessToken_apiSent | reflexivity].
Qed.

(** In remote mode no transport method and no state query reaches the
    vendor player: the trace is left alone. *)
Lemma trace_transport_remote (s : System) (e : Event) :
  useRemote s = true ->
  is_Some (remote_request e EmptyString) ->
  trace (step s e) = trace s.
Proof.
  intros H [req Hreq].
  destruct e; try discriminate Hreq; cbn [step];
    unfold togglePlay, getCurrentState, play, pause, resume, nextTrack,
      previousTrack, seek, setVolume, remoteControl, remote_put,
      local_call, set_timer;
    rewrite ?H; field_of_op.
Qed.

(** Requests are only ever appended to the log. *)
Lemma remoteControl_apiSent (method endpoint : string) (s : System) :
  exists l,
    apiSent (world (remoteControl method endpoint s).2)
    = (apiSent (world s) ++ l)%list.
Proof.
  unfold remoteControl, set_timer.
  pose proof (getValidAccessToken_apiSent (world s)) as Hv.
  destruct (SpotifyAuth.getValidAccessToken (world s)) as [token w1].
  cbn [snd] in Hv.
  destruct token as [[|c r]|];
    try (exists []; cbn; rewrite Hv, app_nil_r; reflexivity).
  unfold fetch_api.
  destruct (apiNet w1) as [|[|status txt body] rest]; cbn;
    rewrite Hv; eexists; reflexivity.
Qed.

Lemma fetchRemoteState_request (w : World) (tc : ascii) (tr : string) :
  SpotifyAuth.getAccessToken w = Some (String tc tr) ->
  apiSent (fetchRemoteState w).2
  = (apiSent w ++ [player_request "GET" PLAYER_URL (String tc tr) None])%list.
Proof.
  intros H. unfold fetchRemoteState.
  rewrite (getValidAccessToken_valid _ _ _ H). unfold fetch_api.
  destruct (apiNet w) as [|[|status txt body] rest]; cbn;
    try reflexivity.
  destruct (status =? 204); [reflexivity|].
  destruct (negb (ok status)); [reflexivity|].
  destruct body; reflexivity.
Qed.

Lemma remoteControl_request (method endpoint : string) (s : System)
  (tc : ascii) (tr : string) :
  SpotifyAuth.getAccessToken (world s) = Some (String tc tr) ->
  apiSent (world (remoteControl method endpoint s).2)
  = (apiSent (world s)
     ++ [player_request method (PLAYER_URL ++ "/" ++ endpoint)
           (String tc tr) None])%list.
Proof.
  intros H. unfold remoteControl, set_timer.
  rewrite (getValidAccessToken_valid _ _ _ H). unfold fetch_api.
  destruct (apiNet (world s)) as [|[|status txt body] rest]; reflexivity.
Qed.

Lemma remote_put_request (url : string) (s : System)
  (tc : ascii) (tr : string) :
  SpotifyAuth.getAccessToken (world s) = Some (String tc tr) ->
  apiSent (world (remote_put url s).2)
  = (apiSent (world s) ++ [player_request "PUT" url (String tc tr) None])%list.
Proof.
  intros H. unfold remote_put.
  rewrite (getValidAccessToken_valid _ _ _ H). unfold fetch_api.
  destruct (apiNet (world s)) as [|[|status txt body] rest]; reflexivity.
Qed.

(** With a valid token at hand, the first request a transport method or
    a state query sends in remote mode is the one of the control API. *)
Lemma request_transport_remote (s : System) (e : Event)
  (tc : ascii) (tr : string) (req : ApiRequest) :
  useRemote s = true ->
  SpotifyAuth.getAccessToken (world s) = Some (String tc tr) ->
  remote_request e (String tc tr) = Some req ->
  apiSent (world (step s e)) !! length (apiSent (world s)) = Some req.
Proof.
  intros H Htok Hreq.
  assert (Hlast : forall (l : list ApiRequest) r l',
             (l ++ r :: l')%list !! length l = Some r).
  { intros l r l'. rewrite lookup_app_r, Nat.sub_diag by lia. reflexivity. }
  destruct e; try discriminate Hreq; cbn [remote_request] in Hreq;
    injection Hreq as <-; cbn [step].
  - unfold getCurrentState. rewrite H.
    pose proof (fetchRemoteState_request _ _ _ Htok) as Hf.
    destruct (fetchRemoteState (world s)) as [state w]. cbn [snd] in *.
    cbn [snd world set_world]. rewrite Hf. apply Hlast.
  - rewrite (play_request s uri tc tr)
      by (exact Htok || (rewrite H; apply orb_true_r)).
    rewrite H. apply Hlast.
  - unfold pause. rewrite H, (remoteControl_request _ _ _ _ _ Htok).
    apply Hlast.
  - unfold resume. rewrite H, (remoteControl_request _ _ _ _ _ Htok).
    apply Hlast.
  - unfold togglePlay, getCurrentState. rewrite H.
    pose proof (fetchRemoteState_request _ _ _ Htok) as Hf.
    destruct (fetchRemoteState (world s)) as [state w]. cbn [snd] in Hf.
    unfold resume, pause. cbn [useRemote set_world]. rewrite H.
    destruct (from_option paused false state);
      match goal with
      | |- context [remoteControl ?m ?ep ?s1] =>
          destruct (remoteControl_apiSent m ep s1) as [l ->]
      end;
      cbn [world set_world]; rewrite Hf, <- app_assoc; apply Hlast.
  - unfold nextTrack. rewrite H, (remoteControl_request _ _ _ _ _ Htok).
    apply Hlast.
  - unfold previousTrack.
    rewrite H, (remoteControl_request _ _ _ _ _ Htok). apply Hlast.
  - unfold seek. rewrite H, (remote_put_request _ _ _ _ Htok).
    apply Hlast.
  - unfold setVolume. rewrite H, (remote_put_request _ _ _ _ Htok).
    apply Hlast.
Qed.

End RemoteFallbackIsSticky.
Section StickyTheorem.

(** C7.  Once [useRemote] is set, no sequence of events of any kind (a
    late ready event, further calls of [initialize] or [disconnect],
    timers, replies, changes of the storage) clears it; and in every state
    reached, each transport method and the state query leaves the vendor
    player alone and, given a valid token, sends the request of the remote
    control API. *)
Theorem remote_fallback_is_sticky (s : System) (es : list Event) :
  useRemote s = true ->
  let s' := run s es in
  useRemote s' = true
  /\ (forall e, is_Some (remote_request e EmptyString) ->
        trace (step s' e) = trace s')
  /\ (forall e tc tr req,
        SpotifyAuth.getAccessToken (world s') = Some (String tc tr) ->
        remote_request e (String tc tr) = Some req ->
        apiSent (world (step s' e)) !! length (apiSent (world s'))
        = Some req).
Proof.
  intros H s'. pose proof (useRemote_run es s H) as H'.
  split; [exact H'|]. split.
  - intros e He. apply trace_transport_remote; assumption.
  - intros e tc tr req Htok Hreq.
    eapply request_transport_remote; eassumption.
Qed.

(** The fallback timeout has elapsed and polling runs; then the vendor
    player reports ready after all.  The device id is recorded, the engine
    stays in remote mode, and [pause] goes to the Web API. *)
Lemma remote_fallback_is_sticky_witness :
  let s := polling_engine [playing 5; no_content] in
  let s' := run s [SdkEmits 0 (Ready "device-1")] in
  useRemote s = true
  /\ deviceId s' = Some "device-1"
  /\ useRemote s' = true
  /\ trace (step s' CallPause) = trace s'
  /\ apiSent (world (step s' CallPause)) !! length (apiSent (world s'))
     = Some (player_request "PUT"
               "https://api.spotify.com/v1/me/player/pause" "tok" None).
Proof.
  cbv zeta.
  destruct (remote_fallback_is_sticky
              (polling_engine [playing 5; no_content])
              [SdkEmits 0 (Ready "device-1")]) as (H1 & H2 & H3);
    [by_evaluation|].
  split; [by_evaluation|]. split; [by_evaluation|].
  split; [exact H1|]. split.
  - apply H2. eexists. reflexivity.
  - apply (H3 CallPause "t"%char "ok"); by_evaluation.
Defined.

End StickyTheorem.

Section TimerHandles.

Lemma timers_evolve_refl (s : System) : timers_evolve s s.
Proof.
  split; [lia|]. apply Forall_forall. intros e He. left.
  apply list_elem_of_In, He.
Qed.

Lemma timers_evolve_frame (s s1 s2 : System) :
  timers s2 = timers s1 -> nextTimer s2 = nextTimer s1 ->
  timers_evolve s s1 -> timers_evolve s s2.
Proof. unfold timers_evolve. intros -> ->. auto. Qed.

Lemma timers_evolve_set_timer (t : Timer) (s s' : System) :
  timers_evolve s s' -> timers_evolve s (set_timer t s').2.
Proof.
  intros [Hn Hf]. split; cbn; [lia|].
  apply Forall_app. split.
  - eapply Forall_impl; [exact Hf|]. cbn. intros e [H|H]; [left|right]; auto.
    lia.
  - apply Forall_cons. split; [cbn; right; lia | apply Forall_nil; exact I].
Qed.

Lemma timers_evolve_clear_timer (id : nat) (s s' : System) :
  timers_evolve s s' -> timers_evolve s (clear_timer id s').
Proof.
  intros [Hn Hf]. split; [exact Hn|]. cbn.
  rewrite Forall_forall in Hf |- *. intros e He.
  apply Hf. apply list_elem_of_In. apply list_elem_of_In in He.
  apply filter_In in He. tauto.
Qed.

Lemma timers_fresh_evolve (s s' : System) :
  timers_fresh s -> timers_evolve s s' -> timers_fresh s'.
Proof.
  unfold timers_fresh. intros Hs [Hn Hf].
  rewrite Forall_forall in Hs, Hf |- *. intros e He.
  destruct (Hf e He) as [H|H]; [|lia].
  apply list_elem_of_In in H. specialize (Hs e H). lia.
Qed.

Lemma timers_fresh_find (s : System) :
  timers_fresh s -> find_timer (nextTimer s) s = None.
Proof.
  unfold timers_fresh, find_timer. intros H.
  induction H as [|[i t] l Hi _ IH]; [reflexivity|]. cbn in *.
  destruct (Nat.eqb_spec i (nextTimer s)); [lia | exact IH].
Qed.

Create HintDb evolve.

Lemma timers_evolve_set_timers (t : Timer) (s s' : System) :
  timers_evolve s s' ->
  timers_evolve s
    (set_timers (timers s' ++ [(nextTimer s', t)]) (S (nextTimer s')) s').
Proof. apply timers_evolve_set_timer. Qed.

(** The other field updates do not touch the timers. *)
Lemma timers_evolve_set_player v s s' :
  timers_evolve s s' -> timers_evolve s (set_player v s').
Proof. exact (fun H => H). Qed.
Lemma timers_evolve_set_deviceId v s s' :
  timers_evolve s s' -> timers_evolve s (set_deviceId v s').
Proof. exact (fun H => H). Qed.
Lemma timers_evolve_set_useRemote v s s' :
  timers_evolve s s' -> timers_evolve s (set_useRemote v s').
Proof. exact (fun H => H). Qed.
Lemma timers_evolve_set_pollInterval v s s' :
  timers_evolve s s' -> timers_evolve s (set_pollInterval v s').
Proof. exact (fun H => H). Qed.
Lemma timers_evolve_set_stateCallbacks v s s' :
  timers_evolve s s' -> timers_evolve s (set_stateCallbacks v s').
Proof. exact (fun H => H). Qed.
Lemma timers_evolve_set_world v s s' :
  timers_evolve s s' -> timers_evolve s (set_world v s').
Proof. exact (fun H => H). Qed.
Lemma timers_evolve_set_sdk v s s' :
  timers_evolve s s' -> timers_evolve s (set_sdk v s').
Proof. exact (fun H => H). Qed.
Lemma timers_evolve_set_players v s s' :
  timers_evolve s s' -> timers_evolve s (set_players v s').
Proof. exact (fun H => H). Qed.
Lemma timers_evolve_set_polls v s s' :
  timers_evolve s s' -> timers_evolve s (set_polls v s').
Proof. exact (fun H => H). Qed.
Lemma timers_evolve_log v s s' :
  timers_evolve s s' -> timers_evolve s (log v s').
Proof. exact (fun H => H). Qed.

#[local] Hint Resolve timers_evolve_refl timers_evolve_set_timer
  timers_evolve_set_timers timers_evolve_clear_timer
  timers_evolve_set_player timers_evolve_set_deviceId
  timers_evolve_set_useRemote timers_evolve_set_pollInterval
  timers_evolve_set_stateCallbacks timers_evolve_set_world
  timers_evolve_set_sdk timers_evolve_set_players timers_evolve_set_polls
  timers_evolve_log : evolve.

Ltac break_goal :=
  match goal with
  | |- context [match ?x with _ => _ end] => destruct x eqn:?
  end.

Ltac evolve_op := intros; repeat break_goal; eauto 40 with evolve.

Lemma timers_evolve_pollRemoteState b s s' :
  timers_evolve s s' -> timers_evolve s (pollRemoteState b s').
Proof. unfold pollRemoteState. evolve_op. Qed.
#[local] Hint Resolve timers_evolve_pollRemoteState : evolve.

Lemma timers_evolve_startRemotePolling s s' :
  timers_evolve s s' -> timers_evolve s (startRemotePolling s').
Proof. unfold startRemotePolling. evolve_op. Qed.
#[local] Hint Resolve timers_evolve_startRemotePolling : evolve.

Lemma timers_evolve_settle_poll i s s' :
  timers_evolve s s' -> timers_evolve s (settle_poll i s').
Proof. unfold settle_poll, notifyStateChange, set_timer. evolve_op. Qed.

Lemma timers_evolve_resolve p v s s' :
  timers_evolve s s' -> timers_evolve s (resolve p v s').
Proof. unfold resolve, update_player. evolve_op. Qed.
#[local] Hint Resolve timers_evolve_resolve : evolve.

Lemma timers_evolve_clear_race_timeout p s s' :
  timers_evolve s s' -> timers_evolve s (clear_race_timeout p s').
Proof. unfold clear_race_timeout. evolve_op. Qed.
#[local] Hint Resolve timers_evolve_clear_race_timeout : evolve.

Lemma timers_evolve_remove_race_listeners p s s' :
  timers_evolve s s' -> timers_evolve s (remove_race_listeners p s').
Proof.
  unfold remove_race_listeners, on_current, removeListener, update_player.
  evolve_op.
Qed.
#[local] Hint Resolve timers_evolve_remove_race_listeners : evolve.

Lemma timers_evolve_fall_back p s s' :
  timers_evolve s s' -> timers_evolve s (fall_back p s').
Proof. unfold fall_back. evolve_op. Qed.
#[local] Hint Resolve timers_evolve_fall_back : evolve.

Lemma timers_evolve_run_handler e h s s' :
  timers_evolve s s' -> timers_evolve s (run_handler e s' h).
Proof.
  unfold run_handler, onReady, onError, notifyStateChange, on_current,
    sdk_call.
  evolve_op.
Qed.

Lemma timers_evolve_handlers e hs s s' :
  timers_evolve s s' -> timers_evolve s (fold_left (run_handler e) hs s').
Proof.
  revert s'. induction hs as [|h hs IH]; intros s' H; cbn [fold_left];
    [exact H | apply IH, timers_evolve_run_handler, H].
Qed.

Lemma timers_evolve_update_player p f s s' :
  timers_evolve s s' -> timers_evolve s (update_player p f s').
Proof. exact (fun H => H). Qed.
Lemma timers_evolve_addListener p ev h s s' :
  timers_evolve s s' -> timers_evolve s (addListener p ev h s').
Proof. exact (fun H => H). Qed.
Lemma timers_evolve_sdk_call m p s s' :
  timers_evolve s s' -> timers_evolve s (sdk_call m p s').
Proof. exact (fun H => H). Qed.
#[local] Hint Resolve timers_evolve_update_player timers_evolve_addListener
  timers_evolve_sdk_call : evolve.

Lemma timers_evolve_setupEventListeners s s' :
  timers_evolve s s' -> timers_evolve s (setupEventListeners s').
Proof.
  unfold setupEventListeners. intros H. destruct (player s'); [|exact H].
  cbn [fold_left]. eauto 20 with evolve.
Qed.
#[local] Hint Resolve timers_evolve_setupEventListeners : evolve.

Lemma timers_evolve_initialize s s' :
  timers_evolve s s' -> timers_evolve s (initialize s').2.
Proof.
  unfold initialize, loadSDK, set_timer. intros H.
  destruct (player s'); [exact H|].
  destruct (sdk s') as [[sound|]|sound] eqn:Hsdk; [| exact H |];
    (destruct (SpotifyAuth.getValidAccessToken (world _)) as [token w];
     destruct (negb (JS.truthy token)); [exact H|];
     cbn [sdk set_world set_sdk]; rewrite ?Hsdk;
     destruct sound; [| exact H];
     cbv beta iota zeta; cbn [snd]; eauto 40 with evolve).
Qed.

Lemma timers_evolve_getCurrentState st s s' :
  timers_evolve s s' -> timers_evolve s (getCurrentState st s').2.
Proof.
  unfold getCurrentState. intros H.
  repeat break_goal; cbn [snd]; eauto with evolve.
Qed.

Lemma timers_evolve_remoteControl m ep s s' :
  timers_evolve s s' -> timers_evolve s (remoteControl m ep s').2.
Proof.
  unfold remoteControl. intros H.
  repeat break_goal; cbn [snd]; eauto with evolve.
Qed.

Lemma timers_evolve_transport e s s' :
  match e with
  | CallGetCurrentState _ | CallPlay _ | CallPause | CallResume
  | CallTogglePlay | CallNextTrack | CallPreviousTrack | CallSeek _
  | CallSetVolume _ | CallOnStateChange _ | CallUnsubscribe _
  | CallDisconnect | SdkAsksToken | WorldBecomes _ => True
  | _ => False
  end ->
  timers_evolve s s' -> timers_evolve s (step s' e).
Proof.
  destruct e; try contradiction; intros _ H; cbn [step];
    try apply timers_evolve_getCurrentState;
    try (unfold togglePlay;
         pose proof (timers_evolve_getCurrentState None s s' H);
         destruct (getCurrentState None s') as [state s1]; cbn [snd] in *);
    unfold play, pause, resume, nextTrack, previousTrack, seek, setVolume,
      remote_put, local_call, onStateChange, unsubscribe, disconnect,
      getOAuthToken;
    repeat break_goal; cbn [snd fst];
    eauto 20 using timers_evolve_remoteControl with evolve.
Qed.

Lemma timers_evolve_step e s s' :
  timers_evolve s s' -> timers_evolve s (step s' e).
Proof.
  intros H. pose proof (timers_evolve_transport e s s') as Ht.
  destruct e; try (apply Ht; [exact I | exact H]); cbn [step].
  - apply timers_evolve_initialize, H.
  - unfold emit. destruct (players s' !! p); [|exact H].
    apply timers_evolve_handlers, H.
  - unfold connected, onConnected.
    repeat break_goal; eauto 20 with evolve.
    unfold on_current. repeat break_goal; eauto 20 with evolve.
  - unfold fire, onTimeout. repeat break_goal; eauto 20 with evolve.
  - apply timers_evolve_settle_poll, H.
Qed.

(** In every state an engine can reach, the next timer handle is unused. *)
Lemma timers_fresh_run (w : World) (status : SdkStatus) (es : list Event) :
  let s := run (create w status) es in
  timers_fresh s /\ find_timer (nextTimer s) s = None.
Proof.
  cbv zeta.
  assert (H : timers_evolve (create w status) (run (create w status) es)).
  { generalize (timers_evolve_refl (create w status)).
    generalize (create w status) at 2 4. induction es as [|e es IH];
      intros s' H; cbn [run fold_left]; [exact H|].
    apply IH, timers_evolve_step, H. }
  assert (Hf : timers_fresh (run (create w status) es)).
  { eapply timers_fresh_evolve; [|exact H]. apply Forall_nil. exact I. }
  split; [exact Hf | apply timers_fresh_find, Hf].
Qed.

End TimerHandles.

Section InitializeTwice.

(** Evaluation of the fields of a state, leaving the list operations on
    unknown lists and the network exchanges folded. *)
Ltac eval_fields :=
  lazy - [alter list_alter lookup list_lookup app length List.filter
            bool_decide fetchRemoteState SpotifyAuth.refreshAccessToken
            SpotifyAuth.getValidAccessToken].

Lemma alter_snoc {A : Type} (f : A -> A) (l : list A) (x : A) :
  alter f (length l) (l ++ [x])%list = (l ++ [f x])%list.
Proof. induction l as [|a l IH]; cbn; [reflexivity | f_equal; exact IH]. Qed.

(** A call of [initialize] that finds no player, an SDK and a token
    performs the handshake on a new player and waits for the race. *)
Lemma initialize_handshake (s : System) :
  player s = None ->
  sdk_available s ->
  JS.truthy (SpotifyAuth.getValidAccessToken (world s)).1 = true ->
  let p := length (players s) in
  let s' := (initialize s).2 in
  (initialize s).1 = InitPending p
  /\ player s' = Some p
  /\ players s' = (players s ++ [connecting_player p (nextTimer s)])%list
  /\ timers s' = (timers s ++ [(nextTimer s, FallbackTimeout p)])%list
  /\ trace s' = (trace s ++ handshake p)%list
  /\ sdk s' = SdkPresent true
  /\ useRemote s' = useRemote s
  /\ world s' = (SpotifyAuth.getValidAccessToken (world s)).2.
Proof.
  intros Hp Hsdk Htok. cbv zeta.
  destruct s as [pl dev ur pi cbs w sdk0 pls tms nt pos tr].
  unfold sdk_available in Hsdk. cbn [player sdk world] in *. subst pl.
  unfold initialize, loadSDK. cbn [player sdk].
  destruct Hsdk as [-> | ->];
    cbn [world set_sdk];
    destruct (SpotifyAuth.getValidAccessToken w) as [token w'];
    cbn [fst snd] in *; cbv beta iota zeta; cbn [set_world world sdk];
    rewrite Htok; eval_fields; rewrite !alter_snoc; eval_fields;
    split_conj; rewrite <- ?app_assoc; reflexivity.
Qed.

(** A call of [initialize] that finds a player returns true at once and
    does nothing. *)
Lemma initialize_noop (s : System) :
  is_Some (player s) -> initialize s = (InitReturned true, s).
Proof. intros [p Hp]. unfold initialize. rewrite Hp. reflexivity. Qed.

(** How the pieces of the race callbacks act on a state: each is a
    composition of field updates. *)
Lemma clear_timer_frame (id : nat) (s : System) :
  exists tms, clear_timer id s = set_timers tms (nextTimer s) s.
Proof. eexists. reflexivity. Qed.

Lemma clear_race_timeout_frame (p : nat) (s : System) :
  exists tms, clear_race_timeout p s = set_timers tms (nextTimer s) s.
Proof.
  unfold clear_race_timeout.
  destruct (players s !! p ≫= timeout);
    [apply clear_timer_frame | exists (timers s); destruct s; reflexivity].
Qed.

Lemma startRemotePolling_frame (s : System) :
  exists ps w tms,
    startRemotePolling s
    = set_polls ps (set_world w (set_timers tms (nextTimer s) s)).
Proof.
  unfold startRemotePolling, pollRemoteState.
  destruct (pollInterval s) as [id|].
  - destruct (fetchRemoteState (world (clear_timer id s))) as [st w].
    eexists _, _, _. reflexivity.
  - destruct (fetchRemoteState (world s)) as [st w].
    exists (polls s ++ [{| then_interval := true; result := st |}])%list,
      w, (timers s).
    destruct s; reflexivity.
Qed.

Lemma settled_alter_listeners (f : list (EventName * Handler) ->
                                    list (EventName * Handler))
  (q i : nat) (pls : list SdkPlayer) :
  settled <$> alter (fun pl => {| listeners := f (listeners pl);
                                  connecting := connecting pl;
                                  timeout := timeout pl;
                                  settled := settled pl |}) q pls !! i
  = settled <$> pls !! i.
Proof.
  destruct (decide (q = i)) as [->|Hne].
  - rewrite list_lookup_alter_eq. destruct (pls !! i); reflexivity.
  - rewrite list_lookup_alter_ne by exact Hne. reflexivity.
Qed.

Lemma remove_race_listeners_frame (p q : nat) (s : System) :
  player s = Some q ->
  exists pls,
    length pls = length (players s)
    /\ (forall i, settled <$> pls !! i = settled <$> players s !! i)
    /\ remove_race_listeners p s
       = log [SdkRemoveListener q ready (OnReady p);
              SdkRemoveListener q initialization_error (OnError p);
              SdkRemoveListener q authentication_error (OnError p)]
           (set_players pls s).
Proof.
  intros Hq. destruct s as [pl dev ur pi cbs w sdk0 pls tms nt pos tr].
  cbn [player] in Hq. subst pl.
  unfold remove_race_listeners, on_current, removeListener, update_player.
  eexists. split; [|split]; cycle 2.
  - lazy - [alter list_alter app List.filter bool_decide].
    rewrite <- !app_assoc. reflexivity.
  - cbn [players]. rewrite !length_alter. reflexivity.
  - intros i. cbn [players].
    rewrite !(settled_alter_listeners
                (fun ls => List.filter _ ls)). reflexivity.
Qed.

Lemma resolve_pending (p : nat) (value : bool) (s : System) :
  settled <$> players s !! p = Some None ->
  exists pls,
    length pls = length (players s)
    /\ resolve p value s = log [Resolved p value] (set_players pls s).
Proof.
  intros H. unfold resolve, update_player.
  destruct (players s !! p) as [pl|]; [|discriminate H].
  injection H as ->. eexists. split; [|reflexivity].
  apply length_alter.
Qed.

Lemma on_current_some (f : nat -> System -> System) (s : System) (q : nat) :
  player s = Some q -> on_current f s = f q s.
Proof. unfold on_current. intros ->. reflexivity. Qed.

Lemma fall_back_frame (p : nat) (s : System) :
  settled <$> players s !! p = Some None ->
  exists ps w tms pls,
    length pls = length (players s)
    /\ fall_back p s
       = log [Resolved p true]
           (set_players pls
              (set_polls ps
                 (set_world w
                    (set_timers tms (nextTimer s)
                       (set_useRemote true s))))).
Proof.
  intros H. unfold fall_back.
  destruct (startRemotePolling_frame (set_useRemote true s))
    as (ps & w & tms & ->).
  match goal with
  | |- context [resolve p true ?s0] =>
      destruct (resolve_pending p true s0 H) as (pls & Hl & ->)
  end.
  exists ps, w, tms, pls. split; [exact Hl | reflexivity].
Qed.

(** The listeners of such a player that an event reaches, in order. *)
Lemma handlers_of_connecting_player (p timer : nat) (e : SdkEvent) :
  map snd
    (List.filter (fun l => bool_decide (l.1 = event_name e))
       (listeners (connecting_player p timer)))
  = match e with
    | Ready _ => [Setup; OnReady p]
    | InitializationError _ | AuthenticationError _ => [Setup; OnError p]
    | _ => [Setup]
    end.
Proof. destruct e; reflexivity. Qed.

Lemma awaiting_settled (p : nat) (s : System) :
  awaiting p s -> settled <$> players s !! p = Some None.
Proof. intros [_ [timer ->]]. reflexivity. Qed.

(** What [onReady] does to an engine that holds the player of the race. *)
Lemma onReady_awaiting (p : nat) (d : string) (s : System) :
  player s = Some p ->
  settled <$> players s !! p = Some None ->
  let s' := onReady p d s in
  player s' = Some p
  /\ deviceId s' = Some d
  /\ useRemote s' = useRemote s
  /\ trace s'
     = (trace s
        ++ [SdkRemoveListener p ready (OnReady p);
            SdkRemoveListener p initialization_error (OnError p);
            SdkRemoveListener p authentication_error (OnError p);
            Resolved p true])%list.
Proof.
  intros Hp Hs. cbv zeta. unfold onReady.
  destruct (clear_race_timeout_frame p s) as [tms ->].
  destruct (remove_race_listeners_frame p p
              (set_timers tms (nextTimer s) s) Hp)
    as (pls & Hl & Hst & ->).
  match goal with
  | |- context [resolve p true ?s0] =>
      destruct (resolve_pending p true s0) as (pls' & Hl' & ->)
  end.
  { cbn [players set_deviceId log set_players]. rewrite Hst. exact Hs. }
  split_conj; try reflexivity; try exact Hp.
  cbn [trace log set_players set_deviceId set_timers].
  rewrite <- app_assoc. reflexivity.
Qed.

(** What [onError] and a failed [connect()] do to it. *)
Lemma onError_awaiting (p : nat) (m : string) (s : System) :
  player s = Some p ->
  settled <$> players s !! p = Some None ->
  let s' := onError p m s in
  player s' = None
  /\ useRemote s' = true
  /\ sdk s' = sdk s
  /\ length (players s') = length (players s)
  /\ trace s'
     = (trace s
        ++ [SdkRemoveListener p ready (OnReady p);
            SdkRemoveListener p initialization_error (OnError p);
            SdkRemoveListener p authentication_error (OnError p);
            SdkCall p SdkDisconnect;
            Resolved p true])%list.
Proof.
  intros Hp Hs. cbv zeta. unfold onError.
  destruct (clear_race_timeout_frame p s) as [tms ->].
  destruct (remove_race_listeners_frame p p
              (set_timers tms (nextTimer s) s) Hp)
    as (pls & Hl & Hst & ->).
  rewrite (on_current_some _ _ p) by exact Hp.
  match goal with
  | |- context [fall_back p ?s0] =>
      destruct (fall_back_frame p s0) as (ps & w & tms' & pls' & Hl' & ->)
  end.
  { cbn [players set_player sdk_call log set_players]. rewrite Hst.
    exact Hs. }
  split_conj; try reflexivity.
  - exact (eq_trans Hl' Hl).
  - cbn [trace log set_players set_polls set_world set_timers
           set_useRemote set_player sdk_call].
    rewrite <- !app_assoc. reflexivity.
Qed.

Lemma onConnected_false_awaiting (p : nat) (s : System) :
  player s = Some p ->
  settled <$> players s !! p = Some None ->
  let s' := onConnected p false s in
  player s' = None
  /\ useRemote s' = true
  /\ sdk s' = sdk s
  /\ length (players s') = length (players s)
  /\ trace s' = (trace s ++ [SdkCall p SdkDisconnect; Resolved p true])%list.
Proof.
  intros Hp Hs. cbv zeta. unfold onConnected.
  destruct (clear_race_timeout_frame p s) as [tms ->].
  rewrite (on_current_some _ _ p) by exact Hp.
  match goal with
  | |- context [fall_back p ?s0] =>
      destruct (fall_back_frame p s0 Hs)
        as (ps & w & tms' & pls' & Hl' & ->)
  end.
  split_conj; try reflexivity.
  - exact Hl'.
  - cbn [trace log set_players set_polls set_world set_timers
           set_useRemote set_player sdk_call].
    rewrite <- !app_assoc. reflexivity.
Qed.

(** The race ends with a ready event: local mode, the player is kept. *)
Lemma race_ready (p : nat) (s : System) (d : string) :
  awaiting p s ->
  let s' := emit p (Ready d) s in
  player s' = Some p
  /\ deviceId s' = Some d
  /\ useRemote s' = useRemote s
  /\ trace s'
     = (trace s
        ++ [SdkRemoveListener p ready (OnReady p);
            SdkRemoveListener p initialization_error (OnError p);
            SdkRemoveListener p authentication_error (OnError p);
            Resolved p true])%list.
Proof.
  intros Ha. pose proof (awaiting_settled p s Ha) as Hs.
  destruct Ha as [Hp [timer H]]. cbv zeta.
  unfold emit. rewrite H, handlers_of_connecting_player.
  cbn [fold_left run_handler].
  apply (onReady_awaiting p d (set_deviceId (Some d) s)); assumption.
Qed.

(** The race ends with the timeout: remote mode, the player is kept. *)
Lemma race_timeout (p id : nat) (s : System) :
  awaiting p s ->
  find_timer id s = Some (FallbackTimeout p) ->
  let s' := fire id s in
  player s' = Some p
  /\ useRemote s' = true
  /\ trace s' = (trace s ++ [Resolved p true])%list.
Proof.
  intros Ha Hf. pose proof (awaiting_settled p s Ha) as Hs.
  destruct Ha as [Hp _]. cbv zeta. unfold fire. rewrite Hf.
  unfold onTimeout.
  destruct (fall_back_frame p (clear_timer id s) Hs)
    as (ps & w & tms' & pls' & Hl' & ->).
  split_conj; try reflexivity. exact Hp.
Qed.

(** The race ends with an initialization or authentication error: remote
    mode, and the player is disconnected and dropped. *)
Lemma race_error (p : nat) (s : System) (e : SdkEvent) :
  awaiting p s ->
  (exists m, e = InitializationError m \/ e = AuthenticationError m) ->
  let s' := emit p e s in
  player s' = None
  /\ useRemote s' = true
  /\ sdk s' = sdk s
  /\ length (players s') = length (players s)
  /\ trace s'
     = (trace s
        ++ [SdkRemoveListener p ready (OnReady p);
            SdkRemoveListener p initialization_error (OnError p);
            SdkRemoveListener p authentication_error (OnError p);
            SdkCall p SdkDisconnect;
            Resolved p true])%list.
Proof.
  intros Ha [m He]. pose proof (awaiting_settled p s Ha) as Hs.
  destruct Ha as [Hp [timer H]]. cbv zeta.
  unfold emit. rewrite H, handlers_of_connecting_player.
  destruct He as [-> | ->]; cbn [fold_left run_handler].
  - apply onError_awaiting; assumption.
  - apply (onError_awaiting p m
             (set_world (SpotifyAuth.refreshAccessToken (world s)).2 s));
      assumption.
Qed.

(** The race ends because [connect()] resolves to false: remote mode, and
    the player is disconnected and dropped. *)
Lemma race_connect_failed (p : nat) (s : System) :
  awaiting p s ->
  let s' := connected p false s in
  player s' = None
  /\ useRemote s' = true
  /\ sdk s' = sdk s
  /\ length (players s') = length (players s)
  /\ trace s' = (trace s ++ [SdkCall p SdkDisconnect; Resolved p true])%list.
Proof.
  intros Ha. pose proof (awaiting_settled p s Ha) as Hs.
  destruct Ha as [Hp [timer H]]. cbv zeta.
  unfold connected. rewrite H. cbn [connecting connecting_player].
  match goal with
  | |- context [onConnected p false ?s0] =>
      destruct (onConnected_false_awaiting p s0) as (A & B & C & D & E)
  end.
  - exact Hp.
  - cbn [players update_player set_players].
    rewrite list_lookup_alter_eq, H. reflexivity.
  - rewrite A, B, C, D, E. cbn [players update_player set_players].
    rewrite length_alter. split_conj; reflexivity.
Qed.

(** A fresh timer handle finds the timer just installed under it. *)
Lemma find_timer_installed (id : nat) (t : Timer) (s s' : System) :
  find_timer id s = None ->
  timers s' = (timers s ++ [(id, t)])%list ->
  find_timer id s' = Some t.
Proof.
  unfold find_timer. intros Hfresh ->.
  induction (timers s) as [|[i x] l IH]; cbn in *.
  - rewrite Nat.eqb_refl. reflexivity.
  - destruct (Nat.eqb i id); [discriminate Hfresh | exact (IH Hfresh)].
Qed.

Lemma last_resolved (tr : list Action) (pre : list Action) (a : Action) :
  last (tr ++ pre ++ [a])%list = Some a.
Proof. rewrite app_assoc. apply last_snoc. Qed.

(** C5, as stated, fails: the first call ends in remote fallback through
    an initialization error (or through [connect()] resolving to false);
    its promise resolves to true, but the player was dropped, and the
    second call constructs a second player, registers its listeners and
    connects it. *)
Lemma initialize_twice_after_error_counterexample :
  (let s2 := run fresh_engine
               [CallInitialize; SdkEmits 0 (InitializationError "failed")] in
   In (Resolved 0 true) (trace s2) /\ useRemote s2 = true
   /\ (initialize s2).1 = InitPending 1
   /\ connects (trace (initialize s2).2)
      = [SdkCall 0 SdkConnect; SdkCall 1 SdkConnect])
  /\ (let s2 := run fresh_engine [CallInitialize; SdkConnected 0 false] in
      In (Resolved 0 true) (trace s2) /\ useRemote s2 = true
      /\ (initialize s2).1 = InitPending 1
      /\ connects (trace (initialize s2).2)
         = [SdkCall 0 SdkConnect; SdkCall 1 SdkConnect]).
Proof.
  cbv zeta. split_conj; try (vm_compute; reflexivity);
    vm_compute; tauto.
Qed.

(** C5 (amended).  Given a token, an SDK and no player yet, the first call
    of [initialize] performs the handshake and waits for the race.  When
    the race ends with a ready event or with the timeout, the promise
    resolves to true, the player is kept, and a second call returns true
    at once without touching the SDK.  When it ends with an initialization
    or authentication error or with [connect()] resolving to false, the
    promise resolves to true as well, but the player is dropped; a second
    call, given a token, performs the handshake again on a new player. *)
Theorem initialize_twice (s : System) :
  player s = None ->
  sdk_available s ->
  JS.truthy (SpotifyAuth.getValidAccessToken (world s)).1 = true ->
  find_timer (nextTimer s) s = None ->
  let p := length (players s) in
  let s1 := (initialize s).2 in
  (initialize s).1 = InitPending p
  /\ trace s1 = (trace s ++ handshake p)%list
  /\ (forall d,
        let s2 := emit p (Ready d) s1 in
        last (trace s2) = Some (Resolved p true)
        /\ initialize s2 = (InitReturned true, s2))
  /\ (let s2 := fire (nextTimer s) s1 in
      last (trace s2) = Some (Resolved p true)
      /\ useRemote s2 = true
      /\ initialize s2 = (InitReturned true, s2))
  /\ (forall e,
        (exists m, e = InitializationError m \/ e = AuthenticationError m) ->
        let s2 := emit p e s1 in
        last (trace s2) = Some (Resolved p true)
        /\ useRemote s2 = true
        /\ (JS.truthy (SpotifyAuth.getValidAccessToken (world s2)).1 = true ->
            (initialize s2).1 = InitPending (S p)
            /\ trace (initialize s2).2
               = (trace s2 ++ handshake (S p))%list))
  /\ (let s2 := connected p false s1 in
      last (trace s2) = Some (Resolved p true)
      /\ useRemote s2 = true
      /\ (JS.truthy (SpotifyAuth.getValidAccessToken (world s2)).1 = true ->
          (initialize s2).1 = InitPending (S p)
          /\ trace (initialize s2).2
             = (trace s2 ++ handshake (S p))%list)).
Proof.
  intros Hp Hsdk Htok Hfresh p s1.
  destruct (initialize_handshake s Hp Hsdk Htok)
    as (R & Hp1 & Hpls & Htm & Htr & Hsdk1 & _ & _).
  fold p s1 in R, Hp1, Hpls, Htm, Htr, Hsdk1.
  assert (Ha : awaiting p s1).
  { split; [exact Hp1|]. exists (nextTimer s). rewrite Hpls.
    unfold p. rewrite lookup_app_r, Nat.sub_diag by lia. reflexivity. }
  assert (Hlen : length (players s1) = S p).
  { rewrite Hpls, length_app. cbn. unfold p. lia. }
  assert (Hagain : forall s2,
             player s2 = None -> sdk s2 = sdk s1 ->
             length (players s2) = length (players s1) ->
             JS.truthy (SpotifyAuth.getValidAccessToken (world s2)).1 = true ->
             (initialize s2).1 = InitPending (S p)
             /\ trace (initialize s2).2 = (trace s2 ++ handshake (S p))%list).
  { intros s2 H1 H2 H3 H4.
    destruct (initialize_handshake s2 H1) as (R2 & _ & _ & _ & Htr2 & _);
      [left; congruence | exact H4 |].
    rewrite H3, Hlen in R2, Htr2. split; assumption. }
  split; [exact R|]. split; [exact Htr|]. split; [|split; [|split]].
  - intros d s2. destruct (race_ready p s1 d Ha) as (A & _ & _ & D).
    fold s2 in A, D. split.
    + rewrite D. apply (last_resolved _ [_; _; _]).
    + apply initialize_noop. rewrite A. eauto.
  - intros s2.
    destruct (race_timeout p (nextTimer s) s1 Ha) as (A & B & C).
    { eapply find_timer_installed; eassumption. }
    fold s2 in A, B, C. split; [|split].
    + rewrite C. apply (last_resolved _ []).
    + exact B.
    + apply initialize_noop. rewrite A. eauto.
  - intros e He s2.
    destruct (race_error p s1 e Ha He) as (A & B & C & D & E).
    fold s2 in A, B, C, D, E. split; [|split].
    + rewrite E. apply (last_resolved _ [_; _; _; _]).
    + exact B.
    + apply Hagain; assumption.
  - intros s2.
    destruct (race_connect_failed p s1 Ha) as (A & B & C & D & E).
    fold s2 in A, B, C, D, E. split; [|split].
    + rewrite E. apply (last_resolved _ [_]).
    + exact B.
    + apply Hagain; assumption.
Qed.

Lemma initialize_twice_witness :
  (initialize fresh_engine).1 = InitPending 0
  /\ (let s2 := fire 1 (initialize fresh_engine).2 in
      last (trace s2) = Some (Resolved 0%nat true)
      /\ useRemote s2 = true
      /\ initialize s2 = (InitReturned true, s2))
  /\ (let s2 := emit 0 (Ready "device-1") (initialize fresh_engine).2 in
      last (trace s2) = Some (Resolved 0%nat true)
      /\ initialize s2 = (InitReturned true, s2)).
Proof.
  destruct (initialize_twice fresh_engine) as (A & _ & B & C & _);
    [reflexivity | left; reflexivity | vm_compute; reflexivity
    | vm_compute; reflexivity |].
  split; [exact A|]. split; [exact C | exact (B "device-1")].
Defined.

End InitializeTwice.
(** ** Verifier and challenge of the PKCE flow *)

Section Pkce.
Import SpotifyAuth.

(** Test vectors of RFC 4648 and of RFC 7636 (appendix B, the octets of
    the SHA-256 digest and the challenge they give). *)
Example btoa_rfc4648 :
  JS.btoa "f" = "Zg==" /\ JS.btoa "fo" = "Zm8=" /\ JS.btoa "foo" = "Zm9v"
  /\ JS.btoa "foobar" = "Zm9vYmFy".
Proof. by_evaluation. Qed.

Example base64encode_rfc7636 :
  base64encode
    (string_of_list_ascii
       (map ascii_of_nat
          [19; 211; 30; 150; 26; 26; 216; 236; 47; 22; 177; 12; 76; 152;
           46; 8; 118; 168; 120; 173; 109; 241; 68; 86; 110; 225; 137; 74;
           203; 112; 249; 195]%nat))
  = "E9Melhoa2OwvFrEMTJguCHaoeK1t8URWbuGJSstw-cM".
Proof. vm_compute. reflexivity. Qed.

Example encodeURIComponent_reserved :
  JS.encodeURIComponent "lo-fi beats & rain=1/2?#"
  = "lo-fi%20beats%20%26%20rain%3D1%2F2%3F%23".
Proof. vm_compute. reflexivity. Qed.

Lemma chars_app (a b : string) : chars (a ++ b) = (chars a ++ chars b)%list.
Proof.
  induction a as [|c a IH]; [reflexivity|].
  change (chars (String c (a ++ b)) = (c :: chars a ++ chars b)%list).
  unfold chars in *. cbn [list_ascii_of_string]. f_equal. exact IH.
Qed.

Lemma length_chars (s : string) : length (chars s) = String.length s.
Proof. induction s as [|c s IH]; cbn; [reflexivity | f_equal; exact IH]. Qed.

Lemma string_length_app (a b : string) :
  String.length (a ++ b) = (String.length a + String.length b)%nat.
Proof. rewrite <- !length_chars, chars_app. apply length_app. Qed.

(** Every index below 62 selects a letter or a digit of [possible]. *)
Lemma possible_get (n : nat) :
  (n < 62)%nat ->
  exists c, String.get n possible = Some c /\ JS.is_alnum c = true.
Proof.
  intros H.
  do 62 (destruct n as [|n]; [eexists; split; reflexivity|]).
  lia.
Qed.

Lemma generateRandomString_acc (values : list nat) (acc : string) :
  let f := fun (acc : string) (x : nat) =>
    acc ++ match String.get (Nat.modulo x (String.length possible))
                   possible with
           | Some c => String c EmptyString
           | None => "undefined"
           end in
  Forall (fun c => JS.is_alnum c = true) (chars acc) ->
  String.length (fold_left f values acc)
  = (String.length acc + length values)%nat
  /\ Forall (fun c => JS.is_alnum c = true) (chars (fold_left f values acc)).
Proof.
  cbv zeta. revert acc.
  induction values as [|x values IH]; intros acc Hacc; cbn [fold_left].
  - split; [cbn [length]; lia | exact Hacc].
  - destruct (possible_get (Nat.modulo x (String.length possible)))
      as (c & -> & Hc).
    { change (String.length possible) with 62%nat.
      apply Nat.mod_upper_bound. lia. }
    destruct (IH (acc ++ String c EmptyString)) as [Hl Hf].
    { rewrite chars_app. apply Forall_app. split; [exact Hacc|].
      apply Forall_cons. split; [exact Hc | apply Forall_nil; exact I]. }
    split; [| exact Hf].
    rewrite Hl, string_length_app. cbn [String.length length]. lia.
Qed.

(** X1: [generateRandomString]: the verifier has as many characters as
    random bytes were drawn, and each of them is a letter or a digit,
    whatever the bytes are. *)
Theorem generateRandomString_alphabet (values : list nat) :
  String.length (generateRandomString values) = length values
  /\ Forall (fun c => JS.is_alnum c = true)
       (chars (generateRandomString values)).
Proof.
  unfold generateRandomString.
  apply (generateRandomString_acc values EmptyString).
  apply Forall_nil. exact I.
Qed.

(** Induction on a string, three characters at a time. *)
Lemma string_ind3 (P : string -> Prop) :
  P EmptyString ->
  (forall a, P (String a EmptyString)) ->
  (forall a b, P (String a (String b EmptyString))) ->
  (forall a b c rest, P rest -> P (String a (String b (String c rest)))) ->
  forall s, P s.
Proof.
  intros H0 H1 H2 H3.
  fix IH 1. intros [|a [|b [|c rest]]];
    [exact H0 | apply H1 | apply H2 | apply H3, IH].
Qed.

Lemma string_app_assoc (a b c : string) : (a ++ b) ++ c = a ++ (b ++ c).
Proof.
  induction a as [|x a IH]; [reflexivity|].
  change (String x ((a ++ b) ++ c) = String x (a ++ (b ++ c))).
  f_equal. exact IH.
Qed.

Lemma replace_all_app (c : ascii) (by_ a b : string) :
  JS.replace_all c by_ (a ++ b)
  = JS.replace_all c by_ a ++ JS.replace_all c by_ b.
Proof.
  induction a as [|x a IH]; [reflexivity|].
  change (String x a ++ b) with (String x (a ++ b)).
  cbn [JS.replace_all]. rewrite IH.
  destruct (Ascii.eqb x c); [| reflexivity].
  symmetry. apply string_app_assoc.
Qed.

Lemma base64encode_app (a b : string) :
  JS.replace_all "/" "_"
    (JS.replace_all "+" "-" (JS.replace_all "=" EmptyString (a ++ b)))
  = JS.replace_all "/" "_"
      (JS.replace_all "+" "-" (JS.replace_all "=" EmptyString a))
    ++ JS.replace_all "/" "_"
         (JS.replace_all "+" "-" (JS.replace_all "=" EmptyString b)).
Proof. rewrite !replace_all_app. reflexivity. Qed.

(** One character of [btoa], after the three replacements. *)
Lemma b64_char_urlsafe (n : nat) :
  (n < 64)%nat ->
  exists c,
    JS.replace_all "/" "_"
      (JS.replace_all "+" "-"
         (JS.replace_all "=" EmptyString (JS.b64_char n)))
    = String c EmptyString
    /\ is_urlsafe c = true.
Proof.
  intros H.
  do 64 (destruct n as [|n]; [eexists; split; reflexivity|]).
  lia.
Qed.

Lemma nat_of_ascii_bound (c : ascii) : (nat_of_ascii c < 256)%nat.
Proof. destruct c as [[] [] [] [] [] [] [] []]; vm_compute; lia. Qed.

(** The pieces of a byte that index the alphabet. *)
Lemma byte_pieces (c : ascii) :
  let x := nat_of_ascii c in
  (Nat.div x 4 < 64 /\ Nat.modulo x 4 < 4 /\ Nat.div x 16 < 16
   /\ Nat.modulo x 16 < 16 /\ Nat.div x 64 < 4 /\ Nat.modulo x 64 < 64)%nat.
Proof.
  cbv zeta. pose proof (nat_of_ascii_bound c) as H.
  repeat split;
    try (apply Nat.mod_upper_bound; lia);
    apply Nat.Div0.div_lt_upper_bound; lia.
Qed.

Ltac b64_group :=
  repeat match goal with
  | |- context [JS.replace_all "/" "_"
                  (JS.replace_all "+" "-"
                     (JS.replace_all "=" EmptyString (JS.b64_char ?n)))] =>
      let c := fresh "c" in
      let E := fresh "E" in
      let U := fresh "U" in
      let B := fresh "B" in
      assert (B : (n < 64)%nat) by lia;
      destruct (b64_char_urlsafe n B) as (c & E & U);
      rewrite E; clear E B
  end.

Lemma base64encode_shape (input : string) :
  Forall (fun c => is_urlsafe c = true) (chars (base64encode input))
  /\ String.length (base64encode input)
     = Nat.div (4 * String.length input + 2) 3.
Proof.
  unfold base64encode.
  induction input as [|a|a b|a b c rest [IHf IHl]] using string_ind3.
  - split; [apply Forall_nil; exact I | reflexivity].
  - pose proof (byte_pieces a).
    cbn [JS.btoa]. cbv zeta in *. rewrite !base64encode_app. b64_group.
    split; [repeat (apply Forall_cons; split; [assumption|]);
            apply Forall_nil; exact I | reflexivity].
  - pose proof (byte_pieces a). pose proof (byte_pieces b).
    cbn [JS.btoa]. cbv zeta in *. rewrite !base64encode_app. b64_group.
    split; [repeat (apply Forall_cons; split; [assumption|]);
            apply Forall_nil; exact I | reflexivity].
  - pose proof (byte_pieces a). pose proof (byte_pieces b).
    pose proof (byte_pieces c).
    cbn [JS.btoa]. cbv zeta in *. rewrite !base64encode_app. b64_group.
    split.
    + cbn [String.append]. unfold chars in *.
      cbn [list_ascii_of_string].
      repeat (apply Forall_cons; split; [assumption|]). exact IHf.
    + rewrite !string_length_app, IHl. cbn [String.length].
      replace (4 * S (S (S (String.length rest))) + 2)%nat
        with ((4 * String.length rest + 2) + 4 * 3)%nat by lia.
      rewrite Nat.div_add by lia. lia.
Qed.

(** X2: [base64encode]: the output consists of letters, digits, [-] and
    [_] only (no padding, no [+], no [/]), and [n] bytes give
    [ceil(4n/3)] characters. *)
Theorem base64encode_urlsafe (input : string) :
  Forall (fun c => is_urlsafe c = true) (chars (base64encode input))
  /\ String.length (base64encode input)
     = Nat.div (4 * String.length input + 2) 3.
Proof. exact (base64encode_shape input). Qed.

(** X3: [generateCodeChallenge]: for a digest of 32 bytes (SHA-256) the
    challenge has 43 characters, all of the base64url alphabet, as RFC 7636
    asks of an S256 challenge. *)
Theorem generateCodeChallenge_shape (sha256 : string -> string)
  (verifier : string) :
  String.length (sha256 verifier) = 32%nat ->
  String.length (generateCodeChallenge sha256 verifier) = 43%nat
  /\ Forall (fun c => is_urlsafe c = true)
       (chars (generateCodeChallenge sha256 verifier)).
Proof.
  intros H. unfold generateCodeChallenge.
  destruct (base64encode_shape (sha256 verifier)) as [Hf Hl].
  split; [rewrite Hl, H; reflexivity | exact Hf].
Qed.

Lemma generateCodeChallenge_shape_witness :
  String.length
    (generateCodeChallenge (fun _ => "0123456789abcdef0123456789abcdef")
       "verifier") = 43%nat
  /\ Forall (fun c => is_urlsafe c = true)
       (chars
          (generateCodeChallenge
             (fun _ => "0123456789abcdef0123456789abcdef") "verifier")).
Proof.
  apply (generateCodeChallenge_shape
           (fun _ => "0123456789abcdef0123456789abcdef") "verifier").
  reflexivity.
Defined.

(** Characters that are not unreserved are not in the output of
    [encodeURIComponent], the percent sign apart. *)
Lemma hex_upper_escaped (n : nat) :
  (n < 16)%nat ->
  exists c, JS.hex_upper n = String c EmptyString /\ is_escaped c = true.
Proof.
  intros H.
  do 16 (destruct n as [|n]; [eexists; split; reflexivity|]).
  lia.
Qed.

Lemma percent_escaped (byte : nat) :
  (byte < 256)%nat ->
  Forall (fun c => is_escaped c = true) (chars (JS.percent byte)).
Proof.
  intros H. unfold JS.percent.
  destruct (hex_upper_escaped (Nat.div byte 16)) as (c1 & -> & H1);
    [apply Nat.Div0.div_lt_upper_bound; lia|].
  destruct (hex_upper_escaped (Nat.modulo byte 16)) as (c2 & -> & H2);
    [apply Nat.mod_upper_bound; lia|].
  repeat (apply Forall_cons; split; [assumption || reflexivity|]).
  apply Forall_nil; exact I.
Qed.

Lemma encode_unit_escaped (c : ascii) :
  Forall (fun c => is_escaped c = true) (chars (JS.encode_unit c)).
Proof.
  unfold JS.encode_unit. cbv zeta.
  pose proof (nat_of_ascii_bound c) as Hc.
  destruct (JS.is_unreserved c) eqn:Eu.
  - apply Forall_cons. split; [| apply Forall_nil; exact I].
    unfold is_escaped. rewrite Eu. reflexivity.
  - destruct (Nat.ltb _ 128).
    + apply percent_escaped. lia.
    + rewrite chars_app. apply Forall_app. split; apply percent_escaped.
      * pose proof (Nat.Div0.div_lt_upper_bound (nat_of_ascii c) 64 4).
        lia.
      * pose proof (Nat.mod_upper_bound (nat_of_ascii c) 64). lia.
Qed.

Lemma encodeURIComponent_escaped (s : string) :
  Forall (fun c => is_escaped c = true) (chars (JS.encodeURIComponent s)).
Proof.
  induction s as [|c s IH]; [apply Forall_nil; exact I|].
  cbn [JS.encodeURIComponent]. rewrite chars_app. apply Forall_app.
  split; [apply encode_unit_escaped | exact IH].
Qed.

(** A string that has none of its characters equal to [d] does not
    include the one-character string [d]. *)
Lemma includes_char (s : string) (d : ascii) :
  Forall (fun c => c <> d) (chars s) ->
  JS.includes s (String d EmptyString) = false.
Proof.
  induction s as [|c s IH]; intros H; [reflexivity|].
  unfold chars in H. cbn [list_ascii_of_string] in H.
  apply Forall_cons in H as [Hc Hs].
  cbn [JS.includes String.prefix].
  destruct (ascii_dec d c) as [->|_]; [congruence|].
  cbn [orb]. apply IH, Hs.
Qed.

(** X4: [search]: the text the user typed reaches the endpoint as the
    value of [q] only.  Its encoding consists of unreserved characters and
    percent escapes, so it contains none of the delimiters of a query
    string, and the endpoint is the fixed frame around it. *)
Theorem search_endpoint_query_is_escaped (query : string)
  (type : SpotifyAPI.SearchType) (limit : Z) :
  let q := JS.encodeURIComponent query in
  SpotifyAPI.search_endpoint query type limit
  = "/search?q=" ++ q ++ "&type=" ++ SpotifyAPI.search_type_name type
    ++ "&limit=" ++ JS.number_to_string limit
  /\ Forall (fun c => is_escaped c = true) (chars q)
  /\ JS.includes q "&" = false
  /\ JS.includes q "=" = false
  /\ JS.includes q "#" = false
  /\ JS.includes q "?" = false
  /\ JS.includes q "/" = false
  /\ JS.includes q "+" = false
  /\ JS.includes q " " = false.
Proof.
  cbv zeta. pose proof (encodeURIComponent_escaped query) as H.
  split; [reflexivity|]. split; [exact H|].
  split_conj; apply includes_char;
    (eapply Forall_impl; [exact H|]);
    intros c Hc ->; discriminate Hc.
Qed.

End Pkce.

(** ** The token store, further properties *)

Section TokenLifeCycle.
Import SpotifyAuth.



Lemma getAccessToken_logout (w : World) : getAccessToken (logout w) = None.
Proof.
  unfold getAccessToken.
  destruct (logout_fields w) as (-> & _ & -> & _). reflexivity.
Qed.

Lemma getValidAccessToken_logout (w : World) :
  getValidAccessToken (logout w) = (None, logout w).
Proof.
  unfold getValidAccessToken. rewrite getAccessToken_logout.
  cbn [JS.truthy negb]. unfold refreshAccessToken.
  destruct (logout_fields w) as (_ & -> & _). reflexivity.
Qed.

(** X6: After [logout], whatever was stored before: no token is handed
    out, the user counts as signed out, and neither [getValidAccessToken]
    nor [refreshAccessToken] nor the fetch primitive sends any request
    (the latter throws). *)
Theorem logout_signs_out (w : World) (endpoint : string) :
  let w' := logout w in
  getAccessToken w' = None
  /\ isAuthenticated w' = false
  /\ getValidAccessToken w' = (None, w')
  /\ refreshAccessToken w' = (None, w')
  /\ SpotifyAPI.fetch endpoint w'
     = (SpotifyAPI.Threw SpotifyAPI.NoValidAccessToken, w').
Proof.
  cbv zeta. split_conj.
  - apply getAccessToken_logout.
  - unfold isAuthenticated. rewrite getAccessToken_logout. reflexivity.
  - apply getValidAccessToken_logout.
  - unfold refreshAccessToken.
    destruct (logout_fields w) as (_ & -> & _). reflexivity.
  - unfold SpotifyAPI.fetch. cbn [SpotifyAPI.fetch_fuel].
    rewrite getValidAccessToken_logout. reflexivity.
Qed.



End TokenLifeCycle.

Section CallbackOnce.
Import SpotifyAuth.

Lemma handleCallback_true_inv (w : World) :
  (handleCallback w).1 = true ->
  exists code verifier status txt data rest,
    url_get "code" (query w) = Some code
    /\ getItem CODE_VERIFIER_KEY w = Some verifier
    /\ tokenNet w = Response status txt (Some data) :: rest
    /\ ok status = true
    /\ (handleCallback w).2
       = set_query []
           (removeItem CODE_VERIFIER_KEY
              (storeTokens (access_token data)
                 (JS.to_string_opt (refresh_token data)) (expires_in data)
                 (fetch_token
                    (AuthorizationCode code REDIRECT_URI CLIENT_ID verifier)
                    w).2)).
Proof.
  unfold handleCallback.
  destruct (JS.truthy (url_get "error" (query w))); [discriminate|].
  destruct (url_get "code" (query w)) as [[|cc cr]|]; try discriminate.
  destruct (getItem CODE_VERIFIER_KEY w) as [[|vc vr]|]; try discriminate.
  unfold fetch_token.
  destruct (tokenNet w) as [|[|status txt [data|]] rest]; cbn [fst snd];
    try discriminate;
    destruct (ok status) eqn:Eok; cbn [negb fst snd]; try discriminate.
  intros _. exists (String cc cr), (String vc vr), status, txt, data, rest.
  split_conj; reflexivity || exact Eok.
Qed.

(** X8: A callback is consumed once.  When [handleCallback] returns true
    it has sent exactly one request to the token endpoint and cleared the
    query string, so a second call on the same page returns false, sends
    nothing and leaves the stored tokens alone. *)
Theorem handleCallback_once (w : World) :
  (handleCallback w).1 = true ->
  let w' := (handleCallback w).2 in
  length (tokenSent w') = S (length (tokenSent w))
  /\ query w' = []
  /\ handleCallback w' = (false, w').
Proof.
  intros H. cbv zeta.
  destruct (handleCallback_true_inv w H)
    as (code & verifier & status & txt & data & rest & _ & _ & _ & _ & ->).
  split_conj.
  - cbn. rewrite length_app. cbn [length]. lia.
  - reflexivity.
  - reflexivity.
Qed.

Lemma handleCallback_once_witness :
  let w' := (handleCallback world_callback_code).2 in
  length (tokenSent w') = 1%nat
  /\ query w' = []
  /\ handleCallback w' = (false, w').
Proof.
  apply (handleCallback_once world_callback_code). reflexivity.
Defined.



(** X10: The verifier that [login] stores is the one the exchange sends:
    with an authorization code in the URL and no error parameter,
    [handleCallback] after [login] posts the code, the redirect URI, the
    client id and that verifier, for every verifier [generateRandomString]
    can produce from at least one random byte. *)
Theorem login_then_handleCallback (w : World) (values : list nat)
  (cc : ascii) (cr : string) :
  values <> [] ->
  JS.truthy (url_get "error" (query w)) = false ->
  url_get "code" (query w) = Some (String cc cr) ->
  let verifier := generateRandomString values in
  tokenSent (handleCallback (login verifier w)).2
  = (tokenSent w
     ++ [AuthorizationCode (String cc cr) REDIRECT_URI CLIENT_ID
           verifier])%list.
Proof.
  intros Hv He Hc. cbv zeta.
  assert (Hne : exists vc vr, generateRandomString values = String vc vr).
  { destruct (generateRandomString_acc values EmptyString) as [Hl _];
      [apply Forall_nil; exact I|].
    fold (generateRandomString values) in Hl.
    destruct (generateRandomString values) as [|vc vr]; [| eauto].
    destruct values; [congruence | discriminate Hl]. }
  destruct Hne as (vc & vr & ->).
  assert (Hg : getItem CODE_VERIFIER_KEY (login (String vc vr) w)
               = Some (String vc vr)).
  { unfold login. rewrite getItem_setItem. destruct (decide _); congruence. }
  assert (Hq : query (login (String vc vr) w) = query w) by reflexivity.
  assert (Hn : tokenNet (login (String vc vr) w) = tokenNet w)
    by reflexivity.
  assert (Hs : tokenSent (login (String vc vr) w) = tokenSent w)
    by reflexivity.
  revert Hg Hq Hn Hs. generalize (login (String vc vr) w) as w1.
  intros w1 Hg Hq Hn Hs.
  unfold handleCallback. rewrite Hq, He, Hc, Hg.
  unfold fetch_token. rewrite Hn, Hs.
  destruct (tokenNet w) as [|[|status txt [data|]] rest]; cbn [fst snd];
    try reflexivity;
    destruct (negb (ok status)); reflexivity.
Qed.

Lemma login_then_handleCallback_witness :
  tokenSent
    (handleCallback
       (login (generateRandomString [0; 27; 61; 62; 255]%nat)
          (world_of [] 100 [("code", "AQD-code")] [] []))).2
  = [AuthorizationCode "AQD-code" REDIRECT_URI CLIENT_ID "Ab9AH"].
Proof.
  apply (login_then_handleCallback
           (world_of [] 100 [("code", "AQD-code")] [] [])
           [0; 27; 61; 62; 255]%nat "A" "QD-code").
  - discriminate.
  - reflexivity.
  - reflexivity.
Defined.

End CallbackOnce.

(** ** The fetch primitive, further properties *)

Section FetchRequests.
Import SpotifyAuth SpotifyAPI.

(** X11: With a valid token stored, a reply that is not a 401 ends the
    call at once: a rejected request, an unreadable body and every error
    status other than 401 are thrown, a readable 2xx body is returned.  One
    request was sent, with the stored token; the token endpoint was not
    contacted and the stored tokens are what they were. *)
Theorem fetch_without_retry (endpoint : string) (w : World) (tc : ascii)
  (tr : string) (reply : Reply ApiBody) (rest : list (Reply ApiBody)) :
  getAccessToken w = Some (String tc tr) ->
  apiNet w = reply :: rest ->
  (forall txt body, reply <> Response 401 txt body) ->
  let w' := (fetch endpoint w).2 in
  (fetch endpoint w).1
  = match reply with
    | NetworkError => Threw FetchRejected
    | Response status txt body =>
        if ok status then
          match body with
          | Some b => Returned b
          | None => Threw JsonRejected
          end
        else Threw (ApiError status txt)
    end
  /\ apiSent w' = (apiSent w ++ [request (String tc tr) endpoint])%list
  /\ apiNet w' = rest
  /\ tokenSent w' = tokenSent w
  /\ storage w' = storage w.
Proof.
  intros Htok Hnet H401. cbv zeta. unfold fetch.
  cbn [fetch_fuel]. unfold getValidAccessToken. rewrite Htok.
  cbn [JS.truthy negb]. unfold fetch_api. rewrite Hnet.
  destruct reply as [|status txt body]; [split_conj; reflexivity|].
  destruct (ok status) eqn:Eok; cbn [negb].
  - destruct body; split_conj; reflexivity.
  - destruct (status =? 401) eqn:E401; [| split_conj; reflexivity].
    apply Z.eqb_eq in E401. subst status. destruct (H401 txt body eq_refl).
Qed.

Lemma fetch_without_retry_witness :
  let w :=
    world_of signed_in 1000 []
      [] [Response 429 "Too Many Requests" None] in
  (fetch "/me" w).1 = Threw (ApiError 429 "Too Many Requests")
  /\ apiSent (fetch "/me" w).2 = [request "tok" "/me"]
  /\ apiNet (fetch "/me" w).2 = []
  /\ tokenSent (fetch "/me" w).2 = []
  /\ storage (fetch "/me" w).2 = storage w.
Proof.
  apply (fetch_without_retry "/me"
           (world_of signed_in 1000 [] []
              [Response 429 "Too Many Requests" None])
           "t" "ok" (Response 429 "Too Many Requests" None) []).
  - reflexivity.
  - reflexivity.
  - intros txt body. discriminate.
Defined.

(** The token endpoint is contacted at most once by a refresh, and exactly
    once by a refresh that yields a token. *)
Lemma refreshAccessToken_tokenSent (w : World) :
  (length (tokenSent w) <= length (tokenSent (refreshAccessToken w).2))%nat
  /\ (JS.truthy (refreshAccessToken w).1 = true ->
      length (tokenSent (refreshAccessToken w).2)
      = S (length (tokenSent w))).
Proof.
  unfold refreshAccessToken.
  destruct (getItem REFRESH_TOKEN_KEY w) as [[|c r]|];
    [cbn; split; [lia | discriminate] | | cbn; split; [lia | discriminate]].
  unfold fetch_token.
  destruct (tokenNet w) as [|[|status txt [d|]] rest];
    try destruct (negb (ok status));
    cbn [fst snd logout storeTokens removeItem setItem set_storage
         tokenSent];
    rewrite length_app; cbn [length]; split; intros; lia.
Qed.

Lemma getValidAccessToken_tokenSent (w : World) :
  (length (tokenSent w)
   <= length (tokenSent (getValidAccessToken w).2))%nat.
Proof.
  unfold getValidAccessToken.
  destruct (negb _); [apply refreshAccessToken_tokenSent | cbn; lia].
Qed.

(** What one request of the primitive looks like. *)
Lemma fetch_fuel_requests (fuel : nat) (endpoint : string) (w : World) :
  exists sent,
    apiSent (fetch_fuel fuel endpoint w).2 = (apiSent w ++ sent)%list
    /\ Forall (fun r => exists c token,
                 r = request (String c token) endpoint) sent
    /\ (length sent + length (tokenSent w)
        <= S (length (tokenSent (fetch_fuel fuel endpoint w).2)))%nat.
Proof.
  revert w. induction fuel as [|fuel IH]; intros w; cbn [fetch_fuel].
  - exists []. rewrite app_nil_r. split_conj;
      [reflexivity | apply Forall_nil; exact I | cbn; lia].
  - pose proof (getValidAccessToken_apiSent w) as Hs.
    pose proof (getValidAccessToken_tokenSent w) as Hl.
    destruct (getValidAccessToken w) as [token w1]. cbn [snd] in Hs, Hl.
    destruct token as [[|tc tr]|];
      try (exists []; rewrite app_nil_r; cbn [snd]; split_conj;
           [exact Hs | apply Forall_nil; exact I | cbn [length]; lia]).
    unfold fetch_api.
    set (w2 := {| storage := storage w1; now := now w1; query := query w1;
                  tokenNet := tokenNet w1; apiNet := tail (apiNet w1);
                  tokenSent := tokenSent w1;
                  apiSent := apiSent w1 ++ [request (String tc tr) endpoint]
               |}).
    assert (Hone : exists sent,
              apiSent w2 = (apiSent w ++ sent)%list
              /\ Forall (fun r => exists c token,
                           r = request (String c token) endpoint) sent
              /\ (length sent + length (tokenSent w)
                  <= S (length (tokenSent w2)))%nat).
    { exists [request (String tc tr) endpoint]. split_conj.
      - cbn [w2 apiSent]. rewrite Hs. reflexivity.
      - apply Forall_cons. split; [eauto | apply Forall_nil; exact I].
      - cbn [w2 tokenSent length]. lia. }
    destruct (match apiNet w1 with [] => NetworkError | x :: _ => x end)
      as [|status txt body]; [exact Hone|].
    destruct (negb (ok status)); [| destruct body; exact Hone].
    destruct (status =? 401); [| exact Hone].
    pose proof (refreshAccessToken_apiSent w2) as Hr.
    destruct (refreshAccessToken_tokenSent w2) as [Hr1 Hr2].
    destruct (refreshAccessToken w2) as [newToken w3].
    cbn [fst snd] in Hr, Hr1, Hr2.
    destruct (JS.truthy newToken).
    + destruct (IH w3) as (sent & E & Hf & Hlen).
      exists (request (String tc tr) endpoint :: sent). split_conj.
      * rewrite E, Hr. cbn [w2 apiSent]. rewrite Hs, <- app_assoc.
        reflexivity.
      * apply Forall_cons. split; [eauto | exact Hf].
      * specialize (Hr2 eq_refl). cbn [w2 tokenSent] in Hr2.
        cbn [length]. lia.
    + exists [request (String tc tr) endpoint]. cbn [snd]. split_conj.
      * rewrite Hr. cbn [w2 apiSent]. rewrite Hs. reflexivity.
      * apply Forall_cons. split; [eauto | apply Forall_nil; exact I].
      * cbn [w2 tokenSent] in Hr1. cbn [length]. lia.
Qed.

(** X12: Every request the fetch primitive sends, retries included, is
    a GET of the base URL followed by the endpoint, with a non-empty bearer
    token and no body; and every request after the first follows a contact
    with the token endpoint, so there is at most one request more than
    there were token requests. *)
Theorem fetch_requests (endpoint : string) (w : World) :
  let w' := (fetch endpoint w).2 in
  exists sent,
    apiSent w' = (apiSent w ++ sent)%list
    /\ Forall (fun r => req_method r = "GET"
                        /\ req_url r = "https://api.spotify.com/v1" ++ endpoint
                        /\ req_bearer r <> EmptyString
                        /\ req_body r = None) sent
    /\ (length sent + length (tokenSent w)
        <= S (length (tokenSent w')))%nat.
Proof.
  cbv zeta. unfold fetch.
  destruct (fetch_fuel_requests (S (length (apiNet w))) endpoint w)
    as (sent & E & Hf & Hlen).
  exists sent. split_conj; [exact E | | exact Hlen].
  eapply Forall_impl; [exact Hf|].
  intros r (c & token & ->). split_conj; [reflexivity.. | discriminate | ].
  reflexivity.
Qed.

(** X13: A 401 whose refresh fails signs the user out.  With a valid
    token and a refresh token stored, a 401 reply followed by a refresh
    that yields no token makes the call throw the error of the 401 after
    that one request, and leaves neither an access token nor a refresh
    token in storage. *)
Theorem fetch_401_failed_refresh_signs_out (endpoint : string) (w : World)
  (tc rc : ascii) (tr rr txt : string) (body : option ApiBody)
  (restA : list (Reply ApiBody)) :
  getAccessToken w = Some (String tc tr) ->
  getItem REFRESH_TOKEN_KEY w = Some (String rc rr) ->
  apiNet w = Response 401 txt body :: restA ->
  match tokenNet w with
  | Response status _ (Some _) :: _ => ok status = false
  | _ => True
  end ->
  let w' := (fetch endpoint w).2 in
  (fetch endpoint w).1 = Threw (ApiError 401 txt)
  /\ apiSent w' = (apiSent w ++ [request (String tc tr) endpoint])%list
  /\ tokenSent w' = (tokenSent w ++ [RefreshToken (String rc rr) CLIENT_ID])%list
  /\ getItem ACCESS_TOKEN_KEY w' = None
  /\ getItem REFRESH_TOKEN_KEY w' = None
  /\ isAuthenticated w' = false.
Proof.
  intros Htok Href Hnet Hfail. cbv zeta. unfold fetch.
  cbn [fetch_fuel]. unfold getValidAccessToken. rewrite Htok.
  cbn [JS.truthy negb]. unfold fetch_api. rewrite Hnet.
  change (negb (ok 401)) with true. change (401 =? 401) with true.
  cbv iota beta.
  match goal with
  | |- context [refreshAccessToken ?w0] => set (w2 := w0)
  end.
  assert (Hr : refreshAccessToken w2
               = (None,
                  logout (fetch_token (RefreshToken (String rc rr) CLIENT_ID)
                            w2).2)).
  { unfold refreshAccessToken.
    change (getItem REFRESH_TOKEN_KEY w2)
      with (getItem REFRESH_TOKEN_KEY w).
    rewrite Href. unfold fetch_token.
    change (tokenNet w2) with (tokenNet w).
    destruct (tokenNet w) as [|[|status txt' [d|]] rest]; cbn [fst snd];
      try reflexivity.
    - rewrite Hfail. reflexivity.
    - destruct (negb (ok status)); reflexivity. }
  rewrite Hr. cbn [JS.truthy fst snd].
  match goal with
  | |- context [logout ?w0] =>
      destruct (logout_fields w0) as (L1 & L2 & L3 & _)
  end.
  split_conj; try reflexivity; try assumption.
  unfold isAuthenticated, getAccessToken. rewrite L1. reflexivity.
Qed.

Lemma fetch_401_failed_refresh_signs_out_witness :
  let w :=
    world_of signed_in 1000 [] [Response 400 "Bad Request" None]
      [Response 401 "Unauthorized" None] in
  (fetch "/me" w).1 = Threw (ApiError 401 "Unauthorized")
  /\ apiSent (fetch "/me" w).2 = [request "tok" "/me"]
  /\ tokenSent (fetch "/me" w).2 = [RefreshToken "ref" CLIENT_ID]
  /\ getItem ACCESS_TOKEN_KEY (fetch "/me" w).2 = None
  /\ getItem REFRESH_TOKEN_KEY (fetch "/me" w).2 = None
  /\ isAuthenticated (fetch "/me" w).2 = false.
Proof.
  apply (fetch_401_failed_refresh_signs_out "/me"
           (world_of signed_in 1000 [] [Response 400 "Bad Request" None]
              [Response 401 "Unauthorized" None])
           "t" "r" "ok" "ef" "Unauthorized" None []).
  - reflexivity.
  - reflexivity.
  - reflexivity.
  - exact I.
Defined.

End FetchRequests.

(** ** The playback engine, further properties *)

Section LocalAndRemoteControl.

(** X14: In local mode the seven transport methods other than [play]
    call the method of the vendor player and nothing else: no request is
    sent and no timer is installed.  Without a player they do nothing at
    all, and they complete normally in both cases. *)
Theorem local_mode_dispatch (s : System) (e : Event) (m : SdkMethod) :
  useRemote s = false ->
  local_method e = Some m ->
  completion e s = Some Done
  /\ step s e = match player s with
                | Some p => log [SdkCall p m] s
                | None => s
                end.
Proof.
  intros H Hm.
  destruct e; try discriminate Hm; cbn [local_method] in Hm;
    injection Hm as <-; cbn [step completion];
    unfold pause, resume, togglePlay, nextTrack, previousTrack, seek,
      setVolume, local_call, sdk_call;
    rewrite H; destruct (player s); split; reflexivity.
Qed.

Lemma local_mode_dispatch_witness :
  let s := set_player (Some 0%nat) fresh_engine in
  completion (CallSeek 30000) s = Some Done
  /\ step s (CallSeek 30000) = log [SdkCall 0 (SdkSeek 30000)] s.
Proof.
  apply (local_mode_dispatch (set_player (Some 0%nat) fresh_engine)
           (CallSeek 30000) (SdkSeek 30000)); reflexivity.
Defined.

Lemma remoteControl_no_token (method endpoint : string) (s : System) :
  no_token (world s) ->
  remoteControl method endpoint s
  = (Done, set_world (SpotifyAuth.getValidAccessToken (world s)).2 s).
Proof.
  unfold no_token, remoteControl. intros H.
  destruct (SpotifyAuth.getValidAccessToken (world s)) as [[[|c r]|] w1];
    try discriminate H; reflexivity.
Qed.

Lemma remote_put_no_token (url : string) (s : System) :
  no_token (world s) ->
  remote_put url s
  = (Done, set_world (SpotifyAuth.getValidAccessToken (world s)).2 s).
Proof.
  unfold no_token, remote_put. intros H.
  destruct (SpotifyAuth.getValidAccessToken (world s)) as [[[|c r]|] w1];
    try discriminate H; reflexivity.
Qed.

(** X15: In remote mode, when no token can be obtained, [pause],
    [resume], [nextTrack], [previousTrack], [seek] and [setVolume] return
    normally without having sent a request or installed a timer, while
    [play] throws; in every case the state differs from the one before by
    what the attempt to obtain a token did to the world. *)
Theorem remote_without_token (s : System) (e : Event) :
  useRemote s = true ->
  no_token (world s) ->
  match e with
  | CallPause | CallResume | CallNextTrack | CallPreviousTrack
  | CallSeek _ | CallSetVolume _ => completion e s = Some Done
  | CallPlay _ => completion e s = Some (Threw NoValidAccessToken)
  | _ => True
  end
  /\ match e with
     | CallPause | CallResume | CallNextTrack | CallPreviousTrack
     | CallSeek _ | CallSetVolume _ | CallPlay _ =>
         step s e
         = set_world (SpotifyAuth.getValidAccessToken (world s)).2 s
         /\ apiSent (world (step s e)) = apiSent (world s)
         /\ timers (step s e) = timers s
     | _ => True
     end.
Proof.
  intros H Hn.
  pose proof (getValidAccessToken_apiSent (world s)) as Hs.
  destruct e; try (split; exact I); cbn [step completion];
    unfold pause, resume, nextTrack, previousTrack, seek, setVolume;
    rewrite ?H, ?(remoteControl_no_token _ _ s Hn),
      ?(remote_put_no_token _ s Hn);
    try (split_conj; (reflexivity || exact Hs)).
  unfold play. rewrite H, andb_false_r. unfold no_token in Hn.
  destruct (SpotifyAuth.getValidAccessToken (world s)) as [[[|c r]|] w1];
    try discriminate Hn; split_conj; (reflexivity || exact Hs).
Qed.

Lemma remote_without_token_witness :
  let s := set_useRemote true
             (create (world_of [] 1000 [] [] [playing 5])
                (SdkPresent true)) in
  completion CallNextTrack s = Some Done
  /\ step s CallNextTrack
     = set_world (SpotifyAuth.getValidAccessToken (world s)).2 s
  /\ apiSent (world (step s CallNextTrack)) = apiSent (world s)
  /\ timers (step s CallNextTrack) = timers s.
Proof.
  apply (remote_without_token
           (set_useRemote true
              (create (world_of [] 1000 [] [] [playing 5])
                 (SdkPresent true)))
           CallNextTrack); reflexivity.
Defined.

Lemma trace_remoteControl (method endpoint : string) (s : System) :
  trace (remoteControl method endpoint s).2 = trace s.
Proof. unfold remoteControl, set_timer. field_of_op. Qed.








(** X18: How [play] ends.  Before the device is ready, in local mode, it
    throws without sending anything.  Otherwise, with a valid token, it
    sends one request, and the reply decides: a 2xx completes the call, a
    404 in remote mode is reported as the absence of an active device, any
    other error status as a failure to play with that status, and a
    request that gets no response rejects the call.  [play] never touches
    the vendor player and never schedules a re-poll. *)
Theorem play_completion (s : System) (uri : option string) :
  (useRemote s = false -> JS.truthy (deviceId s) = false ->
   play uri s = (Threw NoDeviceId, s))
  /\ (forall (tc : ascii) (tr : string) (reply : Reply ApiBody)
        (rest : list (Reply ApiBody)),
      JS.truthy (deviceId s) || useRemote s = true ->
      SpotifyAuth.getAccessToken (world s) = Some (String tc tr) ->
      apiNet (world s) = reply :: rest ->
      let s' := (play uri s).2 in
      (play uri s).1
      = match reply with
        | NetworkError => Threw FetchRejected
        | Response status txt _ =>
            if ok status then Done
            else if (status =? 404) && useRemote s then Threw NoActiveDevice
            else Threw (FailedToPlay status txt)
        end
      /\ length (apiSent (world s')) = S (length (apiSent (world s)))
      /\ apiNet (world s') = rest
      /\ trace s' = trace s
      /\ timers s' = timers s
      /\ polls s' = polls s).
Proof.
  split.
  - intros H Hd. unfold play. rewrite H, Hd. reflexivity.
  - intros tc tr reply rest Hready Htok Hnet. cbv zeta. unfold play.
    assert (negb (JS.truthy (deviceId s)) && negb (useRemote s) = false)
      as -> by (destruct (JS.truthy (deviceId s)), (useRemote s); auto).
    rewrite (getValidAccessToken_valid _ _ _ Htok). unfold fetch_api.
    rewrite Hnet. destruct reply as [|status txt body]; cbn [fst snd].
    + split_conj; try reflexivity.
      cbn [world set_world apiSent]. rewrite length_app. cbn [length]. lia.
    + destruct (ok status); cbn [negb];
        [| destruct ((status =? 404) && useRemote s)];
        (split_conj; try reflexivity;
         cbn [snd world set_world apiSent]; rewrite length_app;
         cbn [length]; lia).
Qed.

Lemma play_completion_witness :
  play (Some "spotify:track:xyz") fresh_engine
  = (Threw NoDeviceId, fresh_engine)
  /\ (play (Some "spotify:track:xyz")
        (remote_engine [Response 404 "Not Found" None])).1
     = Threw NoActiveDevice
  /\ (play (Some "spotify:track:xyz")
        (set_deviceId (Some "dev")
           (create (world_of signed_in 1000 [] []
                      [Response 404 "Not Found" None])
              (SdkPresent true)))).1
     = Threw (FailedToPlay 404 "Not Found").
Proof.
  split; [| split].
  - apply (play_completion fresh_engine (Some "spotify:track:xyz"));
      reflexivity.
  - destruct (play_completion
                (remote_engine [Response 404 "Not Found" None])
                (Some "spotify:track:xyz")) as [_ H].
    destruct (H "t"%char "ok" (Response 404 "Not Found" None) [])
      as (R & _); [reflexivity | reflexivity | reflexivity | exact R].
  - destruct (play_completion
                (set_deviceId (Some "dev")
                   (create (world_of signed_in 1000 [] []
                              [Response 404 "Not Found" None])
                      (SdkPresent true)))
                (Some "spotify:track:xyz")) as [_ H].
    destruct (H "t"%char "ok" (Response 404 "Not Found" None) [])
      as (R & _); [reflexivity | reflexivity | reflexivity | exact R].
Defined.

End LocalAndRemoteControl.

Section InitializeAndCleanup.



(** X20: [disconnect] on an engine that holds a player tells the vendor
    player to disconnect and forgets it and the device id; a second
    [disconnect] does nothing; and the next [initialize], given an SDK and
    a token, builds a new vendor player and performs the whole handshake
    on it. *)
Theorem disconnect_then_initialize (s : System) (q : nat) :
  player s = Some q ->
  sdk_available s ->
  JS.truthy (SpotifyAuth.getValidAccessToken (world s)).1 = true ->
  let s1 := disconnect s in
  let p := length (players s) in
  let s2 := (initialize s1).2 in
  player s1 = None
  /\ deviceId s1 = None
  /\ trace s1 = (trace s ++ [SdkCall q SdkDisconnect])%list
  /\ disconnect s1 = s1
  /\ (initialize s1).1 = InitPending p
  /\ player s2 = Some p
  /\ trace s2
     = (trace s ++ [SdkCall q SdkDisconnect] ++ handshake p)%list
  /\ timers s2 = (timers s ++ [(nextTimer s, FallbackTimeout p)])%list.
Proof.
  intros Hq Hsdk Htok. cbv zeta.
  assert (E : disconnect s
              = set_deviceId None
                  (set_player None (sdk_call SdkDisconnect q s)))
    by (unfold disconnect; rewrite Hq; reflexivity).
  destruct (initialize_handshake (disconnect s))
    as (I1 & I2 & _ & I4 & I5 & _); rewrite ?E; try assumption;
    try reflexivity.
  rewrite E in I1, I2, I4, I5.
  split_conj; try reflexivity.
  - exact I1.
  - exact I2.
  - rewrite I5. cbn [trace set_deviceId set_player sdk_call log players].
    rewrite <- app_assoc. reflexivity.
  - exact I4.
Qed.

Lemma disconnect_then_initialize_witness :
  let s := run fresh_engine [CallInitialize; SdkEmits 0 (Ready "dev")] in
  let s1 := disconnect s in
  let s2 := (initialize s1).2 in
  player s1 = None
  /\ deviceId s1 = None
  /\ trace s1 = (trace s ++ [SdkCall 0 SdkDisconnect])%list
  /\ disconnect s1 = s1
  /\ (initialize s1).1 = InitPending 1
  /\ player s2 = Some 1%nat
  /\ trace s2 = (trace s ++ [SdkCall 0 SdkDisconnect] ++ handshake 1)%list
  /\ timers s2 = (timers s ++ [(nextTimer s, FallbackTimeout 1)])%list.
Proof.
  apply (disconnect_then_initialize
           (run fresh_engine [CallInitialize; SdkEmits 0 (Ready "dev")])
           0%nat).
  - vm_compute. reflexivity.
  - left. vm_compute. reflexivity.
  - vm_compute. reflexivity.
Defined.

Lemma delete_snoc {A : Type} (l : list A) (x : A) :
  delete (length l) (l ++ [x])%list = l.
Proof. induction l as [|a l IH]; cbn; [reflexivity | f_equal; exact IH]. Qed.

(** X21: The re-poll of the remote-control methods, end to end.  In
    remote mode with a valid token, when the request of [pause] is
    answered: the 200 ms timer is installed; when it fires it is removed
    and the playback state is fetched; and when that fetch settles every
    subscriber receives the fetched state, once, in the order of
    subscription. *)
Theorem pause_repoll_delivers (s : System) (tc : ascii) (tr : string)
  (status : Z) (txt : string) (body : option ApiBody)
  (rest : list (Reply ApiBody)) :
  useRemote s = true ->
  SpotifyAuth.getAccessToken (world s) = Some (String tc tr) ->
  apiNet (world s) = Response status txt body :: rest ->
  timers_fresh s ->
  let id := nextTimer s in
  let s1 := step s CallPause in
  let s2 := step s1 (TimerFires id) in
  let s3 := step s2 (PollSettles (length (polls s))) in
  let state := (fetchRemoteState (world s1)).1 in
  find_timer id s1 = Some Repoll
  /\ timers s2 = timers s
  /\ polls s2
     = (polls s ++ [{| then_interval := false; result := state |}])%list
  /\ polls s3 = polls s
  /\ trace s3
     = (trace s ++ map (fun cb => Notified cb state) (stateCallbacks s))%list.
Proof.
  intros H Htok Hnet Hfresh. cbv zeta. cbn [step]. unfold pause. rewrite H.
  destruct (remoteControl_schedules_repoll "PUT" "pause" s tc tr status txt
              body rest Htok Hnet) as (_ & R2 & _ & _).
  pose proof (trace_remoteControl "PUT" "pause" s) as R5.
  assert (R6 : polls (remoteControl "PUT" "pause" s).2 = polls s
               /\ stateCallbacks (remoteControl "PUT" "pause" s).2
                  = stateCallbacks s).
  { unfold remoteControl, set_timer. split; field_of_op. }
  destruct R6 as [R6 R7].
  set (s1 := (remoteControl "PUT" "pause" s).2) in *.
  assert (Hfind : find_timer (nextTimer s) s1 = Some Repoll).
  { eapply find_timer_installed; [| exact R2].
    apply timers_fresh_find, Hfresh. }
  destruct (repoll_delivers (nextTimer s) s1 Hfind) as [D1 D2].
  rewrite R6 in D1, D2. rewrite R5, R7 in D2.
  split_conj.
  - exact Hfind.
  - unfold fire. rewrite Hfind. unfold pollRemoteState.
    destruct (fetchRemoteState _) as [st w].
    cbn [timers set_polls set_world clear_timer set_timers]. rewrite R2.
    rewrite List.filter_app. cbn [List.filter fst]. rewrite Nat.eqb_refl.
    cbn [negb]. rewrite app_nil_r.
    apply forallb_filter_id. apply forallb_forall. intros [i t] Hi.
    unfold timers_fresh in Hfresh. rewrite Forall_forall in Hfresh.
    apply list_elem_of_In in Hi. specialize (Hfresh _ Hi). cbn in *.
    destruct (Nat.eqb_spec i (nextTimer s)); [lia | reflexivity].
  - exact D1.
  - unfold settle_poll. rewrite D1.
    rewrite lookup_app_r, Nat.sub_diag by lia. cbn [lookup list_lookup].
    cbn [then_interval polls notifyStateChange log set_polls].
    apply delete_snoc.
  - exact D2.
Qed.

Lemma pause_repoll_delivers_witness :
  let s := remote_subscribed [no_content; playing 5] in
  let id := nextTimer s in
  let s1 := step s CallPause in
  let s2 := step s1 (TimerFires id) in
  let s3 := step s2 (PollSettles (length (polls s))) in
  let state := (fetchRemoteState (world s1)).1 in
  find_timer id s1 = Some Repoll
  /\ timers s2 = timers s
  /\ polls s2
     = (polls s ++ [{| then_interval := false; result := state |}])%list
  /\ polls s3 = polls s
  /\ trace s3
     = (trace s ++ map (fun cb => Notified cb state) (stateCallbacks s))%list.
Proof.
  apply (pause_repoll_delivers (remote_subscribed [no_content; playing 5])
           "t" "ok" 204 "No Content" None [playing 5]).
  - reflexivity.
  - reflexivity.
  - reflexivity.
  - apply Forall_nil. exact I.
Defined.

End InitializeAndCleanup.

Section TraceDiscipline.

Lemma grows_refl (s : System) : grows s s.
Proof.
  split; [reflexivity|]. exists []. rewrite app_nil_r.
  split; [reflexivity | apply Forall_nil; exact I].
Qed.

(** Field updates other than that of the subscribers. *)
Lemma grows_set_player v s s' : grows s s' -> grows s (set_player v s').
Proof. exact (fun H => H). Qed.
Lemma grows_set_deviceId v s s' : grows s s' -> grows s (set_deviceId v s').
Proof. exact (fun H => H). Qed.
Lemma grows_set_useRemote v s s' :
  grows s s' -> grows s (set_useRemote v s').
Proof. exact (fun H => H). Qed.
Lemma grows_set_pollInterval v s s' :
  grows s s' -> grows s (set_pollInterval v s').
Proof. exact (fun H => H). Qed.
Lemma grows_set_world v s s' : grows s s' -> grows s (set_world v s').
Proof. exact (fun H => H). Qed.
Lemma grows_set_sdk v s s' : grows s s' -> grows s (set_sdk v s').
Proof. exact (fun H => H). Qed.
Lemma grows_set_players v s s' : grows s s' -> grows s (set_players v s').
Proof. exact (fun H => H). Qed.
Lemma grows_set_timers v n s s' :
  grows s s' -> grows s (set_timers v n s').
Proof. exact (fun H => H). Qed.
Lemma grows_set_polls v s s' : grows s s' -> grows s (set_polls v s').
Proof. exact (fun H => H). Qed.
Lemma grows_update_player p f s s' :
  grows s s' -> grows s (update_player p f s').
Proof. exact (fun H => H). Qed.
Lemma grows_clear_timer id s s' : grows s s' -> grows s (clear_timer id s').
Proof. exact (fun H => H). Qed.

Lemma grows_log (a : list Action) (s s' : System) :
  Forall (allowed (stateCallbacks s)) a ->
  grows s s' -> grows s (log a s').
Proof.
  intros Ha [Hc (l & Hl & Hf)]. split; [exact Hc|].
  exists (l ++ a)%list. cbn [trace log]. rewrite Hl, app_assoc.
  split; [reflexivity | apply Forall_app; split; assumption].
Qed.

Lemma grows_notifyStateChange st s s' :
  grows s s' -> grows s (notifyStateChange st s').
Proof.
  intros H. unfold notifyStateChange. apply grows_log; [| exact H].
  destruct H as [-> _]. apply Forall_forall. intros a Ha.
  apply list_elem_of_In, in_map_iff in Ha. destruct Ha as (c & <- & Hc).
  exact Hc.
Qed.

Create HintDb grow.

#[local] Hint Resolve grows_refl grows_set_player grows_set_deviceId
  grows_set_useRemote grows_set_pollInterval grows_set_world grows_set_sdk
  grows_set_players grows_set_timers grows_set_polls grows_update_player
  grows_clear_timer grows_log grows_notifyStateChange : grow.

#[local] Hint Extern 1 (Forall (allowed _) _) =>
  repeat (apply Forall_cons; split; [exact I || reflexivity|]);
  apply Forall_nil; exact I : grow.

Ltac break_branch :=
  match goal with
  | |- context [match ?x with _ => _ end] => destruct x eqn:?
  end.

Ltac grow_op := intros; repeat break_branch; cbn [fst snd];
  eauto 40 with grow.

Lemma grows_set_timer t s s' : grows s s' -> grows s (set_timer t s').2.
Proof. exact (fun H => H). Qed.
#[local] Hint Resolve grows_set_timer : grow.

Lemma grows_pollRemoteState b s s' :
  grows s s' -> grows s (pollRemoteState b s').
Proof. unfold pollRemoteState. grow_op. Qed.
#[local] Hint Resolve grows_pollRemoteState : grow.

Lemma grows_startRemotePolling s s' :
  grows s s' -> grows s (startRemotePolling s').
Proof. unfold startRemotePolling. grow_op. Qed.
#[local] Hint Resolve grows_startRemotePolling : grow.

Lemma grows_settle_poll i s s' :
  grows s s' -> grows s (settle_poll i s').
Proof. unfold settle_poll, set_timer. grow_op. Qed.

(** The promise is only ever resolved to true. *)
Lemma grows_resolve p s s' : grows s s' -> grows s (resolve p true s').
Proof. unfold resolve. grow_op. Qed.
#[local] Hint Resolve grows_resolve : grow.

Lemma grows_clear_race_timeout p s s' :
  grows s s' -> grows s (clear_race_timeout p s').
Proof. unfold clear_race_timeout. grow_op. Qed.
#[local] Hint Resolve grows_clear_race_timeout : grow.

Lemma grows_addListener p ev h s s' :
  grows s s' -> grows s (addListener p ev h s').
Proof. unfold addListener. grow_op. Qed.
Lemma grows_removeListener p ev h s s' :
  grows s s' -> grows s (removeListener p ev h s').
Proof. unfold removeListener. grow_op. Qed.
Lemma grows_sdk_call m p s s' : grows s s' -> grows s (sdk_call m p s').
Proof. unfold sdk_call. grow_op. Qed.
#[local] Hint Resolve grows_addListener grows_removeListener grows_sdk_call
  : grow.

Lemma grows_remove_race_listeners p s s' :
  grows s s' -> grows s (remove_race_listeners p s').
Proof. unfold remove_race_listeners, on_current. grow_op. Qed.
#[local] Hint Resolve grows_remove_race_listeners : grow.

Lemma grows_fall_back p s s' : grows s s' -> grows s (fall_back p s').
Proof. unfold fall_back. grow_op. Qed.
#[local] Hint Resolve grows_fall_back : grow.

Lemma grows_run_handler e h s s' :
  grows s s' -> grows s (run_handler e s' h).
Proof. unfold run_handler, onReady, onError, on_current. grow_op. Qed.

Lemma grows_handlers e hs s s' :
  grows s s' -> grows s (fold_left (run_handler e) hs s').
Proof.
  revert s'. induction hs as [|h hs IH]; intros s' H; cbn [fold_left];
    [exact H | apply IH, grows_run_handler, H].
Qed.

Lemma grows_setupEventListeners s s' :
  grows s s' -> grows s (setupEventListeners s').
Proof.
  unfold setupEventListeners. intros H. destruct (player s'); [|exact H].
  cbn [fold_left]. eauto 20 with grow.
Qed.
#[local] Hint Resolve grows_setupEventListeners : grow.

Lemma grows_initialize s s' : grows s s' -> grows s (initialize s').2.
Proof.
  unfold initialize, loadSDK, set_timer. intros H.
  destruct (player s'); [exact H|].
  destruct (sdk s') as [[sound|]|sound] eqn:Hsdk; [| exact H |];
    (destruct (SpotifyAuth.getValidAccessToken (world _)) as [token w];
     destruct (negb (JS.truthy token)); [exact H|];
     cbn [sdk set_world set_sdk]; rewrite ?Hsdk;
     destruct sound; [| exact H];
     cbv beta iota zeta; cbn [snd]; eauto 40 with grow).
Qed.

Lemma grows_getCurrentState st s s' :
  grows s s' -> grows s (getCurrentState st s').2.
Proof. unfold getCurrentState. grow_op. Qed.

Lemma grows_remoteControl m ep s s' :
  grows s s' -> grows s (remoteControl m ep s').2.
Proof. unfold remoteControl. grow_op. Qed.

Lemma grows_transport e s s' :
  match e with
  | CallGetCurrentState _ | CallPlay _ | CallPause | CallResume
  | CallTogglePlay | CallNextTrack | CallPreviousTrack | CallSeek _
  | CallSetVolume _ | CallDisconnect | SdkAsksToken | WorldBecomes _ => True
  | _ => False
  end ->
  grows s s' -> grows s (step s' e).
Proof.
  destruct e; try contradiction; intros _ H; cbn [step];
    try apply grows_getCurrentState;
    try (unfold togglePlay;
         pose proof (grows_getCurrentState None s s' H);
         destruct (getCurrentState None s') as [state s1]; cbn [snd] in *);
    unfold play, pause, resume, nextTrack, previousTrack, seek, setVolume,
      remote_put, local_call, disconnect, getOAuthToken;
    repeat break_branch; cbn [snd fst];
    eauto 20 using grows_remoteControl with grow.
Qed.

(** One step of the engine, other than a subscription or its
    cancellation. *)
Lemma grows_step e s s' :
  (forall c, e <> CallOnStateChange c) ->
  (forall c, e <> CallUnsubscribe c) ->
  grows s s' -> grows s (step s' e).
Proof.
  intros Hsub Hunsub H. pose proof (grows_transport e s s') as Ht.
  destruct e; try (apply Ht; [exact I | exact H]); cbn [step].
  - apply grows_initialize, H.
  - destruct (Hsub callback eq_refl).
  - destruct (Hunsub callback eq_refl).
  - unfold emit. destruct (players s' !! p); [|exact H].
    apply grows_handlers, H.
  - unfold connected, onConnected.
    repeat break_branch; eauto 20 with grow.
    unfold on_current. repeat break_branch; eauto 20 with grow.
  - unfold fire, onTimeout. repeat break_branch; eauto 20 with grow.
  - apply grows_settle_poll, H.
Qed.

(** What any step adds to the trace, and what it does to the
    subscribers. *)
Lemma step_trace (s : System) (e : Event) :
  exists l,
    trace (step s e) = (trace s ++ l)%list
    /\ Forall (allowed (stateCallbacks s)) l
    /\ stateCallbacks (step s e)
       = match e with
         | CallOnStateChange c =>
             if bool_decide (c ∈ stateCallbacks s) then stateCallbacks s
             else (stateCallbacks s ++ [c])%list
         | CallUnsubscribe c =>
             List.filter (fun c' => negb (Nat.eqb c' c)) (stateCallbacks s)
         | _ => stateCallbacks s
         end.
Proof.
  assert (Hquiet : forall s', trace s' = trace s ->
            forall cbs, stateCallbacks s' = cbs ->
            exists l, trace s' = (trace s ++ l)%list
                      /\ Forall (allowed (stateCallbacks s)) l
                      /\ stateCallbacks s' = cbs).
  { intros s' Ht cbs Hc. exists []. rewrite app_nil_r.
    split_conj; [exact Ht | apply Forall_nil; exact I | exact Hc]. }
  destruct e;
    try (match goal with
         | |- context [step s ?e] =>
             destruct (grows_step e s s
                         ltac:(intros; discriminate)
                         ltac:(intros; discriminate)
                         (grows_refl s)) as [Hc (l & Hl & Hf)]
         end;
         exists l; split_conj; assumption).
  - cbn [step]. unfold onStateChange.
    destruct (bool_decide (callback ∈ stateCallbacks s));
      apply Hquiet; reflexivity.
  - cbn [step]. apply Hquiet; reflexivity.
Qed.

Lemma resolves_true_of_allowed (cbs : list nat) (l : list Action) :
  Forall (allowed cbs) l -> Forall resolves_true l.
Proof.
  intros H. eapply Forall_impl; [exact H|]. intros [] Ha; exact Ha || exact I.
Qed.

(** X22: The promise that [initialize] awaits is never resolved to
    false: in every run of an engine from its construction, under every
    interleaving of calls, vendor events, timers, poll results and changes
    of the world, every resolution recorded is a resolution to true. *)
Theorem initialize_promise_never_false (w : World) (status : SdkStatus)
  (es : list Event) :
  Forall resolves_true (trace (run (create w status) es)).
Proof.
  assert (H : forall es s, Forall resolves_true (trace s) ->
                           Forall resolves_true (trace (run s es))).
  { clear es. induction es as [|e es IH]; intros s Hs; cbn [run fold_left];
      [exact Hs|].
    apply IH. destruct (step_trace s e) as (l & -> & Hl & _).
    apply Forall_app. split; [exact Hs|].
    eapply resolves_true_of_allowed, Hl. }
  apply H. apply Forall_nil. exact I.
Qed.

Lemma not_in_filter_self (c : nat) (l : list nat) :
  ~ In c (List.filter (fun c' => negb (Nat.eqb c' c)) l).
Proof.
  intros H. apply filter_In in H as [_ H].
  rewrite Nat.eqb_refl in H. discriminate H.
Qed.

Lemma run_without_subscriber (c : nat) (es : list Event) :
  Forall (fun e => e <> CallOnStateChange c) es ->
  forall s, ~ In c (stateCallbacks s) ->
  exists l, trace (run s es) = (trace s ++ l)%list
            /\ forall st, ~ In (Notified c st) l.
Proof.
  induction es as [|e es IH]; intros Hes s Hc; cbn [run fold_left].
  - exists []. rewrite app_nil_r. split; [reflexivity | intros st []].
  - apply Forall_cons in Hes as [He Hes].
    destruct (step_trace s e) as (l1 & Hl1 & Hf1 & Hc1).
    destruct (IH Hes (step s e)) as (l2 & Hl2 & Hn2).
    + rewrite Hc1. destruct e; try exact Hc.
      * destruct (bool_decide _); [exact Hc|].
        intros Hin. apply in_app_or in Hin as [Hin|[Hin|[]]];
          [exact (Hc Hin) | congruence].
      * intros Hin. apply filter_In in Hin as [Hin _]. exact (Hc Hin).
    + exists (l1 ++ l2)%list. split.
      * change (run (step s e) es) with (fold_left step es (step s e)) in Hl2.
        rewrite Hl2, Hl1, app_assoc. reflexivity.
      * intros st Hin. apply in_app_or in Hin as [Hin|Hin];
          [| exact (Hn2 st Hin)].
        rewrite Forall_forall in Hf1.
        apply list_elem_of_In in Hin. apply Hf1 in Hin. exact (Hc Hin).
Qed.

(** X23: Unsubscribing stops delivery.  After the function returned by
    [onStateChange] has run, the callback receives nothing any more,
    whatever happens next (polls in flight that settle, timers that fire,
    vendor events), until it is subscribed again. *)
Theorem unsubscribe_stops_delivery (s : System) (c : nat)
  (es : list Event) :
  Forall (fun e => e <> CallOnStateChange c) es ->
  exists l,
    trace (run (unsubscribe c s) es) = (trace s ++ l)%list
    /\ forall st, ~ In (Notified c st) l.
Proof.
  intros Hes.
  apply (run_without_subscriber c es Hes (unsubscribe c s)).
  apply not_in_filter_self.
Qed.

Lemma unsubscribe_stops_delivery_witness :
  exists l,
    trace (run (unsubscribe 7 (polling_engine [playing 5; playing 9]))
             [TimerFires 2; PollSettles 0; CallPause])
    = (trace (polling_engine [playing 5; playing 9]) ++ l)%list
    /\ forall st, ~ In (Notified 7 st) l.
Proof.
  apply (unsubscribe_stops_delivery (polling_engine [playing 5; playing 9])
           7 [TimerFires 2; PollSettles 0; CallPause]).
  repeat (apply Forall_cons; split; [discriminate|]).
  apply Forall_nil. exact I.
Defined.

Lemma NoDup_list_filter {A : Type} (f : A -> bool) (l : list A) :
  NoDup l -> NoDup (List.filter f l).
Proof.
  induction l as [|x l IH]; intros H; [exact H|].
  apply NoDup_cons in H as [Hx Hl]. cbn [List.filter].
  destruct (f x); [| exact (IH Hl)].
  apply NoDup_cons. split; [| exact (IH Hl)].
  intros Hin. apply Hx. apply list_elem_of_In in Hin.
  apply filter_In in Hin as [Hin _]. apply list_elem_of_In, Hin.
Qed.

(** X24: The subscribers form a set.  In every state an engine can
    reach no callback is registered twice, so a notification reaches each
    subscriber once; and subscribing a callback a second time changes
    nothing. *)
Theorem subscribers_form_a_set (w : World) (status : SdkStatus)
  (es : list Event) (c : nat) :
  let s := run (create w status) es in
  NoDup (stateCallbacks s)
  /\ onStateChange c (onStateChange c s) = onStateChange c s
  /\ In c (stateCallbacks (onStateChange c s)).
Proof.
  cbv zeta.
  assert (H : forall es s, NoDup (stateCallbacks s) ->
                           NoDup (stateCallbacks (run s es))).
  { clear es. induction es as [|e es IH]; intros s Hs; cbn [run fold_left];
      [exact Hs|].
    apply IH. destruct (step_trace s e) as (_ & _ & _ & ->).
    destruct e; try exact Hs.
    - destruct (bool_decide_reflect (callback ∈ stateCallbacks s))
        as [Hin|Hin]; [exact Hs|].
      apply NoDup_app. split_conj; [exact Hs | | apply NoDup_singleton].
      intros x Hx Hx'. apply list_elem_of_singleton in Hx'. subst x.
      exact (Hin Hx).
    - apply NoDup_list_filter, Hs. }
  split; [apply H, NoDup_nil; exact I|].
  generalize (run (create w status) es). intros s.
  unfold onStateChange.
  destruct (bool_decide_reflect (c ∈ stateCallbacks s)) as [Hin|Hin].
  - destruct (bool_decide_reflect (c ∈ stateCallbacks s)) as [_|Hn];
      [| destruct (Hn Hin)].
    split; [reflexivity | apply list_elem_of_In, Hin].
  - cbn [stateCallbacks set_stateCallbacks].
    assert (Hin' : c ∈ (stateCallbacks s ++ [c])%list)
      by (apply list_elem_of_In, in_or_app; right; left; reflexivity).
    destruct (bool_decide_reflect (c ∈ (stateCallbacks s ++ [c])%list))
      as [_|Hn]; [| destruct (Hn Hin')].
    split; [reflexivity | apply list_elem_of_In, Hin'].
Qed.

End TraceDiscipline.

Section LocalModeNeverPolls.

Lemma calm_refl (s : System) : calm s s.
Proof.
  unfold calm. split_conj; [reflexivity | reflexivity |].
  apply Forall_forall. intros e He. left. apply list_elem_of_In, He.
Qed.

Lemma calm_set_player v s s' : calm s s' -> calm s (set_player v s').
Proof. exact (fun H => H). Qed.
Lemma calm_set_deviceId v s s' : calm s s' -> calm s (set_deviceId v s').
Proof. exact (fun H => H). Qed.
Lemma calm_set_useRemote v s s' : calm s s' -> calm s (set_useRemote v s').
Proof. exact (fun H => H). Qed.
Lemma calm_set_stateCallbacks v s s' :
  calm s s' -> calm s (set_stateCallbacks v s').
Proof. exact (fun H => H). Qed.
Lemma calm_set_world v s s' : calm s s' -> calm s (set_world v s').
Proof. exact (fun H => H). Qed.
Lemma calm_set_sdk v s s' : calm s s' -> calm s (set_sdk v s').
Proof. exact (fun H => H). Qed.
Lemma calm_set_players v s s' : calm s s' -> calm s (set_players v s').
Proof. exact (fun H => H). Qed.
Lemma calm_update_player p f s s' :
  calm s s' -> calm s (update_player p f s').
Proof. exact (fun H => H). Qed.
Lemma calm_log v s s' : calm s s' -> calm s (log v s').
Proof. exact (fun H => H). Qed.
Lemma calm_addListener p ev h s s' :
  calm s s' -> calm s (addListener p ev h s').
Proof. exact (fun H => H). Qed.
Lemma calm_removeListener p ev h s s' :
  calm s s' -> calm s (removeListener p ev h s').
Proof. exact (fun H => H). Qed.
Lemma calm_sdk_call m p s s' : calm s s' -> calm s (sdk_call m p s').
Proof. exact (fun H => H). Qed.
Lemma calm_notifyStateChange st s s' :
  calm s s' -> calm s (notifyStateChange st s').
Proof. exact (fun H => H). Qed.

(** Arming the timer of a race, and clearing any timer. *)
Lemma calm_set_timers_fallback p s s' :
  calm s s' ->
  calm s (set_timers (timers s' ++ [(nextTimer s', FallbackTimeout p)])
            (S (nextTimer s')) s').
Proof.
  intros (H1 & H2 & H3). unfold calm. split_conj; [exact H1 | exact H2 |].
  cbn [timers set_timers]. apply Forall_app. split; [exact H3|].
  apply Forall_cons. split; [right; eauto | apply Forall_nil; exact I].
Qed.

Lemma calm_clear_timer id s s' : calm s s' -> calm s (clear_timer id s').
Proof.
  intros (H1 & H2 & H3). unfold calm. split_conj; [exact H1 | exact H2 |].
  cbn [timers clear_timer set_timers].
  rewrite Forall_forall in H3 |- *. intros e He. apply H3.
  apply list_elem_of_In. apply list_elem_of_In in He.
  apply filter_In in He. tauto.
Qed.

Create HintDb calmdb.

#[local] Hint Resolve calm_refl calm_set_player calm_set_deviceId
  calm_set_useRemote calm_set_stateCallbacks calm_set_world calm_set_sdk
  calm_set_players calm_update_player calm_log calm_addListener
  calm_removeListener calm_sdk_call calm_notifyStateChange
  calm_set_timers_fallback calm_clear_timer : calmdb.

Ltac break_case :=
  match goal with
  | |- context [match ?x with _ => _ end] => destruct x eqn:?
  end.

Ltac calm_op := intros; repeat break_case; cbn [fst snd];
  eauto 40 with calmdb.

Lemma calm_resolve p v s s' : calm s s' -> calm s (resolve p v s').
Proof. unfold resolve. calm_op. Qed.
Lemma calm_clear_race_timeout p s s' :
  calm s s' -> calm s (clear_race_timeout p s').
Proof. unfold clear_race_timeout. calm_op. Qed.
Lemma calm_remove_race_listeners p s s' :
  calm s s' -> calm s (remove_race_listeners p s').
Proof. unfold remove_race_listeners, on_current. calm_op. Qed.
#[local] Hint Resolve calm_resolve calm_clear_race_timeout
  calm_remove_race_listeners : calmdb.


Lemma calm_setupEventListeners s s' :
  calm s s' -> calm s (setupEventListeners s').
Proof.
  unfold setupEventListeners. intros H. destruct (player s'); [|exact H].
  cbn [fold_left]. eauto 20 with calmdb.
Qed.
#[local] Hint Resolve calm_setupEventListeners : calmdb.










End LocalModeNeverPolls.

Section ReadyAndState.

Lemma world_resolve p v s : world (resolve p v s) = world s.
Proof. unfold resolve. field_of_op. Qed.

Lemma world_clear_race_timeout p s :
  world (clear_race_timeout p s) = world s.
Proof. unfold clear_race_timeout. field_of_op. Qed.

Lemma world_remove_race_listeners p s :
  world (remove_race_listeners p s) = world s.
Proof. unfold remove_race_listeners, on_current. field_of_op. Qed.

Lemma world_onReady p d s : world (onReady p d s) = world s.
Proof.
  unfold onReady. rewrite world_resolve. cbn [world set_deviceId].
  rewrite world_remove_race_listeners, world_clear_race_timeout.
  reflexivity.
Qed.

(** X26: From the ready event to playback.  When the vendor player of a
    pending [initialize] announces its device, the engine stays in local
    mode, keeps the player, resolves the promise, and a following [play]
    addresses exactly that device: one PUT request whose URL carries the
    announced device id, with the stored token. *)
Theorem ready_then_play (p : nat) (s : System) (dc tc : ascii)
  (dr tr : string) (uri : option string) :
  awaiting p s ->
  useRemote s = false ->
  SpotifyAuth.getAccessToken (world s) = Some (String tc tr) ->
  let s1 := step s (SdkEmits p (Ready (String dc dr))) in
  useRemote s1 = false
  /\ getDeviceId s1 = Some (String dc dr)
  /\ last (trace s1) = Some (Resolved p true)
  /\ apiSent (world (play uri s1).2)
     = (apiSent (world s)
        ++ [player_request "PUT"
              (PLAYER_URL ++ "/play?device_id=" ++ String dc dr)
              (String tc tr) (Some (stringify (play_body uri)))])%list.
Proof.
  intros Ha Hr Htok. cbv zeta. cbn [step].
  destruct (race_ready p s (String dc dr) Ha) as (R1 & R2 & R3 & R4).
  assert (Hw : world (emit p (Ready (String dc dr)) s) = world s).
  { destruct Ha as [Hp [timer H]]. unfold emit.
    rewrite H, handlers_of_connecting_player.
    cbn [fold_left run_handler]. rewrite world_onReady. reflexivity. }
  set (s1 := emit p (Ready (String dc dr)) s) in *.
  split_conj.
  - rewrite R3. exact Hr.
  - exact R2.
  - rewrite R4. apply (last_resolved _ [_; _; _]).
  - rewrite (play_request s1 uri tc tr).
    + rewrite R3, Hr, R2, Hw. reflexivity.
    + unfold getDeviceId in *. rewrite R2. reflexivity.
    + rewrite Hw. exact Htok.
Qed.

Lemma ready_then_play_witness :
  let s := (initialize fresh_engine).2 in
  let s1 := step s (SdkEmits 0 (Ready "dev-1")) in
  useRemote s1 = false
  /\ getDeviceId s1 = Some "dev-1"
  /\ last (trace s1) = Some (Resolved 0 true)
  /\ apiSent (world (play (Some "spotify:track:xyz") s1).2)
     = (apiSent (world s)
        ++ [player_request "PUT"
              (PLAYER_URL ++ "/play?device_id=" ++ "dev-1")
              "tok" (Some (stringify (play_body (Some "spotify:track:xyz"))))])%list.
Proof.
  apply (ready_then_play 0 (initialize fresh_engine).2 "d" "t" "ev-1" "ok"
           (Some "spotify:track:xyz")).
  - split; [reflexivity | exists 1%nat; reflexivity].
  - reflexivity.
  - reflexivity.
Defined.

(** X27: What [fetchRemoteState] answers.  It sends at most one request
    and none without a token.  It answers a state only for a readable 2xx
    reply other than 204, and the state is then the one the reply
    describes: paused unless playing, at the reported position, with the
    duration of the reported item (0 when there is none).  In every other
    case (no token, no response, an error status, 204, an unreadable body)
    it answers null. *)
Theorem fetchRemoteState_answer (w : World) :
  let st := (fetchRemoteState w).1 in
  let w' := (fetchRemoteState w).2 in
  let w1 := (SpotifyAuth.getValidAccessToken w).2 in
  (length (apiSent w') <= S (length (apiSent w)))%nat
  /\ (JS.truthy (SpotifyAuth.getValidAccessToken w).1 = false ->
      st = None /\ apiSent w' = apiSent w)
  /\ forall state, st = Some state ->
       exists status txt b rest,
         apiNet w1 = Response status txt (Some b) :: rest
         /\ ok status = true
         /\ status <> 204
         /\ paused state = negb (is_playing (playback_of b))
         /\ position state = progress_ms (playback_of b)
         /\ duration state
            = from_option item_duration_ms 0 (item (playback_of b))
         /\ track_duration_ms (current_track state) = duration state.
Proof.
  cbv zeta. unfold fetchRemoteState.
  pose proof (getValidAccessToken_apiSent w) as Hs.
  destruct (SpotifyAuth.getValidAccessToken w) as [token w1].
  cbn [fst snd] in *.
  destruct token as [[|tc tr]|]; cbn [fst snd JS.truthy].
  - rewrite Hs. split_conj; [lia | auto | discriminate].
  - unfold fetch_api.
    destruct (apiNet w1) as [|[|status txt [b|]] rest]; cbn [fst snd];
      try destruct (status =? 204) eqn:E204;
      try destruct (ok status) eqn:Eok; cbn [negb fst snd apiSent];
      rewrite ?length_app, Hs; cbn [length];
      (split_conj; [lia | discriminate |]); try discriminate.
    intros state [= <-]. exists status, txt, b, rest.
    apply Z.eqb_neq in E204. split_conj; try reflexivity; assumption.
  - rewrite Hs. split_conj; [lia | auto | discriminate].
Qed.

End ReadyAndState.

Section EngineRequests.

Lemma sends_refl (w : World) : sends w w.
Proof.
  exists []. rewrite app_nil_r.
  split; [reflexivity | apply Forall_nil; exact I].
Qed.

Lemma sends_eq (w w' : World) : apiSent w' = apiSent w -> sends w w'.
Proof.
  intros H. exists []. rewrite app_nil_r.
  split; [exact H | apply Forall_nil; exact I].
Qed.

Lemma sends_trans (w1 w2 w3 : World) :
  sends w1 w2 -> sends w2 w3 -> sends w1 w3.
Proof.
  intros (l1 & E1 & F1) (l2 & E2 & F2). exists (l1 ++ l2)%list.
  rewrite E2, E1, app_assoc.
  split; [reflexivity | apply Forall_app; split; assumption].
Qed.

Lemma prefix_app (a b : string) : String.prefix a (a ++ b) = true.
Proof.
  induction a as [|c a IH]; [destruct b; reflexivity|].
  change (String c a ++ b) with (String c (a ++ b)).
  cbn [String.prefix]. destruct (ascii_dec c c); [exact IH | congruence].
Qed.

(** One request of the engine, sent with a token that was just found
    truthy. *)
Lemma sends_fetch_api (w1 : World) (method url : string) (c : ascii)
  (token : string) (body : option string) :
  String.prefix PLAYER_URL url = true ->
  sends w1
    (fetch_api (player_request method url (String c token) body) w1).2.
Proof.
  intros Hp. exists [player_request method url (String c token) body].
  split; [reflexivity|].
  apply Forall_cons. split; [| apply Forall_nil; exact I].
  split; [discriminate | exact Hp].
Qed.

Lemma sends_getValidAccessToken (w : World) :
  sends w (SpotifyAuth.getValidAccessToken w).2.
Proof. apply sends_eq, getValidAccessToken_apiSent. Qed.

Lemma sends_fetchRemoteState (w : World) : sends w (fetchRemoteState w).2.
Proof.
  unfold fetchRemoteState.
  pose proof (sends_getValidAccessToken w) as Hv.
  destruct (SpotifyAuth.getValidAccessToken w) as [[[|c token]|] w1];
    cbn [snd] in *; try exact Hv.
  pose proof (sends_fetch_api w1 "GET" PLAYER_URL c token None eq_refl) as Hf.
  change "https://api.spotify.com/v1/me/player" with PLAYER_URL.
  destruct (fetch_api _ w1) as [[|status txt body] w2]; cbn [snd] in *;
    [| destruct (status =? 204); [| destruct (negb (ok status));
                                     [| destruct body]]];
    cbn [snd]; exact (sends_trans _ _ _ Hv Hf).
Qed.

Lemma sends_remote (method url : string) (body : option string)
  (w : World) :
  String.prefix PLAYER_URL url = true ->
  forall c token w1,
    SpotifyAuth.getValidAccessToken w = (Some (String c token), w1) ->
    sends w (fetch_api (player_request method url (String c token) body)
               w1).2.
Proof.
  intros Hp c token w1 E.
  pose proof (sends_getValidAccessToken w) as Hv. rewrite E in Hv.
  exact (sends_trans _ _ _ Hv (sends_fetch_api w1 _ _ c token body Hp)).
Qed.

Lemma sends_remoteControl (method endpoint : string) (s : System) :
  sends (world s) (world (remoteControl method endpoint s).2).
Proof.
  unfold remoteControl.
  pose proof (sends_getValidAccessToken (world s)) as Hv.
  pose proof (sends_remote method (PLAYER_URL ++ "/" ++ endpoint) None
                (world s) (prefix_app _ _)) as Hr.
  destruct (SpotifyAuth.getValidAccessToken (world s))
    as [[[|c token]|] w1]; cbn [snd] in *; try exact Hv.
  specialize (Hr c token w1 eq_refl).
  destruct (fetch_api _ w1) as [[|status txt body] w2]; exact Hr.
Qed.

Lemma sends_remote_put (url : string) (s : System) :
  String.prefix PLAYER_URL url = true ->
  sends (world s) (world (remote_put url s).2).
Proof.
  intros Hp. unfold remote_put.
  pose proof (sends_getValidAccessToken (world s)) as Hv.
  pose proof (sends_remote "PUT" url None (world s) Hp) as Hr.
  destruct (SpotifyAuth.getValidAccessToken (world s))
    as [[[|c token]|] w1]; cbn [snd] in *; try exact Hv.
  specialize (Hr c token w1 eq_refl).
  destruct (fetch_api _ w1) as [[|status txt body] w2]; exact Hr.
Qed.

Lemma sends_play (uri : option string) (s : System) :
  sends (world s) (world (play uri s).2).
Proof.
  unfold play.
  destruct (negb (JS.truthy (deviceId s)) && negb (useRemote s));
    [apply sends_refl|].
  pose proof (sends_getValidAccessToken (world s)) as Hv.
  assert (Hr : forall url, String.prefix PLAYER_URL url = true ->
            forall c token w1,
              SpotifyAuth.getValidAccessToken (world s)
              = (Some (String c token), w1) ->
              sends (world s)
                (fetch_api
                   (player_request "PUT" url (String c token)
                      (Some (stringify (play_body uri)))) w1).2)
    by (intros url Hp; apply sends_remote, Hp).
  destruct (SpotifyAuth.getValidAccessToken (world s))
    as [[[|c token]|] w1]; cbn [snd] in *; try exact Hv.
  match goal with
  | |- context [fetch_api (player_request _ ?url _ _) w1] =>
      assert (Hp : String.prefix PLAYER_URL url = true)
        by (destruct (useRemote s); apply prefix_app);
      specialize (Hr url Hp c token w1 eq_refl)
  end.
  destruct (fetch_api _ w1) as [[|status txt body] w2]; cbn [snd] in *;
    [exact Hr|].
  destruct (negb (ok status)); [destruct (_ && _)|]; exact Hr.
Qed.

Lemma sends_pollRemoteState b s :
  sends (world s) (world (pollRemoteState b s)).
Proof.
  unfold pollRemoteState.
  pose proof (sends_fetchRemoteState (world s)) as H.
  destruct (fetchRemoteState (world s)) as [st w]. exact H.
Qed.

Lemma world_clear_timer id s : world (clear_timer id s) = world s.
Proof. reflexivity. Qed.

Lemma sends_startRemotePolling s :
  sends (world s) (world (startRemotePolling s)).
Proof.
  unfold startRemotePolling.
  destruct (pollInterval s);
    [exact (sends_pollRemoteState true (clear_timer _ s))
    | apply sends_pollRemoteState].
Qed.

Lemma sends_fall_back p s : sends (world s) (world (fall_back p s)).
Proof.
  unfold fall_back. rewrite world_resolve.
  exact (sends_startRemotePolling (set_useRemote true s)).
Qed.

Lemma sends_settle_poll i s : sends (world s) (world (settle_poll i s)).
Proof.
  apply sends_eq. unfold settle_poll, set_timer. f_equal. field_of_op.
Qed.

Lemma sends_onError p m s : sends (world s) (world (onError p m s)).
Proof.
  unfold onError.
  match goal with
  | |- sends _ (world (fall_back p ?s0)) =>
      assert (E : world s0 = world s);
      [| rewrite <- E; apply sends_fall_back]
  end.
  cbn [world set_player]. unfold on_current, sdk_call.
  destruct (player (remove_race_listeners p (clear_race_timeout p s)));
    cbn [world log];
    rewrite world_remove_race_listeners, world_clear_race_timeout;
    reflexivity.
Qed.

Lemma sends_run_handler e h s :
  sends (world s) (world (run_handler e s h)).
Proof.
  destruct h, e; cbn [run_handler];
    try apply sends_refl;
    try apply sends_onError;
    try (rewrite world_onReady; apply sends_refl).
  cbn [world set_world]. apply sends_eq, refreshAccessToken_apiSent.
Qed.

Lemma sends_handlers e hs s :
  sends (world s) (world (fold_left (run_handler e) hs s)).
Proof.
  revert s. induction hs as [|h hs IH]; intros s; cbn [fold_left];
    [apply sends_refl|].
  exact (sends_trans _ _ _ (sends_run_handler e h s) (IH _)).
Qed.

Lemma sends_initialize s : sends (world s) (world (initialize s).2).
Proof.
  apply sends_eq.
  assert (H : world (initialize s).2 = world s
              \/ world (initialize s).2
                 = (SpotifyAuth.getValidAccessToken (world s)).2).
  { unfold initialize, loadSDK, setupEventListeners, set_timer.
    destruct (player s); [left; reflexivity|].
    destruct (sdk s) as [[sound|]|sound] eqn:Hsdk;
      [| left; reflexivity |];
      (cbn [world set_sdk];
       destruct (SpotifyAuth.getValidAccessToken (world s)) as [token w];
       destruct (negb (JS.truthy token)); [right; reflexivity|];
       cbn [sdk set_world set_sdk]; rewrite ?Hsdk;
       destruct sound; right; reflexivity). }
  destruct H as [-> | ->];
    [reflexivity | apply getValidAccessToken_apiSent].
Qed.

Lemma sends_getCurrentState st s :
  sends (world s) (world (getCurrentState st s).2).
Proof.
  unfold getCurrentState. destruct (useRemote s).
  - pose proof (sends_fetchRemoteState (world s)) as H.
    destruct (fetchRemoteState (world s)) as [state w]. exact H.
  - destruct (player s); apply sends_refl.
Qed.

Lemma sends_local_call m s : sends (world s) (world (local_call m s).2).
Proof. unfold local_call. destruct (player s); apply sends_refl. Qed.

(** One step of the engine, the world changing under it apart. *)
Lemma sends_step (s : System) (e : Event) :
  (forall w, e <> WorldBecomes w) ->
  sends (world s) (world (step s e)).
Proof.
  intros Hw. destruct e; cbn [step].
  - apply sends_initialize.
  - unfold onStateChange. destruct (bool_decide _); apply sends_refl.
  - apply sends_refl.
  - apply sends_getCurrentState.
  - apply sends_play.
  - unfold pause. destruct (useRemote s);
      [apply sends_remoteControl | apply sends_local_call].
  - unfold resume. destruct (useRemote s);
      [apply sends_remoteControl | apply sends_local_call].
  - unfold togglePlay. destruct (useRemote s); [| apply sends_local_call].
    pose proof (sends_getCurrentState None s) as H.
    destruct (getCurrentState None s) as [state s1]. cbn [snd] in H.
    eapply sends_trans; [exact H|].
    destruct (from_option paused false state); unfold resume, pause;
      destruct (useRemote s1);
      apply sends_remoteControl || apply sends_local_call.
  - unfold nextTrack. destruct (useRemote s);
      [apply sends_remoteControl | apply sends_local_call].
  - unfold previousTrack. destruct (useRemote s);
      [apply sends_remoteControl | apply sends_local_call].
  - unfold seek. destruct (useRemote s);
      [apply sends_remote_put, prefix_app | apply sends_local_call].
  - unfold setVolume. destruct (useRemote s);
      [apply sends_remote_put, prefix_app | apply sends_local_call].
  - unfold disconnect. destruct (player s); apply sends_refl.
  - unfold emit. destruct (players s !! p); [| apply sends_refl].
    apply sends_handlers.
  - unfold connected. destruct (players s !! p) as [pl|];
      [| apply sends_refl].
    destruct (connecting pl); [| apply sends_refl].
    unfold onConnected. destruct success; [apply sends_refl|].
    match goal with
    | |- sends _ (world (fall_back p ?s0)) =>
        assert (E : world s0 = world s);
        [| rewrite <- E; apply sends_fall_back]
    end.
    cbn [world set_player]. unfold on_current, sdk_call.
    match goal with
    | |- context [player ?s0] =>
        destruct (player s0); cbn [world log];
        rewrite world_clear_race_timeout; reflexivity
    end.
  - apply sends_eq. cbn [world getOAuthToken set_world].
    apply getValidAccessToken_apiSent.
  - unfold fire. destruct (find_timer id s) as [[q| |]|].
    + exact (sends_fall_back q (clear_timer id s)).
    + apply sends_pollRemoteState.
    + exact (sends_pollRemoteState false (clear_timer id s)).
    + apply sends_refl.
  - apply sends_settle_poll.
  - destruct (Hw w eq_refl).
Qed.

(** X28: The engine only sends authenticated requests to the
    playback-control API.  Whatever calls, vendor events, timers and poll
    settlements occur, every request an engine adds to the log carries a
    non-empty bearer token and addresses
    [https://api.spotify.com/v1/me/player] or a path below it. *)
Theorem engine_requests_are_authenticated (s : System) (es : list Event) :
  Forall (fun e => forall w, e <> WorldBecomes w) es ->
  exists l,
    apiSent (world (run s es)) = (apiSent (world s) ++ l)%list
    /\ Forall (fun r => req_bearer r <> EmptyString
                        /\ String.prefix "https://api.spotify.com/v1/me/player"
                             (req_url r) = true) l.
Proof.
  revert s. induction es as [|e es IH]; intros s Hes; cbn [run fold_left].
  - exact (sends_refl (world s)).
  - apply Forall_cons in Hes as [He Hes].
    exact (sends_trans _ _ _ (sends_step s e He) (IH (step s e) Hes)).
Qed.

Lemma engine_requests_are_authenticated_witness :
  exists l,
    apiSent (world (run fresh_engine
                      [CallInitialize; TimerFires 1; PollSettles 0;
                       CallPause]))
    = (apiSent (world fresh_engine) ++ l)%list
    /\ Forall (fun r => req_bearer r <> EmptyString
                        /\ String.prefix "https://api.spotify.com/v1/me/player"
                             (req_url r) = true) l.
Proof.
  apply (engine_requests_are_authenticated fresh_engine
           [CallInitialize; TimerFires 1; PollSettles 0; CallPause]).
  repeat (apply Forall_cons; split; [discriminate|]).
  apply Forall_nil. exact I.
Defined.

End EngineRequests.

